(** * LoomSDK script runtime: a shallow embedding of [lsLuaState.cpp]

    The development follows [src/loom/script/runtime/lsLuaState.cpp]:
    the executable container codec, the assembly lookup, the VM
    open/close life cycle with its allocator, the traceback capture,
    the ordinal type cache and the type-graph finalisation pipeline
    (missing-type marking, compaction, declare, initialize).

    Pointers are natural numbers with [NULL = 0]; C++ objects live in
    finite maps from pointers to records; code that aborts returns a
    [fault]; calls into collaborators that are not part of the file
    are recorded as events. *)

From Stdlib Require Import ZArith.
From Stdlib.Strings Require Import Byte.
From stdpp Require Import gmap strings list fin_maps.

Open Scope Z_scope.

(** ** Common ground: pointers, faults and the state-and-fault monad *)

Definition ptr := N.
Definition NULL : ptr := 0%N.

(** The ways in which the C++ code stops instead of returning.
    [lmCheck] failures are [FormatError]s, [lmAssert] and [LSError]
    are [FatalError]s, the C [assert] (enabled, as in a build without
    [NDEBUG]) is an [AssertFault].  [Undefined] marks behaviour the C++
    standard leaves undefined, [OutOfFuel] a loop that did not finish
    within the fuel it was given. *)
Inductive fault : Type :=
| FormatError (msg : string)
| FatalError (msg : string)
| AssertFault (expr : string)
| Undefined (what : string)
| OutOfFuel.

Inductive outcome (S A : Type) : Type :=
| Ok (a : A) (s : S)
| Fail (f : fault) (s : S).
Arguments Ok {S A} a s.
Arguments Fail {S A} f s.

Definition M (S A : Type) : Type := S -> outcome S A.

Definition ret {S A} (a : A) : M S A := fun s => Ok a s.

Definition bind {S A B} (c : M S A) (k : A -> M S B) : M S B :=
  fun s => match c s with
           | Ok a s' => k a s'
           | Fail f s' => Fail f s'
           end.

Definition get {S} : M S S := fun s => Ok s s.
Definition put {S} (s : S) : M S unit := fun _ => Ok tt s.
Definition modify {S} (f : S -> S) : M S unit := fun s => Ok tt (f s).
Definition raise {S A} (f : fault) : M S A := fun s => Fail f s.

Declare Scope loom_scope.
Delimit Scope loom_scope with loom.
Notation "x <- c ;; k" := (bind c (fun x => k))
  (at level 100, c at next level, right associativity) : loom_scope.
Notation "c ;; k" := (bind c (fun _ => k))
  (at level 100, right associativity) : loom_scope.
Open Scope loom_scope.

(** [lmCheck(cond, msg)], [lmAssert(cond, msg)], [LSError(msg)] and the
    C [assert(cond)].  The macros are declared in headers that are not
    part of the sources at hand; they stop the load with the fault
    class the specification gives them. *)
Definition lmCheck {S} (cond : bool) (msg : string) : M S unit :=
  if cond then ret tt else raise (FormatError msg).

Definition lmAssert {S} (cond : bool) (msg : string) : M S unit :=
  if cond then ret tt else raise (FatalError msg).

Definition LSError {S A} (msg : string) : M S A := raise (FatalError msg).

Definition assert {S} (cond : bool) (expr : string) : M S unit :=
  if cond then ret tt else raise (AssertFault expr).

(** [for (i = 0; i < xs.size(); i++) body(xs[i])] over an array that the
    body does not resize. *)
Fixpoint forEach {S A} (body : A -> M S unit) (xs : list A) : M S unit :=
  match xs with
  | [] => ret tt
  | x :: rest => body x ;; forEach body rest
  end.

Lemma bind_Ok {S A B} (c : M S A) (k : A -> M S B) s a s' :
  c s = Ok a s' -> bind c k s = k a s'.
Proof. intros H. unfold bind. now rewrite H. Qed.

Lemma bind_Fail {S A B} (c : M S A) (k : A -> M S B) s f s' :
  c s = Fail f s' -> bind c k s = Fail f s'.
Proof. intros H. unfold bind. now rewrite H. Qed.

Lemma bind_Ok_inv {S A B} (c : M S A) (k : A -> M S B) s b s2 :
  bind c k s = Ok b s2 -> exists a s1, c s = Ok a s1 /\ k a s1 = Ok b s2.
Proof.
  unfold bind. destruct (c s) as [a s1|f s1]; [eauto|discriminate].
Qed.

(** ** The executable container codec *)

Module Codec.

(** [utByteArray]: the bytes and the read position. *)
Record utByteArray : Type := mkByteArray {
  data : list byte;
  position : nat
}.

(** [headerBytes.allocateAndCopy(buffer, n)] copies the first [n] bytes
    of [buffer], whatever [bufferSize] says; the copy reads past the end
    of a shorter buffer, which C leaves undefined. *)
Definition allocateAndCopy (src : list byte) (n : nat) : M utByteArray unit :=
  if decide (n <= length src)%nat
  then put (mkByteArray (take n src) 0)
  else raise (Undefined "allocateAndCopy reads past the end of the buffer").

(** A 32-bit unsigned integer from four bytes, least significant first
    (the byte order of the platforms the runtime targets). *)
Definition le32 (b0 b1 b2 b3 : byte) : Z :=
  Z.of_N (Byte.to_N b0) + 256 * Z.of_N (Byte.to_N b1)
  + 65536 * Z.of_N (Byte.to_N b2) + 16777216 * Z.of_N (Byte.to_N b3).

(** [readUnsignedInt()]: the four bytes at the read position, which it
    advances. *)
Definition readUnsignedInt : M utByteArray Z :=
  fun ba =>
    match take 4 (drop (position ba) (data ba)) with
    | [b0; b1; b2; b3] =>
        Ok (le32 b0 b1 b2 b3) (mkByteArray (data ba) (position ba + 4))
    | _ => Fail (Undefined "readUnsignedInt reads past the end") ba
    end.

(** [bytes->resize(sz)] on a fresh array. *)
Definition resize (sz : Z) : utByteArray :=
  mkByteArray (replicate (Z.to_nat sz) x00) 0.

(** zlib's status for success. *)
Definition Z_OK : Z := 0.

Section Decode.

(** The constants of the container format, compiled into the runtime. *)
Variables LOOM_BINARY_ID LOOM_BINARY_VERSION_MAJOR LOOM_BINARY_VERSION_MINOR : Z.

(** zlib's [uncompress(dest, &destLen, source, sourceLen)], given the
    capacity [destLen], the source bytes and [sourceLen]: the status,
    the new value of [destLen] and the bytes it wrote to [dest]. *)
Variable uncompress : Z -> list byte -> Z -> Z * Z * list byte.

(** The destination after [uncompress] wrote [written] into it:
    zlib never writes past the capacity, and the size of the array
    stays what [resize] made it. *)
Definition writeInto (dest : utByteArray) (written : list byte) : utByteArray :=
  mkByteArray
    (take (length (data dest)) (written ++ drop (length written) (data dest)))
    (position dest).

(** [LSLuaState::openExecutableAssemblyBinary(buffer, bufferSize)].
    The state of the computation is the local [headerBytes]; the value
    is the array [bytes] it returns.  [bufferSize] is never read: the
    length the source hands to [uncompress] is [sz]. *)
Definition openExecutableAssemblyBinary_body (buffer : list byte)
  : M utByteArray utByteArray :=
  allocateAndCopy buffer 16 ;;
  id <- readUnsignedInt ;;
  lmCheck (id =? LOOM_BINARY_ID) "binary id mismatch" ;;
  major <- readUnsignedInt ;;
  lmCheck (major =? LOOM_BINARY_VERSION_MAJOR) "major version mismatch" ;;
  minor <- readUnsignedInt ;;
  lmCheck (minor =? LOOM_BINARY_VERSION_MINOR) "minor version mismatch" ;;
  sz <- readUnsignedInt ;;
  let bytes := resize sz in
  let '(ok, readSZ, written) := uncompress sz (drop 16 buffer) sz in
  let bytes := writeInto bytes written in
  lmCheck (ok =? Z_OK) "problem uncompressing executable assembly" ;;
  lmCheck (readSZ =? sz) "Read size mismatch" ;;
  ret bytes.

Definition openExecutableAssemblyBinary (buffer : list byte)
  : fault + utByteArray :=
  match openExecutableAssemblyBinary_body buffer (mkByteArray [] 0) with
  | Ok bytes _ => inr bytes
  | Fail f _ => inl f
  end.

(** The header fields as the format lays them out: field [i] is the
    32-bit integer at byte offset [4 * i]. *)
Definition headerField (i : nat) (buffer : list byte) : Z :=
  match take 4 (drop (4 * i) buffer) with
  | [b0; b1; b2; b3] => le32 b0 b1 b2 b3
  | _ => 0
  end.

Definition magic := headerField 0.
Definition majorVersion := headerField 1.
Definition minorVersion := headerField 2.
Definition uncompressedSize := headerField 3.

(** What [uncompress] reports on the payload of [buffer]. *)
Definition inflated (buffer : list byte) : Z * Z * list byte :=
  uncompress (uncompressedSize buffer) (drop 16 buffer) (uncompressedSize buffer).
Definition inflateStatus (buffer : list byte) : Z := (inflated buffer).1.1.
Definition inflatedSize (buffer : list byte) : Z := (inflated buffer).1.2.

(** Every check of the decoder passes. *)
Definition wellFormed (buffer : list byte) : Prop :=
  magic buffer = LOOM_BINARY_ID /\
  majorVersion buffer = LOOM_BINARY_VERSION_MAJOR /\
  minorVersion buffer = LOOM_BINARY_VERSION_MINOR /\
  inflateStatus buffer = Z_OK /\
  inflatedSize buffer = uncompressedSize buffer.

End Decode.

(** A stand-in for zlib used by the examples: the payload is stored as
    it is, and the call succeeds when [sourceLen] bytes are there and
    fit the destination. *)
Definition storedUncompress (destLen : Z) (source : list byte) (sourceLen : Z)
  : Z * Z * list byte :=
  if decide (0 <= sourceLen <= destLen /\ sourceLen <= Z.of_nat (length source))
  then (Z_OK, sourceLen, take (Z.to_nat sourceLen) source)
  else (-5, destLen, []).

(** [n] as four bytes, least significant first. *)
Definition u32le (n : Z) : list byte :=
  let b k := match Byte.of_N (Z.to_N ((n / 256 ^ k) mod 256)) with
             | Some x => x
             | None => x00
             end in
  [b 0; b 1; b 2; b 3].

Definition container (id major minor sz : Z) (payload : list byte) : list byte :=
  u32le id ++ u32le major ++ u32le minor ++ u32le sz ++ payload.

(** The magic identifier: the characters LOOM. *)
Definition LOOM : Z := 0x4c4f4f4d.

End Codec.

Module CodecProofs.
Import Codec.

Section DecodeProofs.

Variables ID MAJOR MINOR : Z.
Variable uncompress : Z -> list byte -> Z -> Z * Z * list byte.

Local Abbreviation decode := (openExecutableAssemblyBinary ID MAJOR MINOR uncompress).

(** A buffer that holds the 16-byte header, split into the header
    bytes and the payload. *)
Lemma header_split (buffer : list byte) :
  (16 <= length buffer)%nat ->
  exists a0 a1 a2 a3 b0 b1 b2 b3 c0 c1 c2 c3 d0 d1 d2 d3 payload,
    buffer = [a0; a1; a2; a3; b0; b1; b2; b3; c0; c1; c2; c3; d0; d1; d2; d3]
               ++ payload.
Proof.
  intros Hlen.
  do 16 (destruct buffer as [|? buffer]; [simpl in Hlen; lia|]).
  by repeat eexists.
Qed.

Lemma le32_nonneg b0 b1 b2 b3 : 0 <= le32 b0 b1 b2 b3.
Proof. unfold le32. lia. Qed.

Lemma writeInto_length dest written :
  length (data (writeInto dest written)) = length (data dest).
Proof.
  unfold writeInto. simpl. rewrite length_take, length_app, length_drop. lia.
Qed.

(** The decoder, unfolded on a buffer with a full header: the four
    checks on the fields in the order of the source, then the two on
    what [uncompress] reports. *)
Lemma decode_unfold (buffer : list byte) :
  (16 <= length buffer)%nat ->
  decode buffer =
    if negb (magic buffer =? ID) then inl (FormatError "binary id mismatch")
    else if negb (majorVersion buffer =? MAJOR)
         then inl (FormatError "major version mismatch")
    else if negb (minorVersion buffer =? MINOR)
         then inl (FormatError "minor version mismatch")
    else if negb (inflateStatus uncompress buffer =? Z_OK)
         then inl (FormatError "problem uncompressing executable assembly")
    else if negb (inflatedSize uncompress buffer =? uncompressedSize buffer)
         then inl (FormatError "Read size mismatch")
    else inr (writeInto (resize (uncompressedSize buffer))
                        (inflated uncompress buffer).2).
Proof.
  intros Hlen.
  destruct (header_split buffer Hlen)
    as (a0&a1&a2&a3&b0&b1&b2&b3&c0&c1&c2&c3&d0&d1&d2&d3&payload&->).
  unfold openExecutableAssemblyBinary, openExecutableAssemblyBinary_body,
    inflateStatus, inflatedSize, inflated,
    magic, majorVersion, minorVersion, uncompressedSize, headerField.
  cbn [app take drop Nat.mul Nat.add].
  unfold bind at 1. unfold allocateAndCopy.
  destruct (decide _) as [_|Hn]; [|exfalso; apply Hn; simpl; lia].
  cbn -[le32 Z.eqb resize writeInto].
  rewrite ?take_0, ?drop_0.
  destruct (le32 a0 a1 a2 a3 =? ID); cbn -[le32 Z.eqb resize writeInto]; [|reflexivity].
  destruct (le32 b0 b1 b2 b3 =? MAJOR); cbn -[le32 Z.eqb resize writeInto]; [|reflexivity].
  destruct (le32 c0 c1 c2 c3 =? MINOR); cbn -[le32 Z.eqb resize writeInto]; [|reflexivity].
  destruct (uncompress _ payload _) as [[ok readSZ] written].
  cbn -[le32 Z.eqb resize writeInto].
  destruct (ok =? Z_OK); cbn -[le32 Z.eqb resize writeInto]; [|reflexivity].
  destruct (readSZ =? _); cbn -[le32 Z.eqb resize writeInto]; reflexivity.
Qed.

Lemma uncompressedSize_nonneg buffer : 0 <= uncompressedSize buffer.
Proof.
  unfold uncompressedSize, headerField.
  destruct (take 4 (drop (4 * 3) buffer)) as [|? [|? [|? [|? [|]]]]];
    try lia; apply le32_nonneg.
Qed.

(** The checks on a buffer that holds the 16-byte header: when the
    magic identifier, the major or the minor version differs from the
    compiled-in constant, when [uncompress] does not report [Z_OK], or
    when the size it reports differs from the declared uncompressed
    size, decoding fails with a [FormatError]; otherwise it succeeds
    and the array it returns has exactly the declared size, whatever
    [uncompress] wrote. *)
Theorem openExecutableAssemblyBinary_gate (buffer : list byte) :
  (16 <= length buffer)%nat ->
  (magic buffer <> ID \/ majorVersion buffer <> MAJOR \/
   minorVersion buffer <> MINOR \/ inflateStatus uncompress buffer <> Z_OK \/
   inflatedSize uncompress buffer <> uncompressedSize buffer ->
   exists msg, decode buffer = inl (FormatError msg)) /\
  (wellFormed ID MAJOR MINOR uncompress buffer ->
   exists bytes, decode buffer = inr bytes /\
     Z.of_nat (length (data bytes)) = uncompressedSize buffer).
Proof.
  intros Hlen. rewrite (decode_unfold buffer Hlen). split.
  - intros Hbad.
    destruct (Z.eqb_spec (magic buffer) ID); cbn [negb]; [|eauto].
    destruct (Z.eqb_spec (majorVersion buffer) MAJOR); cbn [negb]; [|eauto].
    destruct (Z.eqb_spec (minorVersion buffer) MINOR); cbn [negb]; [|eauto].
    destruct (Z.eqb_spec (inflateStatus uncompress buffer) Z_OK); cbn [negb]; [|eauto].
    destruct (Z.eqb_spec (inflatedSize uncompress buffer) (uncompressedSize buffer));
      cbn [negb]; [|eauto].
    exfalso. intuition congruence.
  - intros (Hid & Hmaj & Hmin & Hok & Hsz).
    rewrite Hid, Hmaj, Hmin, Hok, Hsz, !Z.eqb_refl. cbn [negb].
    eexists. split; [reflexivity|].
    rewrite writeInto_length. unfold resize. simpl.
    rewrite length_replicate, Z2Nat.id; [reflexivity|apply uncompressedSize_nonneg].
Qed.

(** C1 (where the code departs from it).  The header is copied with
    [allocateAndCopy(buffer, 16)] and [bufferSize] is never read: on a
    buffer of fewer than 16 bytes the copy reads past the end of the
    buffer, so decoding neither fails with a [FormatError] nor
    succeeds, whatever the bytes, the constants and [uncompress]
    are. *)
Theorem openExecutableAssemblyBinary_short_buffer (buffer : list byte) :
  (length buffer < 16)%nat ->
  openExecutableAssemblyBinary ID MAJOR MINOR uncompress buffer
  = inl (Undefined "allocateAndCopy reads past the end of the buffer") /\
  (forall msg, openExecutableAssemblyBinary ID MAJOR MINOR uncompress buffer
               <> inl (FormatError msg)) /\
  (forall bytes, openExecutableAssemblyBinary ID MAJOR MINOR uncompress buffer
                 <> inr bytes).
Proof.
  intros Hlen.
  assert (Hrun : decode buffer
                 = inl (Undefined "allocateAndCopy reads past the end of the buffer")).
  { unfold openExecutableAssemblyBinary, openExecutableAssemblyBinary_body.
    unfold bind at 1. unfold allocateAndCopy.
    destruct (decide (16 <= length buffer)%nat) as [Hge|_]; [lia|reflexivity]. }
  rewrite Hrun. split; [reflexivity|]. split; intros x Heq; discriminate Heq.
Qed.

End DecodeProofs.

(** The scenario of the specification: magic LOOM, major 2, minor 0,
    declared size 128 and a payload that inflates to 128 bytes. *)
Definition scenario (major sz : Z) : list byte :=
  container LOOM major 0 sz (replicate 128 x2a).

Lemma openExecutableAssemblyBinary_gate_witness :
  (exists bytes,
      openExecutableAssemblyBinary LOOM 2 0 storedUncompress (scenario 2 128) = inr bytes /\
      Z.of_nat (length (data bytes)) = uncompressedSize (scenario 2 128)) /\
  (exists msg,
      openExecutableAssemblyBinary LOOM 2 0 storedUncompress (scenario 3 128)
      = inl (FormatError msg)).
Proof.
  split.
  - apply (openExecutableAssemblyBinary_gate LOOM 2 0 storedUncompress (scenario 2 128)).
    + vm_compute. lia.
    + vm_compute. repeat split; reflexivity.
  - apply (openExecutableAssemblyBinary_gate LOOM 2 0 storedUncompress (scenario 3 128)).
    + vm_compute. lia.
    + right. left. vm_compute. discriminate.
Defined.

(** A container cut after the minor version: twelve bytes, the three
    fields the runtime expects and no size field. *)
Definition truncated : list byte := u32le LOOM ++ u32le 2 ++ u32le 0.

Lemma openExecutableAssemblyBinary_short_buffer_witness :
  openExecutableAssemblyBinary LOOM 2 0 storedUncompress truncated
  = inl (Undefined "allocateAndCopy reads past the end of the buffer") /\
  (forall msg, openExecutableAssemblyBinary LOOM 2 0 storedUncompress truncated
               <> inl (FormatError msg)) /\
  (forall bytes, openExecutableAssemblyBinary LOOM 2 0 storedUncompress truncated
                 <> inr bytes).
Proof.
  apply (openExecutableAssemblyBinary_short_buffer LOOM 2 0 storedUncompress truncated).
  vm_compute. lia.
Defined.

(** The same container with a declared size of 129 and a payload of 128
    bytes is refused. *)
Example scenario_size_mismatch :
  exists msg, openExecutableAssemblyBinary LOOM 2 0 storedUncompress (scenario 2 129)
              = inl (FormatError msg).
Proof. eexists. vm_compute. reflexivity. Qed.

Example scenario_decodes :
  data <$> (match openExecutableAssemblyBinary LOOM 2 0 storedUncompress (scenario 2 128) with
            | inr b => Some b | inl _ => None end)
  = Some (replicate 128 x2a).
Proof. vm_compute. reflexivity. Qed.

(** *** What the decoder reports, and how much of the buffer it reads *)

Section DecodeDiagnosis.

Variables ID MAJOR MINOR : Z.
Variable uncompress : Z -> list byte -> Z -> Z * Z * list byte.

Local Abbreviation decode := (openExecutableAssemblyBinary ID MAJOR MINOR uncompress).

Lemma writeInto_exact sz written :
  0 <= sz -> Z.of_nat (length written) = sz ->
  writeInto (resize sz) written = mkByteArray written 0.
Proof.
  intros Hsz Hlen. unfold writeInto, resize. cbn [data position].
  rewrite length_replicate. f_equal.
  rewrite drop_ge by (rewrite length_replicate; lia).
  rewrite app_nil_r. apply take_ge. lia.
Qed.

(** The checks run in the order of the source and the first one that
    fails gives the message: the magic identifier, the major version,
    the minor version, the status of [uncompress], the size it
    reports.  When all pass and [uncompress] wrote as many bytes as it
    reports, the array returned holds exactly those bytes, with the
    read position at the start. *)
Theorem openExecutableAssemblyBinary_diagnosis (buffer : list byte) :
  (16 <= length buffer)%nat ->
  (magic buffer <> ID ->
   decode buffer = inl (FormatError "binary id mismatch")) /\
  (magic buffer = ID -> majorVersion buffer <> MAJOR ->
   decode buffer = inl (FormatError "major version mismatch")) /\
  (magic buffer = ID -> majorVersion buffer = MAJOR -> minorVersion buffer <> MINOR ->
   decode buffer = inl (FormatError "minor version mismatch")) /\
  (magic buffer = ID -> majorVersion buffer = MAJOR -> minorVersion buffer = MINOR ->
   inflateStatus uncompress buffer <> Z_OK ->
   decode buffer = inl (FormatError "problem uncompressing executable assembly")) /\
  (magic buffer = ID -> majorVersion buffer = MAJOR -> minorVersion buffer = MINOR ->
   inflateStatus uncompress buffer = Z_OK ->
   inflatedSize uncompress buffer <> uncompressedSize buffer ->
   decode buffer = inl (FormatError "Read size mismatch")) /\
  (wellFormed ID MAJOR MINOR uncompress buffer ->
   Z.of_nat (length (inflated uncompress buffer).2) = inflatedSize uncompress buffer ->
   decode buffer = inr (mkByteArray (inflated uncompress buffer).2 0)).
Proof.
  intros Hlen. rewrite (decode_unfold ID MAJOR MINOR uncompress buffer Hlen).
  destruct (Z.eqb_spec (magic buffer) ID) as [Hid|Hid]; cbn [negb].
  2: { repeat split; intros; try congruence.
       match goal with H : wellFormed _ _ _ _ _ |- _ => destruct H; congruence end. }
  destruct (Z.eqb_spec (majorVersion buffer) MAJOR) as [Hmaj|Hmaj]; cbn [negb].
  2: { repeat split; intros; try congruence.
       match goal with H : wellFormed _ _ _ _ _ |- _ => destruct H as (_&?&_); congruence end. }
  destruct (Z.eqb_spec (minorVersion buffer) MINOR) as [Hmin|Hmin]; cbn [negb].
  2: { repeat split; intros; try congruence.
       match goal with H : wellFormed _ _ _ _ _ |- _ => destruct H as (_&_&?&_); congruence end. }
  destruct (Z.eqb_spec (inflateStatus uncompress buffer) Z_OK) as [Hok|Hok]; cbn [negb].
  2: { repeat split; intros; try congruence.
       match goal with H : wellFormed _ _ _ _ _ |- _ => destruct H as (_&_&_&?&_); congruence end. }
  destruct (Z.eqb_spec (inflatedSize uncompress buffer) (uncompressedSize buffer))
    as [Hsz|Hsz]; cbn [negb].
  2: { repeat split; intros; try congruence.
       match goal with H : wellFormed _ _ _ _ _ |- _ => destruct H as (_&_&_&_&?); congruence end. }
  repeat split; intros; try congruence.
  f_equal. apply writeInto_exact; [apply uncompressedSize_nonneg|congruence].
Qed.

(** [uncompress] reads no more than [sourceLen] bytes of its source. *)
Definition readsSourceLen : Prop :=
  forall destLen source sourceLen,
    uncompress destLen source sourceLen
    = uncompress destLen (take (Z.to_nat sourceLen) source) sourceLen.

Lemma headerField_prefix (i m : nat) (buffer : list byte) :
  (4 * i + 4 <= m)%nat -> headerField i (take m buffer) = headerField i buffer.
Proof.
  intros Hm. unfold headerField.
  rewrite !(take_drop_commute _ 4), take_take.
  by replace ((4 * i + 4) `min` m)%nat with (4 * i + 4)%nat by lia.
Qed.

Lemma headerField_agree (i m : nat) (b1 b2 : list byte) :
  (4 * i + 4 <= m)%nat -> take m b1 = take m b2 ->
  headerField i b1 = headerField i b2.
Proof.
  intros Hm Heq.
  rewrite <- (headerField_prefix i m b1 Hm), <- (headerField_prefix i m b2 Hm).
  by rewrite Heq.
Qed.

(** The length handed to [uncompress] as [sourceLen] is the declared
    uncompressed size, and [bufferSize] is never read: with an
    [uncompress] that reads no more than [sourceLen] bytes, two buffers
    that agree on the header and on as many payload bytes as the
    declared uncompressed size decode alike, whatever follows. *)
Theorem openExecutableAssemblyBinary_reads_declared_size (buffer other : list byte) :
  readsSourceLen ->
  (16 <= length buffer)%nat ->
  take (16 + Z.to_nat (uncompressedSize buffer)) other
  = take (16 + Z.to_nat (uncompressedSize buffer)) buffer ->
  decode other = decode buffer.
Proof.
  intros Hsrc Hlen Heq.
  set (n := Z.to_nat (uncompressedSize buffer)) in *.
  assert (Hlen' : (16 <= length other)%nat).
  { apply (f_equal length) in Heq. rewrite !length_take in Heq. lia. }
  assert (Hfield : forall i, (i < 4)%nat -> headerField i other = headerField i buffer).
  { intros i Hi. apply (headerField_agree i (16 + n)); [lia|exact Heq]. }
  assert (Hsz : uncompressedSize other = uncompressedSize buffer)
    by (apply (Hfield 3%nat); lia).
  assert (Hinf : inflated uncompress other = inflated uncompress buffer).
  { unfold inflated. rewrite Hsz.
    rewrite (Hsrc _ (drop 16 other)), (Hsrc _ (drop 16 buffer)).
    fold n. rewrite !take_drop_commute. by rewrite Heq. }
  rewrite !decode_unfold by done.
  unfold inflateStatus, inflatedSize. rewrite Hinf, Hsz.
  unfold magic, majorVersion, minorVersion.
  by rewrite (Hfield 0%nat), (Hfield 1%nat), (Hfield 2%nat) by lia.
Qed.

End DecodeDiagnosis.

Lemma openExecutableAssemblyBinary_diagnosis_witness :
  openExecutableAssemblyBinary LOOM 2 0 storedUncompress (scenario 3 128)
  = inl (FormatError "major version mismatch") /\
  openExecutableAssemblyBinary LOOM 2 0 storedUncompress (scenario 2 129)
  = inl (FormatError "problem uncompressing executable assembly") /\
  openExecutableAssemblyBinary LOOM 2 0 storedUncompress (scenario 2 128)
  = inr (mkByteArray (replicate 128 x2a) 0).
Proof.
  pose proof (openExecutableAssemblyBinary_diagnosis LOOM 2 0 storedUncompress
                (scenario 3 128)) as H3.
  pose proof (openExecutableAssemblyBinary_diagnosis LOOM 2 0 storedUncompress
                (scenario 2 129)) as H9.
  pose proof (openExecutableAssemblyBinary_diagnosis LOOM 2 0 storedUncompress
                (scenario 2 128)) as H8.
  split; [|split].
  - apply H3; [vm_compute; lia|reflexivity|vm_compute; discriminate].
  - apply H9; [vm_compute; lia|reflexivity|reflexivity|reflexivity
              |vm_compute; discriminate].
  - apply H8; [vm_compute; lia|vm_compute; repeat split; reflexivity|reflexivity].
Defined.

Lemma storedUncompress_readsSourceLen : readsSourceLen storedUncompress.
Proof.
  intros destLen source sourceLen. unfold storedUncompress.
  rewrite length_take, take_take, Nat.min_id.
  destruct (decide (0 <= sourceLen <= destLen /\ sourceLen <= Z.of_nat (length source)))
    as [H|H];
    destruct (decide (0 <= sourceLen <= destLen /\
                      sourceLen <= Z.of_nat (Z.to_nat sourceLen `min` length source)))
    as [H'|H']; try reflexivity; exfalso; [apply H'|apply H]; lia.
Qed.

(** Two bytes after the payload change nothing. *)
Lemma openExecutableAssemblyBinary_reads_declared_size_witness :
  openExecutableAssemblyBinary LOOM 2 0 storedUncompress (scenario 2 128 ++ [x00; x01])
  = openExecutableAssemblyBinary LOOM 2 0 storedUncompress (scenario 2 128).
Proof.
  apply (openExecutableAssemblyBinary_reads_declared_size LOOM 2 0 storedUncompress
           (scenario 2 128) (scenario 2 128 ++ [x00; x01])).
  - exact storedUncompress_readsSourceLen.
  - vm_compute. lia.
  - vm_compute. reflexivity.
Defined.

(** A payload longer than its declared uncompressed size is cut at that
    size before [uncompress] sees it. *)
Example payload_cut_at_declared_size :
  openExecutableAssemblyBinary LOOM 2 0 storedUncompress
    (container LOOM 2 0 4 [x01; x02; x03; x04; x05; x06])
  = inr (mkByteArray [x01; x02; x03; x04] 0).
Proof. vm_compute. reflexivity. Qed.

End CodecProofs.

(** ** Paths of executable assemblies *)

Module Paths.

(** [s.c_str()] read as a C string: the characters before the first
    NUL. *)
Fixpoint c_str (s : string) : string :=
  match s with
  | EmptyString => EmptyString
  | String c rest =>
      if Ascii.eqb c Ascii.zero then EmptyString else String c (c_str rest)
  end.

(** Whether [haystack] begins with [needle]. *)
Fixpoint startsWith (needle haystack : string) : bool :=
  match needle, haystack with
  | EmptyString, _ => true
  | String _ _, EmptyString => false
  | String a needle', String b haystack' =>
      Ascii.eqb a b && startsWith needle' haystack'
  end.

(** [strstr(haystack, needle)]: the offset of the first occurrence of
    [needle], [None] for the null pointer. *)
Fixpoint strstr (haystack needle : string) : option nat :=
  if startsWith needle haystack then Some 0%nat
  else match haystack with
       | EmptyString => None
       | String _ rest => S <$> strstr rest needle
       end.

(** [getPathFromName(assemblyName, absPath)]. *)
Definition getPathFromName (assemblyName : string) (absPath : bool) : string :=
  let filePath := "" in
  let filePath := if negb absPath then "./bin/" else filePath in
  let filePath := filePath +:+ assemblyName in
  match strstr (c_str filePath) ".loom" with
  | None => filePath +:+ ".loom"
  | Some _ => filePath
  end.

End Paths.

Module PathsProofs.
Import Paths.

Lemma strstr_bin n :
  strstr (c_str ("./bin/" +:+ n)) ".loom" = Nat.add 6 <$> strstr (c_str n) ".loom".
Proof.
  cbv beta iota fix delta [String.append].
  cbn [c_str Ascii.eqb Ascii.zero Bool.eqb].
  cbn [strstr startsWith Ascii.eqb Bool.eqb andb].
  by destruct (strstr (c_str n) ".loom").
Qed.

Lemma startsWith_app needle : forall a b,
  startsWith needle a = true -> startsWith needle (a +:+ b) = true.
Proof.
  induction needle as [|c needle IH]; intros a b H; [done|].
  destruct a as [|d a]; [done|].
  change (String d a +:+ b) with (String d (a +:+ b)).
  cbn [startsWith] in *.
  apply andb_true_iff in H as [-> H]. by apply IH.
Qed.

Lemma strstr_unfold haystack needle :
  strstr haystack needle =
    if startsWith needle haystack then Some 0%nat
    else match haystack with
         | EmptyString => None
         | String _ rest => S <$> strstr rest needle
         end.
Proof. by destruct haystack. Qed.

Lemma strstr_app_l a needle b :
  is_Some (strstr a needle) -> is_Some (strstr (a +:+ b) needle).
Proof.
  induction a as [|c a IH]; intros H; rewrite strstr_unfold in H;
    rewrite (strstr_unfold (_ +:+ b)).
  - destruct (startsWith needle "") eqn:E; [|by destruct H].
    rewrite (startsWith_app _ _ b E). eauto.
  - destruct (startsWith needle (String c a)) eqn:E.
    + rewrite (startsWith_app _ _ b E). eauto.
    + change (String c a +:+ b) with (String c (a +:+ b)).
      destruct (startsWith needle (String c (a +:+ b))); [eauto|].
      apply fmap_is_Some, IH. by apply fmap_is_Some in H.
Qed.

Lemma strstr_app_r a needle b :
  is_Some (strstr b needle) -> is_Some (strstr (a +:+ b) needle).
Proof.
  intros H. induction a as [|c a IH]; [done|].
  change (String c a +:+ b) with (String c (a +:+ b)).
  rewrite strstr_unfold. destruct (startsWith needle _); [eauto|].
  by apply fmap_is_Some.
Qed.

Lemma c_str_split s : exists rest, s = c_str s +:+ rest.
Proof.
  induction s as [|c s [rest IH]]; [by exists ""|].
  cbn [c_str]. destruct (Ascii.eqb c Ascii.zero).
  - by eexists.
  - exists rest. change (String c (c_str s) +:+ rest) with (String c (c_str s +:+ rest)).
    by rewrite <- IH.
Qed.

Lemma c_str_app a b : c_str a = a -> c_str b = b -> c_str (a +:+ b) = a +:+ b.
Proof.
  intros Ha Hb. induction a as [|c a IH]; [done|].
  change (String c a +:+ b) with (String c (a +:+ b)).
  cbn [c_str] in *. destruct (Ascii.eqb c Ascii.zero); [done|].
  injection Ha as Ha. by rewrite IH.
Qed.

Lemma append_nil_r s : s +:+ "" = s.
Proof.
  induction s as [|c s IH]; [done|].
  change (String c s +:+ "") with (String c (s +:+ "")). by rewrite IH.
Qed.

Lemma getPathFromName_contains name abs :
  is_Some (strstr (getPathFromName name abs) ".loom").
Proof.
  unfold getPathFromName.
  set (filePath := (if negb abs then "./bin/" else "") +:+ name).
  destruct (strstr (c_str filePath) ".loom") as [n|] eqn:E.
  - destruct (c_str_split filePath) as [rest Hrest]. rewrite Hrest.
    apply strstr_app_l. by rewrite E.
  - apply strstr_app_r. by eexists.
Qed.

(** The path is the name, after [./bin/] unless the path is absolute,
    and before the extension unless the name already holds [.loom]
    somewhere: the directory never decides on the extension, and
    [.loom] occurs in every path returned. *)
Theorem getPathFromName_shape (name : string) (abs : bool) :
  getPathFromName name abs
  = ((if abs then "" else "./bin/") +:+ name)
    +:+ (match strstr (c_str name) ".loom" with None => ".loom" | Some _ => "" end)
  /\ is_Some (strstr (getPathFromName name abs) ".loom").
Proof.
  split; [|apply getPathFromName_contains].
  unfold getPathFromName. destruct abs; cbn [negb].
  - change ("" +:+ name) with name.
    destruct (strstr (c_str name) ".loom"); [by rewrite append_nil_r|done].
  - rewrite strstr_bin.
    destruct (strstr (c_str name) ".loom"); [by rewrite append_nil_r|done].
Qed.

Lemma getPathFromName_c_str name abs :
  c_str name = name -> c_str (getPathFromName name abs) = getPathFromName name abs.
Proof.
  intros Hname. unfold getPathFromName.
  assert (Hfp : c_str ((if negb abs then "./bin/" else "") +:+ name)
                = (if negb abs then "./bin/" else "") +:+ name).
  { apply c_str_app; [by destruct abs|done]. }
  destruct (strstr _ ".loom"); [done|]. by apply c_str_app.
Qed.

(** A path the function returned is taken as it is when it is handed
    back as an absolute path: no second extension, no second
    directory. *)
Theorem getPathFromName_resolved (name : string) (abs : bool) :
  c_str name = name ->
  getPathFromName (getPathFromName name abs) true = getPathFromName name abs.
Proof.
  intros Hname.
  pose proof (getPathFromName_contains name abs) as [n Hn].
  pose proof (getPathFromName_c_str name abs Hname) as Hc.
  set (r := getPathFromName name abs) in *.
  unfold getPathFromName. cbn [negb]. change ("" +:+ r) with r.
  by rewrite Hc, Hn.
Qed.

Lemma getPathFromName_resolved_witness :
  getPathFromName (getPathFromName "Main" false) true = getPathFromName "Main" false.
Proof. apply (getPathFromName_resolved "Main" false). reflexivity. Defined.

(** The test is for [.loom] anywhere in the path, not at its end; and a
    relative path handed back as a relative one gets the directory
    twice. *)
Example getPathFromName_examples :
  getPathFromName "Main" false = "./bin/Main.loom" /\
  getPathFromName "Main.loom" true = "Main.loom" /\
  getPathFromName "Main.loom.bak" true = "Main.loom.bak" /\
  getPathFromName "./bin/Main.loom" false = "./bin/./bin/Main.loom".
Proof. repeat split; vm_compute; reflexivity. Qed.

End PathsProofs.

(** ** Loading an executable assembly: map, decode, read, release *)

Module Executable.
Import Codec Paths.

(** Calls into the platform layer and the assembly reader, in the order
    they are made. *)
Inductive event : Type :=
| EvMapFile (path : string)
| EvUnmapFile (path : string)
| EvLoadBinaryHeader (bytes : ptr)
| EvLoadBinaryBody
| EvFreeByteCode (assembly : ptr).

(** The byte arrays allocated with [lmNew], the array the assembly
    reader was last given a header from, and the calls made so far. *)
Record State : Type := mkState {
  byteArrays : gmap ptr utByteArray;
  pending : ptr;
  trace : list event
}.

Definition set_byteArrays (v : gmap ptr utByteArray) (s : State) : State :=
  mkState v (pending s) (trace s).
Definition set_pending (v : ptr) (s : State) : State :=
  mkState (byteArrays s) v (trace s).
Definition set_trace (v : list event) (s : State) : State :=
  mkState (byteArrays s) (pending s) v.

Definition emit (e : event) : M State unit :=
  modify (fun s => set_trace (trace s ++ [e]) s).

Section Load.

Variables LOOM_BINARY_ID LOOM_BINARY_VERSION_MAJOR LOOM_BINARY_VERSION_MINOR : Z.
Variable uncompress : Z -> list byte -> Z -> Z * Z * list byte.

(** [LSMapFile(path, &buffer, &bufferSize)]: the buffer, [None] for the
    null pointer, and the size. *)
Variable LSMapFile : string -> option (list byte) * Z.

(** The assembly that [Assembly::loadBinaryBody()] builds from the
    array [Assembly::loadBinaryHeader] was given; [NULL] when it builds
    none. *)
Variable loadBinaryBody : utByteArray -> ptr.

(** [openExecutableAssemblyBinary(buffer, bufferSize)] on the heap:
    [fresh] is the block [lmNew] hands out for the array it returns. *)
Definition openExecutableAssemblyBinary (buffer : list byte) (fresh : ptr)
  : M State ptr :=
  match Codec.openExecutableAssemblyBinary LOOM_BINARY_ID LOOM_BINARY_VERSION_MAJOR
          LOOM_BINARY_VERSION_MINOR uncompress buffer with
  | inr bytes =>
      modify (fun s => set_byteArrays (<[fresh := bytes]> (byteArrays s)) s) ;;
      ret fresh
  | inl f => raise f
  end.

(** [LSLuaState::loadAssemblyBinaryHeader(bytes)]. *)
Definition loadAssemblyBinaryHeader (bytes : ptr) : M State unit :=
  emit (EvLoadBinaryHeader bytes) ;;
  modify (set_pending bytes).

(** [LSLuaState::loadAssemblyBinaryBody()]. *)
Definition loadAssemblyBinaryBody : M State ptr :=
  emit EvLoadBinaryBody ;;
  s <- get ;;
  match byteArrays s !! pending s with
  | Some bytes => ret (loadBinaryBody bytes)
  | None => raise (Undefined "loadBinaryBody reads a released array")
  end.

(** [LSLuaState::loadAssemblyBinary(bytes)]. *)
Definition loadAssemblyBinary (bytes : ptr) : M State ptr :=
  loadAssemblyBinaryHeader bytes ;;
  loadAssemblyBinaryBody.

(** [LSLuaState::readExecutableAssemblyBinary(bytes)]. *)
Definition readExecutableAssemblyBinary (bytes : ptr) : M State ptr :=
  loadAssemblyBinary bytes.

(** [LSLuaState::readExecutableAssemblyBinaryHeader(bytes)]. *)
Definition readExecutableAssemblyBinaryHeader (bytes : ptr) : M State unit :=
  loadAssemblyBinaryHeader bytes.

(** [LSLuaState::readExecutableAssemblyBinaryBody()]. *)
Definition readExecutableAssemblyBinaryBody : M State ptr :=
  assembly <- loadAssemblyBinaryBody ;;
  lmAssert (negb (bool_decide (assembly = NULL))) "Error loading executable" ;;
  emit (EvFreeByteCode assembly) ;;
  ret assembly.

(** [LSLuaState::closeExecutableAssemblyBinary(bytes)]:
    [lmDelete(NULL, bytes)]. *)
Definition closeExecutableAssemblyBinary (bytes : ptr) : M State unit :=
  s <- get ;;
  match byteArrays s !! bytes with
  | Some _ => put (set_byteArrays (delete bytes (byteArrays s)) s)
  | None => raise (Undefined "lmDelete of a block that is not allocated")
  end.

(** [LSLuaState::loadExecutableAssemblyBinary(buffer, bufferSize)]. *)
Definition loadExecutableAssemblyBinary (buffer : list byte) (fresh : ptr)
  : M State ptr :=
  bytes <- openExecutableAssemblyBinary buffer fresh ;;
  assembly <- readExecutableAssemblyBinary bytes ;;
  closeExecutableAssemblyBinary bytes ;;
  ret assembly.

Definition unableToMap (assemblyName : string) : string :=
  "Error loading executable: " +:+ assemblyName +:+ ", unable to map file".

(** [LSLuaState::openExecutableAssembly(assemblyName, absPath)]. *)
Definition openExecutableAssembly (assemblyName : string) (absPath : bool)
  (fresh : ptr) : M State ptr :=
  let filePath := getPathFromName assemblyName absPath in
  emit (EvMapFile filePath) ;;
  let '(buffer, bufferSize) := LSMapFile filePath in
  lmAssert (bool_decide (is_Some buffer) && negb (bufferSize =? 0))
    (unableToMap assemblyName) ;;
  match buffer with
  | Some buffer => openExecutableAssemblyBinary buffer fresh
  | None => raise (Undefined "read through a null buffer")
  end.

(** [LSLuaState::closeExecutableAssembly(assemblyName, absPath, bytes)]. *)
Definition closeExecutableAssembly (assemblyName : string) (absPath : bool)
  (bytes : ptr) : M State unit :=
  let filePath := getPathFromName assemblyName absPath in
  emit (EvUnmapFile filePath) ;;
  closeExecutableAssemblyBinary bytes.

(** [LSLuaState::loadExecutableAssembly(assemblyName, absPath)]. *)
Definition loadExecutableAssembly (assemblyName : string) (absPath : bool)
  (fresh : ptr) : M State ptr :=
  bytes <- openExecutableAssembly assemblyName absPath fresh ;;
  readExecutableAssemblyBinaryHeader bytes ;;
  assembly <- readExecutableAssemblyBinaryBody ;;
  closeExecutableAssembly assemblyName absPath bytes ;;
  ret assembly.

End Load.

End Executable.

Module ExecutableProofs.
Import Codec Paths Executable.

Section LoadProofs.

Variables ID MAJOR MINOR : Z.
Variable uncompress : Z -> list byte -> Z -> Z * Z * list byte.
Variable LSMapFile : string -> option (list byte) * Z.
Variable loadBinaryBody : utByteArray -> ptr.

Local Abbreviation decode := (Codec.openExecutableAssemblyBinary ID MAJOR MINOR uncompress).
Local Abbreviation loadExecutableAssembly :=
  (loadExecutableAssembly ID MAJOR MINOR uncompress LSMapFile loadBinaryBody).
Local Abbreviation loadExecutableAssemblyBinary :=
  (loadExecutableAssemblyBinary ID MAJOR MINOR uncompress loadBinaryBody).
Local Abbreviation openExecutableAssembly :=
  (openExecutableAssembly ID MAJOR MINOR uncompress LSMapFile).

(** The state after the calls [calls] were made. *)
Definition logged (calls : list event) (s : State) : State :=
  set_trace (trace s ++ calls) s.

Lemma openExecutableAssembly_unfold name abs fresh s :
  openExecutableAssembly name abs fresh s =
    let path := getPathFromName name abs in
    let s1 := logged [EvMapFile path] s in
    match LSMapFile path with
    | (Some buffer, size) =>
        if size =? 0 then Fail (FatalError (unableToMap name)) s1
        else match decode buffer with
             | inr bytes => Ok fresh (set_byteArrays (<[fresh := bytes]> (byteArrays s1)) s1)
             | inl f => Fail f s1
             end
    | (None, _) => Fail (FatalError (unableToMap name)) s1
    end.
Proof.
  unfold Executable.openExecutableAssembly. unfold bind at 1.
  cbn [emit modify]. fold (logged [EvMapFile (getPathFromName name abs)] s).
  cbv zeta.
  destruct (LSMapFile _) as [[buffer|] size].
  - rewrite (bool_decide_eq_true_2 (is_Some (Some buffer))) by eauto.
    cbn [andb]. unfold bind at 1, lmAssert.
    destruct (size =? 0); cbn [negb]; [reflexivity|].
    unfold ret at 1. unfold Executable.openExecutableAssemblyBinary.
    destruct (decode buffer); reflexivity.
  - rewrite (bool_decide_eq_false_2 (is_Some None)) by (by intros [? ?]).
    reflexivity.
Qed.

Lemma readBody_unfold bytes ba s :
  byteArrays s !! pending s = Some ba -> pending s = bytes ->
  readExecutableAssemblyBinaryBody loadBinaryBody s =
    let s1 := logged [EvLoadBinaryBody] s in
    if bool_decide (loadBinaryBody ba = NULL)
    then Fail (FatalError "Error loading executable") s1
    else Ok (loadBinaryBody ba) (logged [EvFreeByteCode (loadBinaryBody ba)] s1).
Proof.
  intros Hba _. unfold readExecutableAssemblyBinaryBody, loadAssemblyBinaryBody.
  unfold bind at 1. unfold bind at 1. cbn [emit modify].
  unfold bind at 1, get at 1. cbn [byteArrays pending set_trace]. rewrite Hba.
  unfold ret at 1. unfold bind at 1, lmAssert. cbv zeta.
  destruct (bool_decide (loadBinaryBody ba = NULL)); reflexivity.
Qed.

(** [loadExecutableAssembly] maps the file at the path
    [getPathFromName] gives.  When the file cannot be mapped or is
    empty it stops with a fatal error that names the assembly, and
    when the container is refused it stops with the decoder's fault;
    either way the only call made is the mapping.  When the reader
    builds no assembly from the decoded array it stops with a fatal
    error before the file is unmapped and before the array is
    released.  Otherwise it returns the assembly the reader built from
    the decoded array, after the calls, in this order: map, header,
    body, [freeByteCode], unmap of the same path; the decoded array is
    released. *)
Theorem loadExecutableAssembly_outcome (name : string) (abs : bool)
  (fresh : ptr) (s : State) :
  ((LSMapFile (getPathFromName name abs)).1 = None \/ (LSMapFile (getPathFromName name abs)).2 = 0 ->
   loadExecutableAssembly name abs fresh s
   = Fail (FatalError (unableToMap name)) (logged [EvMapFile (getPathFromName name abs)] s)) /\
  (forall buffer size f,
      LSMapFile (getPathFromName name abs) = (Some buffer, size) -> size <> 0 ->
      decode buffer = inl f ->
      loadExecutableAssembly name abs fresh s = Fail f (logged [EvMapFile (getPathFromName name abs)] s)) /\
  (forall buffer size bytes,
      LSMapFile (getPathFromName name abs) = (Some buffer, size) -> size <> 0 ->
      decode buffer = inr bytes -> byteArrays s !! fresh = None ->
      (loadBinaryBody bytes = NULL ->
       exists s',
         loadExecutableAssembly name abs fresh s
         = Fail (FatalError "Error loading executable") s' /\
         byteArrays s' !! fresh = Some bytes /\
         trace s' = trace s ++ [EvMapFile (getPathFromName name abs); EvLoadBinaryHeader fresh;
                                EvLoadBinaryBody]) /\
      (loadBinaryBody bytes <> NULL ->
       exists s',
         loadExecutableAssembly name abs fresh s = Ok (loadBinaryBody bytes) s' /\
         byteArrays s' = byteArrays s /\
         trace s' = trace s ++ [EvMapFile (getPathFromName name abs); EvLoadBinaryHeader fresh;
                                EvLoadBinaryBody;
                                EvFreeByteCode (loadBinaryBody bytes);
                                EvUnmapFile (getPathFromName name abs)])).
Proof.
  set (path := getPathFromName name abs).
  assert (Hstart : loadExecutableAssembly name abs fresh s
    = match openExecutableAssembly name abs fresh s with
      | Ok bytes s1 =>
          (readExecutableAssemblyBinaryHeader bytes ;;
           assembly <- readExecutableAssemblyBinaryBody loadBinaryBody ;;
           closeExecutableAssembly name abs bytes ;;
           ret assembly) s1
      | Fail f s1 => Fail f s1
      end) by reflexivity.
  rewrite Hstart, openExecutableAssembly_unfold. cbv zeta. fold path.
  clear Hstart.
  split; [|split].
  - destruct (LSMapFile path) as [[buffer|] size]; cbn [fst snd];
      intros [H|H]; try discriminate; try reflexivity.
    subst size. reflexivity.
  - intros buffer size f -> Hsize Hf. apply Z.eqb_neq in Hsize.
    by rewrite Hsize, Hf.
  - intros buffer size bytes -> Hsize Hbytes Hfresh. apply Z.eqb_neq in Hsize.
    rewrite Hsize, Hbytes.
    set (s1 := set_byteArrays _ _).
    set (s2 := set_pending fresh (logged [EvLoadBinaryHeader fresh] s1)).
    assert (Hmid :
      (readExecutableAssemblyBinaryHeader fresh ;;
       assembly <- readExecutableAssemblyBinaryBody loadBinaryBody ;;
       closeExecutableAssembly name abs fresh ;;
       ret assembly) s1
      = match readExecutableAssemblyBinaryBody loadBinaryBody s2 with
        | Ok assembly s3 => (closeExecutableAssembly name abs fresh ;; ret assembly) s3
        | Fail f s3 => Fail f s3
        end) by reflexivity.
    assert (Hba : byteArrays s2 !! pending s2 = Some bytes) by apply lookup_insert_eq.
    rewrite Hmid, (readBody_unfold fresh bytes s2 Hba eq_refl). cbv zeta.
    clear Hmid.
    destruct (bool_decide_reflect (loadBinaryBody bytes = NULL)) as [Hnull|Hnull].
    + split; [intros _|intros Hne; contradiction].
      eexists. split; [reflexivity|]. split; [exact Hba|].
      unfold s2, s1, logged. cbn [trace set_trace set_pending set_byteArrays].
      by rewrite <- !app_assoc.
    + split; [intros He; contradiction|intros _].
      set (s3 := logged [EvFreeByteCode _] _).
      set (s4 := logged [EvUnmapFile path] s3).
      assert (Hclose : (closeExecutableAssembly name abs fresh ;;
                        ret (loadBinaryBody bytes)) s3
                       = Ok (loadBinaryBody bytes)
                           (set_byteArrays (delete fresh (byteArrays s4)) s4)).
      { unfold closeExecutableAssembly, closeExecutableAssemblyBinary.
        unfold bind at 1. unfold bind at 1. cbn [emit modify].
        fold (logged [EvUnmapFile path] s3). fold s4.
        unfold bind at 1, get at 1.
        replace (byteArrays s4 !! fresh) with (Some bytes) by (symmetry; exact Hba).
        reflexivity. }
      rewrite Hclose. eexists. split; [reflexivity|].
      unfold s4, s3, s2, s1, logged.
      cbn [byteArrays trace set_trace set_pending set_byteArrays].
      split; [by apply delete_insert_id|].
      by rewrite <- !app_assoc.
Qed.

(** [loadExecutableAssemblyBinary] stops with the decoder's fault
    when the container is refused, before any call.  Otherwise it
    returns what the reader built from the decoded array, [NULL]
    included: it makes no check of the assembly and no call of
    [freeByteCode]; the decoded array is released. *)
Theorem loadExecutableAssemblyBinary_outcome (buffer : list byte)
  (fresh : ptr) (s : State) :
  (forall f, decode buffer = inl f ->
             loadExecutableAssemblyBinary buffer fresh s = Fail f s) /\
  (forall bytes,
      decode buffer = inr bytes -> byteArrays s !! fresh = None ->
      exists s',
        loadExecutableAssemblyBinary buffer fresh s = Ok (loadBinaryBody bytes) s' /\
        byteArrays s' = byteArrays s /\
        trace s' = trace s ++ [EvLoadBinaryHeader fresh; EvLoadBinaryBody]).
Proof.
  unfold Executable.loadExecutableAssemblyBinary, Executable.openExecutableAssemblyBinary.
  split.
  - intros f Hf. unfold bind at 1. by rewrite Hf.
  - intros bytes Hbytes Hfresh. unfold bind at 1. rewrite Hbytes.
    unfold bind at 1. cbn [modify]. unfold ret at 1.
    unfold readExecutableAssemblyBinary, loadAssemblyBinary, loadAssemblyBinaryHeader,
      loadAssemblyBinaryBody, closeExecutableAssemblyBinary.
    unfold bind at 1. unfold bind at 1. unfold bind at 1. cbn [emit modify].
    unfold bind at 1. cbn [emit modify]. unfold bind at 1, get at 1.
    cbn [byteArrays pending trace set_trace set_pending set_byteArrays].
    rewrite lookup_insert_eq. unfold ret at 1.
    unfold bind at 1. unfold bind at 1, get at 1.
    cbn [byteArrays pending trace set_trace set_pending set_byteArrays].
    rewrite lookup_insert_eq.
    eexists. split; [reflexivity|].
    cbn [byteArrays pending trace set_trace set_pending set_byteArrays].
    split; [by apply delete_insert_id|].
    by rewrite <- !app_assoc.
Qed.

End LoadProofs.

(** A host with one file, the container of the codec's scenario at
    [./bin/Main.loom], and a reader that builds the assembly at
    address 5 from any array. *)
Definition hostFiles (path : string) : option (list byte) * Z :=
  if bool_decide (path = "./bin/Main.loom")
  then (Some (CodecProofs.scenario 2 128), 144)
  else (None, 0).

Definition hostReader (bytes : utByteArray) : ptr := 5%N.

Definition idle : State := mkState ∅ NULL [].

Lemma loadExecutableAssembly_outcome_witness :
  loadExecutableAssembly LOOM 2 0 storedUncompress hostFiles hostReader
    "Nope" false 7%N idle
  = Fail (FatalError (unableToMap "Nope"))
      (logged [EvMapFile (getPathFromName "Nope" false)] idle) /\
  exists s',
    loadExecutableAssembly LOOM 2 0 storedUncompress hostFiles hostReader
      "Main" false 7%N idle
    = Ok (hostReader (mkByteArray (replicate 128 x2a) 0)) s' /\
    byteArrays s' = byteArrays idle /\
    trace s' = trace idle ++
      [EvMapFile (getPathFromName "Main" false); EvLoadBinaryHeader 7%N;
       EvLoadBinaryBody;
       EvFreeByteCode (hostReader (mkByteArray (replicate 128 x2a) 0));
       EvUnmapFile (getPathFromName "Main" false)].
Proof.
  split.
  - apply (loadExecutableAssembly_outcome LOOM 2 0 storedUncompress hostFiles
             hostReader "Nope" false 7%N idle).
    left. reflexivity.
  - apply (proj2 (proj2 (loadExecutableAssembly_outcome LOOM 2 0 storedUncompress
                           hostFiles hostReader "Main" false 7%N idle))
             (CodecProofs.scenario 2 128) 144).
    + reflexivity.
    + discriminate.
    + vm_compute. reflexivity.
    + reflexivity.
    + discriminate.
Defined.

Lemma loadExecutableAssemblyBinary_outcome_witness :
  exists s',
    loadExecutableAssemblyBinary LOOM 2 0 storedUncompress (fun _ => NULL)
      (CodecProofs.scenario 2 128) 7%N idle
    = Ok NULL s' /\
    byteArrays s' = byteArrays idle /\
    trace s' = trace idle ++ [EvLoadBinaryHeader 7%N; EvLoadBinaryBody].
Proof.
  apply (proj2 (loadExecutableAssemblyBinary_outcome LOOM 2 0 storedUncompress
                  (fun _ => NULL) (CodecProofs.scenario 2 128) 7%N idle)
           (mkByteArray (replicate 128 x2a) 0)).
  - vm_compute. reflexivity.
  - reflexivity.
Defined.

End ExecutableProofs.

(** ** The VM instance: open, close, the allocator and assembly lookup *)

Module Instance.

(** [Assembly]: the name and the unique id are all the instance reads. *)
Record Assembly : Type := mkAssembly {
  getName : string;
  getUniqueId : string
}.

(** The allocation function a [lua_State] was created with:
    [lsLuaAlloc], or the default one of [luaL_newstate]. *)
Inductive lua_Alloc : Type := lsLuaAllocFn | l_alloc.

Record lua_State : Type := mkLuaState {
  frealloc : lua_Alloc;
  ud : ptr
}.

(** The slots of the globals table that [open] fills. *)
Inductive GlobalIndex : Type :=
| LSINDEXCLASSES
| LSINDEXMANAGEDVERSION
| LSINDEXMANAGEDUSERDATA
| LSINDEXMANAGEDNATIVESCRIPT
| LSINDEXNATIVEDELEGATES
| LSINDEXMEMBERINFONAME
| LSASSEMBLYLOOKUP
| LSINDEXMETHODLOOKUP.

(** Calls into the embedded VM, the native interface, the profiler and
    the host allocator, in the order they are made. *)
Inductive event : Type :=
| EvNewState (f : lua_Alloc) (ud : ptr)
| EvGCStop (L : ptr)
| EvOpenLibs (L : ptr)
| EvOpenSocketCore (L : ptr)
| EvNewTable (L : ptr) (slot : GlobalIndex) (weakKeys : bool)
| EvSetGlobal (L : ptr) (name : string)
| EvInstanceRegister (L : ptr)
| EvRegisterNativeTypes (L : ptr)
| EvProfilerDisable (L : ptr)
| EvDeleteAssembly (a : ptr)
| EvShutdownLuaState (L : ptr)
| EvLuaClose (L : ptr)
| EvFree (p : ptr)
| EvAlloc (nsize : Z)
| EvRealloc (p : ptr) (nsize : Z).

(** One [LSLuaState] (its fields [L] and [assemblies]) together with
    the statics of the class and the objects it points to. *)
Record State : Type := mkState {
  L : ptr;
  assemblies : list ptr;
  toLuaState : gmap ptr ptr;
  lastState : ptr;
  lastLSState : ptr;
  allocatedBytes : Z;
  tracemessage : string;
  luaStates : gmap ptr lua_State;
  assemblyHeap : gmap ptr Assembly;
  trace : list event
}.

Definition set_L (v : ptr) (s : State) : State :=
  mkState v (assemblies s) (toLuaState s) (lastState s) (lastLSState s)
    (allocatedBytes s) (tracemessage s) (luaStates s) (assemblyHeap s) (trace s).
Definition set_toLuaState (v : gmap ptr ptr) (s : State) : State :=
  mkState (L s) (assemblies s) v (lastState s) (lastLSState s)
    (allocatedBytes s) (tracemessage s) (luaStates s) (assemblyHeap s) (trace s).
Definition set_last (v w : ptr) (s : State) : State :=
  mkState (L s) (assemblies s) (toLuaState s) v w
    (allocatedBytes s) (tracemessage s) (luaStates s) (assemblyHeap s) (trace s).
Definition set_allocatedBytes (v : Z) (s : State) : State :=
  mkState (L s) (assemblies s) (toLuaState s) (lastState s) (lastLSState s)
    v (tracemessage s) (luaStates s) (assemblyHeap s) (trace s).
Definition set_tracemessage (v : string) (s : State) : State :=
  mkState (L s) (assemblies s) (toLuaState s) (lastState s) (lastLSState s)
    (allocatedBytes s) v (luaStates s) (assemblyHeap s) (trace s).
Definition set_luaStates (v : gmap ptr lua_State) (s : State) : State :=
  mkState (L s) (assemblies s) (toLuaState s) (lastState s) (lastLSState s)
    (allocatedBytes s) (tracemessage s) v (assemblyHeap s) (trace s).
Definition set_assemblyHeap (v : gmap ptr Assembly) (s : State) : State :=
  mkState (L s) (assemblies s) (toLuaState s) (lastState s) (lastLSState s)
    (allocatedBytes s) (tracemessage s) (luaStates s) v (trace s).
Definition set_trace (v : list event) (s : State) : State :=
  mkState (L s) (assemblies s) (toLuaState s) (lastState s) (lastLSState s)
    (allocatedBytes s) (tracemessage s) (luaStates s) (assemblyHeap s) v.

Definition emit (e : event) : M State unit :=
  modify (fun s => set_trace (trace s ++ [e]) s).

Definition isNull (p : ptr) : bool := bool_decide (p = NULL).

(** [lmDelete(NULL, assembly)]: the assembly's storage is released;
    releasing a block that is not allocated is undefined. *)
Definition lmDelete (a : ptr) : M State unit :=
  s <- get ;;
  match assemblyHeap s !! a with
  | Some _ =>
      modify (fun s => set_assemblyHeap (delete a (assemblyHeap s)) s) ;;
      emit (EvDeleteAssembly a)
  | None => raise (Undefined "lmDelete of a block that is not allocated")
  end.

(** A request of the embedded VM to its allocation function:
    [(ptr, osize, nsize)]. *)
Definition request : Type := ptr * Z * Z.

Section Platform.

(** [LOOM_PLATFORM_64BIT], and the width of [size_t] that goes with it. *)
Variable LOOM_PLATFORM_64BIT : bool.

Definition size_t_bits : Z := if LOOM_PLATFORM_64BIT then 64 else 32.
Definition size_t_wrap (n : Z) : Z := n mod 2 ^ size_t_bits.

(** The host allocator: the blocks [lmAlloc] and [lmRealloc] hand out. *)
Variable lmAlloc : Z -> ptr.
Variable lmRealloc : ptr -> Z -> ptr.

(** The embedded VM is a library outside this file.  What it asks of
    its allocation function while it serves a call is a parameter:
    [vmWork e] are the requests it makes, in order, during the call
    [e]; [stateSize] is the size of the block that holds a
    [lua_State], which [lua_newstate] requests first and [lua_close]
    frees last. *)
Variable vmWork : event -> list request.
Variable stateSize : Z.

(** [lsLuaAlloc(ud, ptr, osize, nsize)]. *)
Definition lsLuaAlloc (ud p : ptr) (osize nsize : Z) : M State ptr :=
  modify (fun s => set_allocatedBytes
                     (size_t_wrap (allocatedBytes s + (nsize - osize))) s) ;;
  if nsize =? 0 then
    emit (EvFree p) ;; ret NULL
  else if isNull p then
    emit (EvAlloc nsize) ;; ret (lmAlloc nsize)
  else
    emit (EvRealloc p nsize) ;; ret (lmRealloc p nsize).

(** The allocation function [luaL_newstate] installs: the C library's
    [realloc] and [free]; it knows nothing of [allocatedBytes]. *)
Definition default_alloc (ud p : ptr) (osize nsize : Z) : M State ptr :=
  if nsize =? 0 then
    emit (EvFree p) ;; ret NULL
  else
    emit (EvRealloc p nsize) ;; ret (lmRealloc p nsize).

(** A call of the allocation function [f] with the user data [ud]. *)
Definition callAlloc (f : lua_Alloc) (ud p : ptr) (osize nsize : Z) : M State ptr :=
  match f with
  | lsLuaAllocFn => lsLuaAlloc ud p osize nsize
  | l_alloc => default_alloc ud p osize nsize
  end.

(** Every allocation, reallocation and free of the embedded VM is a
    call of the function its [lua_State] was created with. *)
Definition vmRealloc (vm p : ptr) (osize nsize : Z) : M State ptr :=
  s <- get ;;
  match luaStates s !! vm with
  | None => raise (Undefined "use of a closed lua_State")
  | Some st =>
      match frealloc st with
      | lsLuaAllocFn => lsLuaAlloc (ud st) p osize nsize
      | l_alloc => default_alloc (ud st) p osize nsize
      end
  end.

(** A run of requests [(ptr, osize, nsize)] of the VM. *)
Fixpoint vmRequests (vm : ptr) (reqs : list request) : M State unit :=
  match reqs with
  | [] => ret tt
  | (p, osize, nsize) :: rest =>
      vmRealloc vm p osize nsize ;; vmRequests vm rest
  end.

(** A call [e] into the VM [l]: the call is made, and the VM makes its
    requests through the allocation function it was created with.  A
    call on a null handle, or on a [lua_State] that has been closed,
    is undefined. *)
Definition vmCall (l : ptr) (e : event) : M State unit :=
  s <- get ;;
  if isNull l then raise (Undefined "use of a null lua_State")
  else match luaStates s !! l with
       | None => raise (Undefined "use of a closed lua_State")
       | Some _ => emit e ;; vmRequests l (vmWork e)
       end.

(** [lua_newstate(f, ud)]: the block of the new state is the first
    request made of [f]; when [f] returns [NULL] so does
    [lua_newstate], otherwise the state lives in that block and the
    rest of its set-up goes through [f] as well. *)
Definition lua_newstate (f : lua_Alloc) (ud : ptr) : M State ptr :=
  emit (EvNewState f ud) ;;
  block <- callAlloc f ud NULL 0 stateSize ;;
  if isNull block then ret NULL
  else
    modify (fun s => set_luaStates (<[block := mkLuaState f ud]> (luaStates s)) s) ;;
    vmRequests block (vmWork (EvNewState f ud)) ;;
    ret block.

(** [luaL_newstate()]: a new state with the default allocation
    function. *)
Definition luaL_newstate : M State ptr := lua_newstate l_alloc NULL.

(** [lua_newtable(L); lua_rawseti(L, LUA_GLOBALSINDEX, slot)]. *)
Definition newGlobalTable (slot : GlobalIndex) (weakKeys : bool) : M State unit :=
  s <- get ;; vmCall (L s) (EvNewTable (L s) slot weakKeys).

(** [LSLuaState::open()], for the instance at address [this]. *)
Definition open (this : ptr) : M State unit :=
  s <- get ;;
  assert (isNull (L s)) "!L" ;;
  l <- (if LOOM_PLATFORM_64BIT
        then luaL_newstate
        else lua_newstate lsLuaAllocFn this) ;;
  modify (set_L l) ;;
  modify (fun s => set_toLuaState (<[l := this]> (toLuaState s)) s) ;;
  vmCall l (EvGCStop l) ;;
  vmCall l (EvOpenLibs l) ;;
  vmCall l (EvOpenSocketCore l) ;;
  newGlobalTable LSINDEXCLASSES false ;;
  vmCall l (EvSetGlobal l "__ls_nativeclasses") ;;
  vmCall l (EvSetGlobal l "__ls_traceback") ;;
  modify (set_tracemessage "") ;;
  newGlobalTable LSINDEXMANAGEDVERSION false ;;
  newGlobalTable LSINDEXMANAGEDUSERDATA false ;;
  newGlobalTable LSINDEXMANAGEDNATIVESCRIPT false ;;
  newGlobalTable LSINDEXNATIVEDELEGATES false ;;
  newGlobalTable LSINDEXMEMBERINFONAME false ;;
  newGlobalTable LSASSEMBLYLOOKUP false ;;
  newGlobalTable LSINDEXMETHODLOOKUP true ;;
  vmCall l (EvInstanceRegister l) ;;
  vmCall l (EvRegisterNativeTypes l).

(** [lua_close(L)]: the VM frees what it holds through its allocation
    function, the block of the state last. *)
Definition lua_close (l : ptr) : M State unit :=
  vmCall l (EvLuaClose l) ;;
  vmRealloc l l stateSize 0 ;;
  modify (fun s => set_luaStates (delete l (luaStates s)) s).

(** [LSLuaState::close()]. *)
Definition close : M State unit :=
  s <- get ;;
  assert (negb (isNull (L s))) "L" ;;
  (if bool_decide (lastState s = L s)
   then modify (set_last NULL NULL)
   else ret tt) ;;
  vmCall (L s) (EvProfilerDisable (L s)) ;;
  forEach lmDelete (assemblies s) ;;
  vmCall (L s) (EvShutdownLuaState (L s)) ;;
  lua_close (L s) ;;
  modify (fun s' => set_toLuaState (delete (L s) (toLuaState s')) s') ;;
  modify (set_L NULL).

(** The byte counter after the requests [reqs] of a VM created with
    [f]: [lsLuaAlloc] moves it at every request, the default
    allocation function never. *)
Definition counted (f : lua_Alloc) (reqs : list request) (n : Z) : Z :=
  match f with
  | lsLuaAllocFn =>
      foldl (fun n '(_, osize, nsize) => size_t_wrap (n + (nsize - osize))) n reqs
  | l_alloc => n
  end.

(** The block [lua_newstate] gets for the new state. *)
Definition newBlock (f : lua_Alloc) : ptr :=
  match f with
  | lsLuaAllocFn => lmAlloc stateSize
  | l_alloc => lmRealloc NULL stateSize
  end.

End Platform.

(** The call to the host allocator that a request ends in. *)
Definition requestEvent (f : lua_Alloc) (r : request) : event :=
  let '(p, osize, nsize) := r in
  if nsize =? 0 then EvFree p
  else match f with
       | lsLuaAllocFn => if isNull p then EvAlloc nsize else EvRealloc p nsize
       | l_alloc => EvRealloc p nsize
       end.

(** [assembly->getName()] through the pointer. *)
Definition nameOf (a : ptr) : M State string :=
  s <- get ;;
  match assemblyHeap s !! a with
  | Some asm => ret (getName asm)
  | None => raise (Undefined "use of a released assembly")
  end.

(** The loop of [LSLuaState::getAssembly(name)] over the assemblies from
    index [i] on. *)
Fixpoint getAssembly_from (name : string) (rest : list ptr) : M State ptr :=
  match rest with
  | [] => ret NULL
  | assembly :: rest' =>
      n <- nameOf assembly ;;
      if bool_decide (n = name) then ret assembly
      else if bool_decide (n +:+ ".loom" = name) then ret assembly
      else getAssembly_from name rest'
  end.

Definition getAssembly (name : string) : M State ptr :=
  s <- get ;; getAssembly_from name (assemblies s).

(** An assembly answers to [name]: its name is [name], or its name with
    the extension appended is. *)
Definition answersTo (name : string) (asm : Assembly) : Prop :=
  getName asm = name \/ getName asm +:+ ".loom" = name.

(** The instance owns its assemblies: each is allocated, none twice. *)
Definition ownsAssemblies (s : State) : Prop :=
  NoDup (assemblies s) /\
  forall a, a ∈ assemblies s -> is_Some (assemblyHeap s !! a).

(** [assembly->getUniqueId()] through the pointer. *)
Definition uniqueIdOf (a : ptr) : M State string :=
  s <- get ;;
  match assemblyHeap s !! a with
  | Some asm => ret (getUniqueId asm)
  | None => raise (Undefined "use of a released assembly")
  end.

(** The loop of [LSLuaState::getAssemblyByUID(uid)] over the assemblies
    from index [i] on. *)
Fixpoint getAssemblyByUID_from (uid : string) (rest : list ptr) : M State ptr :=
  match rest with
  | [] => ret NULL
  | assembly :: rest' =>
      u <- uniqueIdOf assembly ;;
      if bool_decide (u = uid) then ret assembly
      else getAssemblyByUID_from uid rest'
  end.

Definition getAssemblyByUID (uid : string) : M State ptr :=
  s <- get ;; getAssemblyByUID_from uid (assemblies s).

(** The calls [open] makes on the new VM [l], in the order of the
    source. *)
Definition openCalls (l : ptr) : list event :=
  [EvGCStop l; EvOpenLibs l; EvOpenSocketCore l;
   EvNewTable l LSINDEXCLASSES false;
   EvSetGlobal l "__ls_nativeclasses"; EvSetGlobal l "__ls_traceback";
   EvNewTable l LSINDEXMANAGEDVERSION false;
   EvNewTable l LSINDEXMANAGEDUSERDATA false;
   EvNewTable l LSINDEXMANAGEDNATIVESCRIPT false;
   EvNewTable l LSINDEXNATIVEDELEGATES false;
   EvNewTable l LSINDEXMEMBERINFONAME false;
   EvNewTable l LSASSEMBLYLOOKUP false;
   EvNewTable l LSINDEXMETHODLOOKUP true;
   EvInstanceRegister l; EvRegisterNativeTypes l].

(** The [lua_State] that [open] creates. *)
Definition newVM (b64 : bool) (this : ptr) : lua_State :=
  if b64 then mkLuaState l_alloc NULL else mkLuaState lsLuaAllocFn this.

Section Footprint.

Variable vmWork : event -> list request.
Variable stateSize : Z.

(** What a call leaves in the trace on a VM created with [f]: the
    call, then the host allocator calls its requests end in. *)
Definition served (f : lua_Alloc) (e : event) : list event :=
  e :: (requestEvent f <$> vmWork e).

(** The requests of [lua_newstate]: the block of the state, then the
    rest of the set-up. *)
Definition newstateRequests (vm : lua_State) : list request :=
  (NULL, 0, stateSize) :: vmWork (EvNewState (frealloc vm) (ud vm)).

(** The requests the VM [l] makes during [open], in order. *)
Definition openRequests (vm : lua_State) (l : ptr) : list request :=
  newstateRequests vm ++ concat (vmWork <$> openCalls l).

(** What [open] leaves in the trace. *)
Definition openTrace (vm : lua_State) (l : ptr) : list event :=
  EvNewState (frealloc vm) (ud vm)
    :: (requestEvent (frealloc vm) <$> newstateRequests vm)
    ++ concat (served (frealloc vm) <$> openCalls l).

(** The requests the VM [l] makes during [close], in order; the block
    of the state is freed last. *)
Definition closeRequests (l : ptr) : list request :=
  vmWork (EvProfilerDisable l) ++ vmWork (EvShutdownLuaState l)
    ++ vmWork (EvLuaClose l) ++ [(l, stateSize, 0)].

(** What [close] leaves in the trace when it releases [asms]. *)
Definition closeTrace (f : lua_Alloc) (l : ptr) (asms : list ptr) : list event :=
  served f (EvProfilerDisable l) ++ (EvDeleteAssembly <$> asms)
    ++ served f (EvShutdownLuaState l) ++ served f (EvLuaClose l)
    ++ [requestEvent f (l, stateSize, 0)].

End Footprint.

End Instance.
Module InstanceProofs.
Import Instance.

Ltac run_step :=
  unfold getAssembly, nameOf, lmDelete, emit, assert,
    bind, get, put, modify, raise, ret in *;
  cbn [L assemblies toLuaState lastState lastLSState allocatedBytes tracemessage
       luaStates assemblyHeap trace set_L set_toLuaState set_last
       set_allocatedBytes set_tracemessage set_luaStates set_assemblyHeap
       set_trace negb] in *.

(** *** Assembly lookup *)

Lemma nameOf_allocated a asm s :
  assemblyHeap s !! a = Some asm -> nameOf a s = Ok (getName asm) s.
Proof. intros H. unfold nameOf, bind, get. now rewrite H. Qed.

Lemma getAssembly_from_scan name rest s :
  (forall a, a ∈ rest -> is_Some (assemblyHeap s !! a)) ->
  exists r, getAssembly_from name rest s = Ok r s /\
    ((r = NULL /\
      forall a asm, a ∈ rest -> assemblyHeap s !! a = Some asm -> ~ answersTo name asm)
     \/
     (exists before after asm,
         rest = before ++ r :: after /\
         assemblyHeap s !! r = Some asm /\ answersTo name asm /\
         forall b asmb, b ∈ before -> assemblyHeap s !! b = Some asmb ->
                        ~ answersTo name asmb)).
Proof.
  induction rest as [|a rest IH]; intros Hall.
  - exists NULL. split; [reflexivity|]. left. split; [reflexivity|].
    intros a asm Ha. by apply elem_of_nil in Ha.
  - destruct (Hall a) as [asm Hasm]; [left|].
    cbn [getAssembly_from]. rewrite (bind_Ok _ _ _ _ _ (nameOf_allocated _ _ _ Hasm)).
    destruct (bool_decide_reflect (getName asm = name)) as [Heq|Hne].
    { exists a. split; [reflexivity|]. right. exists [], rest, asm.
      repeat split; [done|by left|]. intros b asmb Hb. by apply elem_of_nil in Hb. }
    destruct (bool_decide_reflect (getName asm +:+ ".loom" = name)) as [Heq2|Hne2].
    { exists a. split; [reflexivity|]. right. exists [], rest, asm.
      repeat split; [done|by right|]. intros b asmb Hb. by apply elem_of_nil in Hb. }
    destruct IH as (r & Hr & Hcase).
    { intros b Hb. apply Hall. by right. }
    exists r. split; [exact Hr|].
    assert (Hna : ~ answersTo name asm) by (intros [?|?]; contradiction).
    destruct Hcase as [[-> Hnone]|(before & after & asmr & -> & Hr1 & Hr2 & Hbefore)].
    + left. split; [reflexivity|].
      intros b asmb Hb Hasmb. apply elem_of_cons in Hb as [->|Hb].
      * rewrite Hasm in Hasmb. by injection Hasmb as <-.
      * by eapply Hnone.
    + right. exists (a :: before), after, asmr. repeat split; try done.
      intros b asmb Hb Hasmb. apply elem_of_cons in Hb as [->|Hb].
      * rewrite Hasm in Hasmb. by injection Hasmb as <-.
      * by eapply Hbefore.
Qed.

(** C10.  On an instance whose loaded assemblies are all allocated,
    [getAssembly name] leaves the state as it is and returns, in load
    order, the first assembly whose name is [name] or whose name with
    the extension appended is [name]; it returns [NULL] when no loaded
    assembly answers to [name] either way. *)
Theorem getAssembly_first_match (name : string) (s : State) :
  (forall a, a ∈ assemblies s -> is_Some (assemblyHeap s !! a)) ->
  exists r, getAssembly name s = Ok r s /\
    ((r = NULL /\
      forall a asm, a ∈ assemblies s -> assemblyHeap s !! a = Some asm ->
                    ~ answersTo name asm)
     \/
     (exists before after asm,
         assemblies s = before ++ r :: after /\
         assemblyHeap s !! r = Some asm /\ answersTo name asm /\
         forall b asmb, b ∈ before -> assemblyHeap s !! b = Some asmb ->
                        ~ answersTo name asmb)).
Proof.
  intros Hall. unfold getAssembly, bind, get.
  by apply getAssembly_from_scan.
Qed.

(** An instance with three assemblies loaded, in this order: Main at
    address 1, Foo at 2 and Foo.loom at 3. *)
Definition loaded : State :=
  mkState 7%N [1%N; 2%N; 3%N] {[ 7%N := 9%N ]} NULL NULL 0 ""
    {[ 7%N := mkLuaState lsLuaAllocFn 9%N ]}
    (<[1%N := mkAssembly "Main" "uid-1"]>
       (<[2%N := mkAssembly "Foo" "uid-2"]>
          {[ 3%N := mkAssembly "Foo.loom" "uid-3" ]}))
    [].

Lemma getAssembly_first_match_witness :
  exists r, getAssembly "Foo.loom" loaded = Ok r loaded /\
    ((r = NULL /\
      forall a asm, a ∈ assemblies loaded -> assemblyHeap loaded !! a = Some asm ->
                    ~ answersTo "Foo.loom" asm)
     \/
     (exists before after asm,
         assemblies loaded = before ++ r :: after /\
         assemblyHeap loaded !! r = Some asm /\ answersTo "Foo.loom" asm /\
         forall b asmb, b ∈ before -> assemblyHeap loaded !! b = Some asmb ->
                        ~ answersTo "Foo.loom" asmb)).
Proof.
  apply (getAssembly_first_match "Foo.loom" loaded).
  intros a Ha. cbn [assemblies loaded] in Ha.
  repeat (apply elem_of_cons in Ha as [->|Ha]; [by vm_compute; eexists|]).
  by apply elem_of_nil in Ha.
Defined.

(** Asking for Foo.loom finds the assembly named Foo, which is loaded
    before the one named Foo.loom; an unknown name finds nothing. *)
Example getAssembly_extension :
  getAssembly "Foo.loom" loaded = Ok 2%N loaded /\
  getAssembly "Foo" loaded = Ok 2%N loaded /\
  getAssembly "Bar" loaded = Ok NULL loaded.
Proof. repeat split; vm_compute; reflexivity. Qed.

(** *** Closing an instance *)

(** The heap after the loop of [close] released the assemblies [l]. *)
Definition releaseAll (l : list ptr) (h : gmap ptr Assembly) : gmap ptr Assembly :=
  foldl (fun h a => delete a h) h l.

Lemma releaseAll_lookup l : forall (h : gmap ptr Assembly) a,
  releaseAll l h !! a = if bool_decide (a ∈ l) then None else h !! a.
Proof.
  induction l as [|b l IH]; intros h a; cbn [releaseAll foldl].
  - rewrite bool_decide_eq_false_2; [done|]. apply not_elem_of_nil.
  - fold (releaseAll l (delete b h)). rewrite IH.
    destruct (decide (a = b)) as [->|Hne].
    + rewrite (bool_decide_eq_true_2 (b ∈ b :: l)); [|by left].
      rewrite lookup_delete_eq. by destruct (bool_decide (b ∈ l)).
    + rewrite lookup_delete_ne by done.
      destruct (bool_decide_reflect (a ∈ l)) as [Hin|Hnin].
      * rewrite bool_decide_eq_true_2; [done|by right].
      * rewrite bool_decide_eq_false_2; [done|].
        intros Hin. apply elem_of_cons in Hin as [?|?]; contradiction.
Qed.

Lemma forEach_lmDelete l : forall s,
  NoDup l -> (forall a, a ∈ l -> is_Some (assemblyHeap s !! a)) ->
  forEach lmDelete l s =
    Ok tt (set_trace (trace s ++ (EvDeleteAssembly <$> l))
             (set_assemblyHeap (releaseAll l (assemblyHeap s)) s)).
Proof.
  induction l as [|a l IH]; intros s Hnd Hall.
  - destruct s. cbn. by rewrite app_nil_r.
  - apply NoDup_cons in Hnd as [Hnotin Hnd].
    destruct (Hall a) as [asm Hasm]; [by left|].
    cbn [forEach]. unfold bind at 1.
    replace (lmDelete a s)
      with (Ok (S:=State) tt (set_trace (trace s ++ [EvDeleteAssembly a])
                      (set_assemblyHeap (delete a (assemblyHeap s)) s)))
      by (run_step; now rewrite Hasm).
    rewrite IH; [|done|].
    + destruct s. cbn. by rewrite <- app_assoc.
    + intros b Hb. cbn. rewrite lookup_delete_ne; [apply Hall; by right|].
      intros ->. contradiction.
Qed.

(** The instance is open: it holds a handle, and the handle is that of
    a [lua_State] that has not been closed. *)
Definition isOpen (s : State) : Prop :=
  L s <> NULL /\ is_Some (luaStates s !! L s).

(** *** The allocator *)

(** The bytes a run of requests adds to the counter, before wrap-around. *)
Definition netBytes (reqs : list (ptr * Z * Z)) : Z :=
  foldr (fun '(_, osize, nsize) acc => (nsize - osize) + acc) 0 reqs.

Section AllocatorProofs.

Variable LOOM_PLATFORM_64BIT : bool.
Variable lmAlloc : Z -> ptr.
Variable lmRealloc : ptr -> Z -> ptr.

Local Abbreviation wrap := (size_t_wrap LOOM_PLATFORM_64BIT).
Local Abbreviation realloc := (vmRealloc LOOM_PLATFORM_64BIT lmAlloc lmRealloc).
Local Abbreviation requests := (vmRequests LOOM_PLATFORM_64BIT lmAlloc lmRealloc).

(** One request on a VM created with [lsLuaAlloc]. *)
Lemma vmRealloc_lsLuaAlloc vm st p osize nsize s :
  luaStates s !! vm = Some st -> frealloc st = lsLuaAllocFn ->
  exists r s',
    realloc vm p osize nsize s = Ok r s' /\
    allocatedBytes s' = wrap (allocatedBytes s + (nsize - osize)) /\
    luaStates s' = luaStates s /\
    (nsize = 0 -> r = NULL /\ trace s' = trace s ++ [EvFree p]) /\
    (nsize <> 0 -> p = NULL ->
     r = lmAlloc nsize /\ trace s' = trace s ++ [EvAlloc nsize]) /\
    (nsize <> 0 -> p <> NULL ->
     r = lmRealloc p nsize /\ trace s' = trace s ++ [EvRealloc p nsize]).
Proof.
  intros Hvm Hf. unfold vmRealloc, bind at 1, get.
  rewrite Hvm, Hf. unfold lsLuaAlloc, bind at 1, modify.
  destruct (Z.eqb_spec nsize 0) as [Hz|Hnz].
  - eexists _, _. split; [reflexivity|]. cbn.
    repeat split; try done.
  - unfold isNull. destruct (bool_decide_reflect (p = NULL)) as [Hp|Hp].
    + eexists _, _. split; [reflexivity|]. cbn. repeat split; try done.
    + eexists _, _. split; [reflexivity|]. cbn. repeat split; try done.
Qed.

(** One request on a VM created by [luaL_newstate]: the counter stays. *)
Lemma vmRealloc_default vm st p osize nsize s :
  luaStates s !! vm = Some st -> frealloc st = l_alloc ->
  exists r s',
    realloc vm p osize nsize s = Ok r s' /\
    allocatedBytes s' = allocatedBytes s.
Proof.
  intros Hvm Hf. unfold vmRealloc, bind at 1, get.
  rewrite Hvm, Hf. unfold default_alloc.
  destruct (nsize =? 0); eexists _, _; (split; [reflexivity|]); reflexivity.
Qed.

Lemma wrap_add_l a b : wrap (wrap a + b) = wrap (a + b).
Proof. unfold size_t_wrap. apply Zplus_mod_idemp_l. Qed.

Lemma vmRequests_lsLuaAlloc vm st reqs : forall s,
  luaStates s !! vm = Some st -> frealloc st = lsLuaAllocFn ->
  exists s',
    requests vm reqs s = Ok tt s' /\
    wrap (allocatedBytes s') = wrap (allocatedBytes s + netBytes reqs) /\
    luaStates s' = luaStates s.
Proof.
  induction reqs as [|[[p osize] nsize] reqs IH]; intros s Hvm Hf.
  - exists s. cbn. by rewrite Z.add_0_r.
  - destruct (vmRealloc_lsLuaAlloc vm st p osize nsize s Hvm Hf)
      as (r & s1 & Hcall & Hbytes & Hvms & _).
    destruct (IH s1) as (s2 & Hrun & Hbytes2 & Hvms2);
      [by rewrite Hvms|done|].
    exists s2. cbn [vmRequests]. rewrite (bind_Ok _ _ _ _ _ Hcall).
    split; [exact Hrun|]. split; [|congruence].
    rewrite Hbytes2, Hbytes, wrap_add_l.
    change (netBytes ((p, osize, nsize) :: reqs))
      with ((nsize - osize) + netBytes reqs).
    f_equal. lia.
Qed.

End AllocatorProofs.

(** *** Lookup by unique id *)

Lemma uniqueIdOf_allocated a asm s :
  assemblyHeap s !! a = Some asm -> uniqueIdOf a s = Ok (getUniqueId asm) s.
Proof. intros H. unfold uniqueIdOf, bind, get. now rewrite H. Qed.

Lemma getAssemblyByUID_from_scan uid rest s :
  (forall a, a ∈ rest -> is_Some (assemblyHeap s !! a)) ->
  exists r, getAssemblyByUID_from uid rest s = Ok r s /\
    ((r = NULL /\
      forall a asm, a ∈ rest -> assemblyHeap s !! a = Some asm -> getUniqueId asm <> uid)
     \/
     (exists before after asm,
         rest = before ++ r :: after /\
         assemblyHeap s !! r = Some asm /\ getUniqueId asm = uid /\
         forall b asmb, b ∈ before -> assemblyHeap s !! b = Some asmb ->
                        getUniqueId asmb <> uid)).
Proof.
  induction rest as [|a rest IH]; intros Hall.
  - exists NULL. split; [reflexivity|]. left. split; [reflexivity|].
    intros a asm Ha. by apply elem_of_nil in Ha.
  - destruct (Hall a) as [asm Hasm]; [left|].
    cbn [getAssemblyByUID_from].
    rewrite (bind_Ok _ _ _ _ _ (uniqueIdOf_allocated _ _ _ Hasm)).
    destruct (bool_decide_reflect (getUniqueId asm = uid)) as [Heq|Hne].
    { exists a. split; [reflexivity|]. right. exists [], rest, asm.
      repeat split; try done. intros b asmb Hb. by apply elem_of_nil in Hb. }
    destruct IH as (r & Hr & Hcase).
    { intros b Hb. apply Hall. by right. }
    exists r. split; [exact Hr|].
    destruct Hcase as [[-> Hnone]|(before & after & asmr & -> & Hr1 & Hr2 & Hbefore)].
    + left. split; [reflexivity|].
      intros b asmb Hb Hasmb. apply elem_of_cons in Hb as [->|Hb].
      * rewrite Hasm in Hasmb. by injection Hasmb as <-.
      * by eapply Hnone.
    + right. exists (a :: before), after, asmr. repeat split; try done.
      intros b asmb Hb Hasmb. apply elem_of_cons in Hb as [->|Hb].
      * rewrite Hasm in Hasmb. by injection Hasmb as <-.
      * by eapply Hbefore.
Qed.

(** Unique ids tell the loaded assemblies apart. *)
Definition distinctUniqueIds (s : State) : Prop :=
  forall a b asma asmb,
    a ∈ assemblies s -> b ∈ assemblies s ->
    assemblyHeap s !! a = Some asma -> assemblyHeap s !! b = Some asmb ->
    getUniqueId asma = getUniqueId asmb -> a = b.

(** On an instance whose loaded assemblies are all allocated,
    [getAssemblyByUID uid] leaves the state as it is and returns, in
    load order, the first assembly whose unique id is [uid], [NULL]
    when there is none; the extension [.loom] plays no part.  When
    the unique ids tell the loaded assemblies apart, looking up the
    unique id of a loaded assembly gives that assembly back. *)
Theorem getAssemblyByUID_first_match (uid : string) (s : State) :
  (forall a, a ∈ assemblies s -> is_Some (assemblyHeap s !! a)) ->
  (exists r, getAssemblyByUID uid s = Ok r s /\
    ((r = NULL /\
      forall a asm, a ∈ assemblies s -> assemblyHeap s !! a = Some asm ->
                    getUniqueId asm <> uid)
     \/
     (exists before after asm,
         assemblies s = before ++ r :: after /\
         assemblyHeap s !! r = Some asm /\ getUniqueId asm = uid /\
         forall b asmb, b ∈ before -> assemblyHeap s !! b = Some asmb ->
                        getUniqueId asmb <> uid))) /\
  (distinctUniqueIds s ->
   forall a asm, a ∈ assemblies s -> assemblyHeap s !! a = Some asm ->
                 getAssemblyByUID (getUniqueId asm) s = Ok a s).
Proof.
  intros Hall. split.
  - unfold getAssemblyByUID, bind, get. by apply getAssemblyByUID_from_scan.
  - intros Hdist a asm Ha Hasm.
    unfold getAssemblyByUID, bind, get.
    destruct (getAssemblyByUID_from_scan (getUniqueId asm) (assemblies s) s Hall)
      as (r & Hr & [[-> Hnone]|(before & after & asmr & Hsplit & Hr1 & Hr2 & _)]).
    + exfalso. by apply (Hnone a asm).
    + rewrite Hr. f_equal. apply (Hdist r a asmr asm); try done.
      rewrite Hsplit. apply elem_of_app. right. by left.
Qed.

Lemma getAssemblyByUID_first_match_witness :
  getAssemblyByUID (getUniqueId (mkAssembly "Foo" "uid-2")) loaded = Ok 2%N loaded.
Proof.
  apply (proj2 (getAssemblyByUID_first_match "uid-2" loaded
                  ltac:(intros a Ha; cbn [assemblies loaded] in Ha;
                        repeat (apply elem_of_cons in Ha as [->|Ha];
                                [by vm_compute; eexists|]);
                        by apply elem_of_nil in Ha))).
  - intros a b asma asmb Ha Hb Hasma Hasmb Heq. cbn [assemblies loaded] in Ha, Hb.
    repeat (apply elem_of_cons in Ha as [->|Ha];
            [|try by apply elem_of_nil in Ha]);
      repeat (apply elem_of_cons in Hb as [->|Hb];
              [|try by apply elem_of_nil in Hb]);
      vm_compute in Hasma, Hasmb; injection Hasma as <-; injection Hasmb as <-;
      first [reflexivity | discriminate Heq].
  - apply (bool_decide_unpack _). vm_compute. exact I.
  - vm_compute. reflexivity.
Defined.

(** The unique id is compared as it is: the id with the extension
    appended finds nothing. *)
Example getAssemblyByUID_exact :
  getAssemblyByUID "uid-3" loaded = Ok 3%N loaded /\
  getAssemblyByUID "uid-3.loom" loaded = Ok NULL loaded.
Proof. split; vm_compute; reflexivity. Qed.

(** *** What the VM's requests do to the state *)

Section RunProofs.

Variable LOOM_PLATFORM_64BIT : bool.
Variable lmAlloc : Z -> ptr.
Variable lmRealloc : ptr -> Z -> ptr.
Variable vmWork : event -> list request.
Variable stateSize : Z.

Local Abbreviation counted := (Instance.counted LOOM_PLATFORM_64BIT).
Local Abbreviation vmRealloc := (Instance.vmRealloc LOOM_PLATFORM_64BIT lmAlloc lmRealloc).
Local Abbreviation vmRequests := (Instance.vmRequests LOOM_PLATFORM_64BIT lmAlloc lmRealloc).
Local Abbreviation vmCall := (Instance.vmCall LOOM_PLATFORM_64BIT lmAlloc lmRealloc vmWork).
Local Abbreviation newBlock := (Instance.newBlock lmAlloc lmRealloc stateSize).
Local Abbreviation lua_newstate :=
  (Instance.lua_newstate LOOM_PLATFORM_64BIT lmAlloc lmRealloc vmWork stateSize).
Local Abbreviation newGlobalTable :=
  (Instance.newGlobalTable LOOM_PLATFORM_64BIT lmAlloc lmRealloc vmWork).
Local Abbreviation open :=
  (Instance.open LOOM_PLATFORM_64BIT lmAlloc lmRealloc vmWork stateSize).
Local Abbreviation lua_close :=
  (Instance.lua_close LOOM_PLATFORM_64BIT lmAlloc lmRealloc vmWork stateSize).
Local Abbreviation close :=
  (Instance.close LOOM_PLATFORM_64BIT lmAlloc lmRealloc vmWork stateSize).
Local Abbreviation served := (Instance.served vmWork).
Local Abbreviation openRequests := (Instance.openRequests vmWork stateSize).
Local Abbreviation openTrace := (Instance.openTrace vmWork stateSize).
Local Abbreviation closeRequests := (Instance.closeRequests vmWork stateSize).
Local Abbreviation closeTrace := (Instance.closeTrace vmWork stateSize).

(** The state after a VM created with [f] made the requests [reqs],
    which left [events] in the trace. *)
Definition advance (f : lua_Alloc) (events : list event) (reqs : list request)
  (s : State) : State :=
  mkState (L s) (assemblies s) (toLuaState s) (lastState s) (lastLSState s)
    (counted f reqs (allocatedBytes s)) (tracemessage s) (luaStates s)
    (assemblyHeap s) (trace s ++ events).

Lemma counted_app f r1 r2 n :
  counted f (r1 ++ r2) n = counted f r2 (counted f r1 n).
Proof. destruct f; [apply foldl_app|reflexivity]. Qed.

(** With [lsLuaAlloc] the counter moves by the net size of the
    requests, modulo the width of [size_t]. *)
Lemma counted_net reqs : forall n,
  reqs <> [] ->
  counted lsLuaAllocFn reqs n
  = size_t_wrap LOOM_PLATFORM_64BIT (n + netBytes reqs).
Proof.
  induction reqs as [|[[p osize] nsize] reqs IH]; intros n Hne; [done|].
  change (counted lsLuaAllocFn ((p, osize, nsize) :: reqs) n)
    with (counted lsLuaAllocFn reqs
            (size_t_wrap LOOM_PLATFORM_64BIT (n + (nsize - osize)))).
  change (netBytes ((p, osize, nsize) :: reqs))
    with ((nsize - osize) + netBytes reqs).
  destruct reqs as [|r reqs].
  - cbn. f_equal. lia.
  - rewrite IH by done. rewrite wrap_add_l. f_equal. lia.
Qed.

Lemma advance_nil f s : advance f [] [] s = s.
Proof. destruct s, f; unfold advance; cbn; by rewrite app_nil_r. Qed.

Lemma advance_advance f ev1 r1 ev2 r2 s :
  advance f ev2 r2 (advance f ev1 r1 s) = advance f (ev1 ++ ev2) (r1 ++ r2) s.
Proof.
  unfold advance.
  cbn [L assemblies toLuaState lastState lastLSState allocatedBytes tracemessage
       luaStates assemblyHeap trace].
  by rewrite counted_app, app_assoc.
Qed.

Lemma vmRealloc_run vm st p osize nsize s :
  luaStates s !! vm = Some st ->
  exists r,
    vmRealloc vm p osize nsize s
    = Ok r (advance (frealloc st) [requestEvent (frealloc st) (p, osize, nsize)]
              [(p, osize, nsize)] s).
Proof.
  intros Hvm. unfold Instance.vmRealloc, bind at 1, get. rewrite Hvm.
  destruct s as [l asms tl ls lls ab tm vms heap tr].
  unfold advance, requestEvent.
  destruct (frealloc st).
  - unfold lsLuaAlloc, bind at 1, modify.
    destruct (nsize =? 0); [eexists; reflexivity|].
    destruct (isNull p); eexists; reflexivity.
  - unfold default_alloc.
    destruct (nsize =? 0); eexists; reflexivity.
Qed.

Lemma vmRequests_run vm st reqs : forall s,
  luaStates s !! vm = Some st ->
  vmRequests vm reqs s
  = Ok tt (advance (frealloc st) (requestEvent (frealloc st) <$> reqs) reqs s).
Proof.
  induction reqs as [|[[p osize] nsize] reqs IH]; intros s Hvm.
  - cbn [Instance.vmRequests fmap list_fmap]. by rewrite advance_nil.
  - destruct (vmRealloc_run vm st p osize nsize s Hvm) as [r Hr].
    cbn [Instance.vmRequests]. rewrite (bind_Ok _ _ _ _ _ Hr).
    rewrite IH by exact Hvm. by rewrite advance_advance.
Qed.

Lemma vmCall_run l st e s :
  l <> NULL -> luaStates s !! l = Some st ->
  vmCall l e s = Ok tt (advance (frealloc st) (served (frealloc st) e) (vmWork e) s).
Proof.
  intros Hl Hvm. unfold Instance.vmCall, bind at 1, get, isNull.
  rewrite bool_decide_eq_false_2 by done. rewrite Hvm.
  unfold bind, emit, modify.
  rewrite (vmRequests_run l st) by exact Hvm.
  destruct s as [l0 asms tl ls lls ab tm vms heap tr].
  unfold advance, Instance.served. cbn. by rewrite <- app_assoc.
Qed.

Lemma vmCall_then {A} l st e (k : M State A) s :
  l <> NULL -> luaStates s !! l = Some st ->
  (vmCall l e ;; k) s
  = k (advance (frealloc st) (served (frealloc st) e) (vmWork e) s).
Proof. intros Hl Hvm. by rewrite (bind_Ok _ _ _ _ _ (vmCall_run l st e s Hl Hvm)). Qed.

Lemma newGlobalTable_then {A} st slot weak (k : M State A) s :
  L s <> NULL -> luaStates s !! L s = Some st ->
  (newGlobalTable slot weak ;; k) s
  = k (advance (frealloc st) (served (frealloc st) (EvNewTable (L s) slot weak))
         (vmWork (EvNewTable (L s) slot weak)) s).
Proof.
  intros Hl Hvm. unfold Instance.newGlobalTable.
  unfold bind at 1. unfold bind at 1, get at 1.
  by rewrite (vmCall_run _ st _ s Hl Hvm).
Qed.

Lemma modify_then {A} f (k : M State A) s : (modify f ;; k) s = k (f s).
Proof. reflexivity. Qed.

(** [lua_newstate] when the allocation function hands out a block. *)
Lemma lua_newstate_run f u s :
  stateSize <> 0 -> newBlock f <> NULL ->
  lua_newstate f u s
  = Ok (newBlock f)
      (set_luaStates (<[newBlock f := mkLuaState f u]> (luaStates s))
         (advance f
            (EvNewState f u
               :: (requestEvent f <$> newstateRequests vmWork stateSize (mkLuaState f u)))
            (newstateRequests vmWork stateSize (mkLuaState f u)) s)).
Proof.
  intros Hsize Hblock. apply Z.eqb_neq in Hsize.
  unfold Instance.lua_newstate. unfold bind at 1, emit at 1, modify at 1.
  unfold bind at 1.
  assert (Halloc :
    callAlloc LOOM_PLATFORM_64BIT lmAlloc lmRealloc f u NULL 0 stateSize
      (set_trace (trace s ++ [EvNewState f u]) s)
    = Ok (newBlock f)
        (advance f [requestEvent f (NULL, 0, stateSize)] [(NULL, 0, stateSize)]
           (set_trace (trace s ++ [EvNewState f u]) s))).
  { destruct s as [l asms tl ls lls ab tm vms heap tr].
    unfold callAlloc, advance, requestEvent, Instance.newBlock.
    destruct f.
    - unfold lsLuaAlloc, bind at 1, modify. rewrite Hsize.
      unfold isNull. rewrite bool_decide_eq_true_2 by done. reflexivity.
    - unfold default_alloc. rewrite Hsize. reflexivity. }
  rewrite Halloc. unfold isNull. rewrite bool_decide_eq_false_2 by done.
  rewrite modify_then.
  set (s1 := set_luaStates _ _).
  assert (Hvm : luaStates s1 !! newBlock f = Some (mkLuaState f u))
    by (unfold s1; cbn [luaStates set_luaStates]; apply lookup_insert_eq).
  rewrite (bind_Ok _ _ _ _ _ (vmRequests_run _ _ _ s1 Hvm)).
  unfold ret. f_equal. unfold s1.
  destruct s as [l asms tl ls lls ab tm vms heap tr].
  unfold advance, newstateRequests, set_luaStates, set_trace.
  cbn [L assemblies toLuaState lastState lastLSState allocatedBytes tracemessage
       luaStates assemblyHeap trace frealloc ud fmap list_fmap].
  f_equal.
  - change ((NULL, 0, stateSize) :: vmWork (EvNewState f u))
      with ([(NULL, 0, stateSize)] ++ vmWork (EvNewState f u)).
    by rewrite counted_app.
  - by rewrite <- !app_assoc.
Qed.

Lemma counted_nil f n : counted f [] n = n.
Proof. by destruct f. Qed.

(** *** Opening an instance *)

(** The instance after [open]. *)
Definition afterOpen (this : ptr) (s : State) : State :=
  let vm := newVM LOOM_PLATFORM_64BIT this in
  let l := newBlock (frealloc vm) in
  mkState l (assemblies s) (<[l := this]> (toLuaState s))
    (lastState s) (lastLSState s)
    (counted (frealloc vm) (openRequests vm l) (allocatedBytes s)) ""
    (<[l := vm]> (luaStates s)) (assemblyHeap s)
    (trace s ++ openTrace vm l).

Ltac fields :=
  unfold advance, set_L, set_toLuaState, set_last, set_allocatedBytes,
    set_tracemessage, set_luaStates, set_assemblyHeap, set_trace;
  cbn [L assemblies toLuaState lastState lastLSState allocatedBytes
       tracemessage luaStates assemblyHeap trace].

Ltac open_step vm Hl :=
  first [ rewrite (vmCall_then _ vm) by (first [exact Hl | fields; apply lookup_insert_eq])
        | rewrite (newGlobalTable_then vm)
            by (first [exact Hl | fields; apply lookup_insert_eq])
        | rewrite modify_then ];
  fields.

Lemma open_unfold this s :
  stateSize <> 0 ->
  newBlock (frealloc (newVM LOOM_PLATFORM_64BIT this)) <> NULL ->
  open this s =
    if isNull (L s) then Ok tt (afterOpen this s)
    else Fail (AssertFault "!L") s.
Proof.
  intros Hsize Hl.
  set (vm := newVM LOOM_PLATFORM_64BIT this) in *.
  set (l := newBlock (frealloc vm)) in *.
  destruct s as [l0 asms tl ls lls ab tm vms heap tr].
  unfold Instance.open. unfold bind at 1, get at 1. unfold bind at 1, assert.
  cbn [L]. destruct (isNull l0); [|reflexivity].
  unfold ret at 1. unfold bind at 1.
  replace ((if LOOM_PLATFORM_64BIT
            then luaL_newstate LOOM_PLATFORM_64BIT lmAlloc lmRealloc vmWork stateSize
            else lua_newstate lsLuaAllocFn this)
             (mkState l0 asms tl ls lls ab tm vms heap tr))
    with (lua_newstate (frealloc vm) (ud vm)
            (mkState l0 asms tl ls lls ab tm vms heap tr))
    by (unfold vm, newVM, luaL_newstate; by destruct LOOM_PLATFORM_64BIT).
  rewrite (lua_newstate_run _ _ _ Hsize Hl). fold l.
  replace (mkLuaState (frealloc vm) (ud vm)) with vm by (by destruct vm).
  fields.
  do 17 (open_step vm Hl).
  rewrite (vmCall_run _ vm) by (first [exact Hl | fields; apply lookup_insert_eq]).
  fields. unfold afterOpen. fold vm. fold l.
  fields. f_equal. f_equal.
  - unfold Instance.openRequests, openCalls.
    cbn [fmap list_fmap concat]. rewrite !counted_app, counted_nil. reflexivity.
  - unfold Instance.openTrace, openCalls, Instance.served.
    cbn [fmap list_fmap concat]. rewrite <- !app_assoc. cbn [app].
    rewrite app_nil_r. reflexivity.
Qed.

(** When the allocation function hands out no block, [lua_newstate]
    returns [NULL] and [open] goes on to use the null handle. *)
Lemma open_without_state this s :
  L s = NULL ->
  stateSize = 0 \/ newBlock (frealloc (newVM LOOM_PLATFORM_64BIT this)) = NULL ->
  exists s', open this s = Fail (Undefined "use of a null lua_State") s'.
Proof.
  intros HL Hnone.
  set (vm := newVM LOOM_PLATFORM_64BIT this) in *.
  unfold Instance.open. unfold bind at 1, get at 1. unfold bind at 1, assert, isNull.
  rewrite bool_decide_eq_true_2 by done. unfold ret at 1. unfold bind at 1.
  replace ((if LOOM_PLATFORM_64BIT
            then luaL_newstate LOOM_PLATFORM_64BIT lmAlloc lmRealloc vmWork stateSize
            else lua_newstate lsLuaAllocFn this) s)
    with (lua_newstate (frealloc vm) (ud vm) s)
    by (unfold vm, newVM, luaL_newstate; by destruct LOOM_PLATFORM_64BIT).
  assert (Hnew : exists s1, lua_newstate (frealloc vm) (ud vm) s = Ok NULL s1).
  { unfold Instance.lua_newstate. unfold bind at 1, emit at 1, modify at 1.
    unfold bind at 1, callAlloc.
    destruct (Z.eqb_spec stateSize 0) as [Hz|Hnz].
    - destruct (frealloc vm); unfold lsLuaAlloc, default_alloc;
        [unfold bind at 1, modify|]; rewrite Hz; cbn; eexists; reflexivity.
    - destruct Hnone as [?|Hblock]; [done|].
      apply Z.eqb_neq in Hnz. unfold Instance.newBlock in Hblock.
      destruct (frealloc vm); unfold lsLuaAlloc, default_alloc;
        [unfold bind at 1, modify|]; rewrite Hnz; unfold isNull;
        rewrite ?(bool_decide_eq_true_2 (NULL = NULL)) by done;
        cbn; rewrite Hblock; cbn; eexists; reflexivity. }
  destruct Hnew as [s1 Hnew]. rewrite Hnew.
  rewrite !modify_then. unfold bind at 1, Instance.vmCall, bind at 1, get, isNull.
  rewrite bool_decide_eq_true_2 by done. eexists. reflexivity.
Qed.

(** *** Closing an instance *)

(** The instance after [close] closed the VM [st]. *)
Definition afterClose (st : lua_State) (s : State) : State :=
  mkState NULL (assemblies s) (delete (L s) (toLuaState s))
    (if bool_decide (lastState s = L s) then NULL else lastState s)
    (if bool_decide (lastState s = L s) then NULL else lastLSState s)
    (counted (frealloc st) (closeRequests (L s)) (allocatedBytes s))
    (tracemessage s)
    (delete (L s) (luaStates s))
    (releaseAll (assemblies s) (assemblyHeap s))
    (trace s ++ closeTrace (frealloc st) (L s) (assemblies s)).

Lemma close_unfold st s :
  L s <> NULL -> luaStates s !! L s = Some st -> ownsAssemblies s ->
  close s = Ok tt (afterClose st s).
Proof.
  intros HL Hvm [Hnd Hall].
  destruct s as [l asms tl ls lls ab tm vms heap tr].
  cbn [L luaStates assemblies assemblyHeap] in HL, Hvm, Hnd, Hall.
  unfold Instance.close. unfold bind at 1, get at 1. unfold bind at 1, assert, isNull.
  cbn [L lastState assemblies].
  rewrite bool_decide_eq_false_2 by done. cbn [negb]. unfold ret at 1.
  unfold bind at 1.
  set (ls' := if bool_decide (ls = l) then NULL else ls).
  set (lls' := if bool_decide (ls = l) then NULL else lls).
  replace ((if bool_decide (ls = l) then modify (set_last NULL NULL) else ret tt)
             (mkState l asms tl ls lls ab tm vms heap tr))
    with (Ok (S:=State) tt (mkState l asms tl ls' lls' ab tm vms heap tr))
    by (unfold ls', lls'; by destruct (bool_decide (ls = l))).
  rewrite (vmCall_then _ st) by (first [exact HL | exact Hvm]). fields.
  unfold bind at 1.
  match goal with
  | |- context [forEach lmDelete asms ?s0] =>
      rewrite (forEach_lmDelete asms s0 Hnd Hall)
  end.
  fields.
  rewrite (vmCall_then _ st) by (first [exact HL | exact Hvm]). fields.
  unfold Instance.lua_close.
  unfold bind at 1. rewrite (vmCall_then _ st) by (first [exact HL | exact Hvm]).
  fields.
  match goal with
  | |- context [bind (Instance.vmRealloc _ _ _ l l stateSize 0) _ ?s0] =>
      destruct (vmRealloc_run l st l stateSize 0 s0 Hvm) as [r Hr]
  end.
  rewrite (bind_Ok _ _ _ _ _ Hr). unfold modify at 1. rewrite !modify_then.
  unfold modify. fields. unfold afterClose. fields. f_equal. f_equal.
  - unfold Instance.closeRequests. by rewrite !counted_app.
  - unfold Instance.closeTrace. by rewrite <- !app_assoc.
Qed.

Lemma open_refused this s :
  L s <> NULL -> open this s = Fail (AssertFault "!L") s.
Proof.
  intros HL. unfold Instance.open. unfold bind at 1, get at 1.
  unfold bind at 1, assert, isNull. by rewrite bool_decide_eq_false_2.
Qed.

Lemma close_refused s :
  L s = NULL -> close s = Fail (AssertFault "L") s.
Proof.
  intros HL. unfold Instance.close. unfold bind at 1, get at 1.
  unfold bind at 1, assert, isNull. by rewrite bool_decide_eq_true_2.
Qed.

(** [open] returns only on an instance without a handle and when the
    allocation function hands out the block of the state. *)
Lemma open_installs this s s' :
  open this s = Ok tt s' ->
  L s = NULL /\ stateSize <> 0 /\
  newBlock (frealloc (newVM LOOM_PLATFORM_64BIT this)) <> NULL /\
  s' = afterOpen this s.
Proof.
  intros Hopen.
  destruct (decide (L s = NULL)) as [HL|HL];
    [|rewrite (open_refused this s HL) in Hopen; discriminate].
  destruct (decide (stateSize = 0)) as [Hz|Hz].
  { destruct (open_without_state this s HL (or_introl Hz)) as [s1 Hs1].
    rewrite Hs1 in Hopen. discriminate. }
  destruct (decide (newBlock (frealloc (newVM LOOM_PLATFORM_64BIT this)) = NULL))
    as [Hb|Hb].
  { destruct (open_without_state this s HL (or_intror Hb)) as [s1 Hs1].
    rewrite Hs1 in Hopen. discriminate. }
  rewrite (open_unfold this s Hz Hb) in Hopen. unfold isNull in Hopen.
  rewrite bool_decide_eq_true_2 in Hopen by done. by injection Hopen as <-.
Qed.

Lemma openRequests_nonempty vm l : openRequests vm l <> [].
Proof. unfold Instance.openRequests, newstateRequests. discriminate. Qed.

Lemma closeRequests_nonempty l : closeRequests l <> [].
Proof.
  unfold Instance.closeRequests. intros Heq.
  apply (f_equal length) in Heq. rewrite !length_app in Heq. cbn in Heq. lia.
Qed.

(** [open] on an instance that holds a VM handle stops at the assert
    and changes nothing.  On an instance without one, when the
    allocation function hands out the block of the state, it succeeds:
    the handle is that block, which is registered in [toLuaState] under
    the instance and is a VM with the allocation function the platform
    selects; the trace message is emptied; the trace has gained
    [lua_newstate], the calls of [openCalls] in that order, and after
    each the host allocator calls of the requests the VM made;
    assemblies and the last-state statics are left alone; the byte
    counter is left alone on a 64-bit platform and has moved by the net
    size of the VM's requests, modulo [2 ^ 32], on any other; and any
    further [open] is refused.  When the allocation function hands out
    no block, [open] goes on with the null handle. *)
Theorem open_contract (this : ptr) (s : State) :
  (L s <> NULL -> open this s = Fail (AssertFault "!L") s) /\
  (L s = NULL -> stateSize <> 0 ->
   newBlock (frealloc (newVM LOOM_PLATFORM_64BIT this)) <> NULL ->
   exists s',
     open this s = Ok tt s' /\
     L s' = newBlock (frealloc (newVM LOOM_PLATFORM_64BIT this)) /\
     toLuaState s' = <[L s' := this]> (toLuaState s) /\
     luaStates s' = <[L s' := newVM LOOM_PLATFORM_64BIT this]> (luaStates s) /\
     tracemessage s' = "" /\
     assemblies s' = assemblies s /\ assemblyHeap s' = assemblyHeap s /\
     lastState s' = lastState s /\ lastLSState s' = lastLSState s /\
     trace s' = trace s ++ openTrace (newVM LOOM_PLATFORM_64BIT this) (L s') /\
     (LOOM_PLATFORM_64BIT = true -> allocatedBytes s' = allocatedBytes s) /\
     (LOOM_PLATFORM_64BIT = false ->
      allocatedBytes s'
      = (allocatedBytes s
         + netBytes (openRequests (newVM LOOM_PLATFORM_64BIT this) (L s')))
        mod 2 ^ 32) /\
     forall this', open this' s' = Fail (AssertFault "!L") s') /\
  (L s = NULL ->
   stateSize = 0 \/ newBlock (frealloc (newVM LOOM_PLATFORM_64BIT this)) = NULL ->
   exists s', open this s = Fail (Undefined "use of a null lua_State") s').
Proof.
  split; [apply open_refused|]. split; [|apply open_without_state].
  intros HL Hsize Hblock. exists (afterOpen this s).
  rewrite (open_unfold this s Hsize Hblock). unfold isNull.
  rewrite bool_decide_eq_true_2 by done.
  cbn [L toLuaState luaStates tracemessage assemblies assemblyHeap lastState
       lastLSState trace allocatedBytes afterOpen].
  do 10 (split; [reflexivity|]).
  split.
  { intros Hb.
    replace (frealloc (newVM LOOM_PLATFORM_64BIT this)) with l_alloc at 1
      by (by rewrite Hb).
    reflexivity. }
  split.
  - intros Hb.
    replace (frealloc (newVM LOOM_PLATFORM_64BIT this)) with lsLuaAllocFn at 1
      by (by rewrite Hb).
    rewrite counted_net by apply openRequests_nonempty.
    unfold size_t_wrap, size_t_bits. by rewrite Hb.
  - intros this'. apply open_refused. exact Hblock.
Qed.

(** [close] on an instance that holds no VM handle (never opened, or
    closed before) stops with the assert fault and changes nothing.
    On an open instance that owns the assemblies it lists it succeeds:
    the profiler is disabled, every listed assembly is released, once
    and in load order, the native interface is shut down, the embedded
    VM is closed, frees the block of its state last and leaves the
    registry, and the handle is [NULL]; a second [close] is then
    refused by the assert and releases nothing. *)
Theorem close_contract (s : State) :
  (L s = NULL -> close s = Fail (AssertFault "L") s) /\
  (isOpen s -> ownsAssemblies s ->
   exists s',
     close s = Ok tt s' /\
     L s' = NULL /\
     luaStates s' !! L s = None /\
     toLuaState s' !! L s = None /\
     (forall a, a ∈ assemblies s -> assemblyHeap s' !! a = None) /\
     (forall a, a ∉ assemblies s -> assemblyHeap s' !! a = assemblyHeap s !! a) /\
     (forall st, luaStates s !! L s = Some st ->
        trace s' = trace s ++ closeTrace (frealloc st) (L s) (assemblies s)) /\
     close s' = Fail (AssertFault "L") s').
Proof.
  split; [apply close_refused|].
  intros [HL [st Hvm]] Howns. exists (afterClose st s).
  split; [by apply close_unfold|].
  cbn [L luaStates toLuaState assemblyHeap trace afterClose].
  split; [reflexivity|].
  split; [apply lookup_delete_eq|].
  split; [apply lookup_delete_eq|].
  split.
  { intros a Ha. rewrite releaseAll_lookup. by rewrite bool_decide_eq_true_2. }
  split.
  { intros a Ha. rewrite releaseAll_lookup. by rewrite bool_decide_eq_false_2. }
  split.
  { intros st' Hst'. rewrite Hvm in Hst'. by injection Hst' as <-. }
  by apply close_refused.
Qed.

(** [open] followed by [close]: on an instance without a handle that
    owns the assemblies it lists, when the allocation function hands
    out the block of the state, both succeed, the handle is [NULL]
    again, the VM is gone from [toLuaState] and from the live VMs, the
    listed assemblies are released, and the trace has gained that of
    [open], then that of [close].  On a 64-bit platform the byte
    counter is where it was; on any other it has moved by the net size
    of the requests the VM made from [lua_newstate] to [lua_close],
    modulo [2 ^ 32], so it is back where it was exactly when the VM
    freed as much as it allocated. *)
Theorem open_close_round_trip (this : ptr) (s : State) :
  L s = NULL -> stateSize <> 0 ->
  newBlock (frealloc (newVM LOOM_PLATFORM_64BIT this)) <> NULL ->
  ownsAssemblies s ->
  exists s1 s2,
    open this s = Ok tt s1 /\ close s1 = Ok tt s2 /\
    L s2 = NULL /\
    toLuaState s2 = delete (L s1) (toLuaState s) /\
    luaStates s2 = delete (L s1) (luaStates s) /\
    (forall a, a ∈ assemblies s -> assemblyHeap s2 !! a = None) /\
    trace s2 = trace s ++ openTrace (newVM LOOM_PLATFORM_64BIT this) (L s1)
                 ++ closeTrace (frealloc (newVM LOOM_PLATFORM_64BIT this)) (L s1)
                      (assemblies s) /\
    (LOOM_PLATFORM_64BIT = true -> allocatedBytes s2 = allocatedBytes s) /\
    (LOOM_PLATFORM_64BIT = false ->
     allocatedBytes s2
     = (allocatedBytes s
        + netBytes (openRequests (newVM LOOM_PLATFORM_64BIT this) (L s1)
                      ++ closeRequests (L s1)))
       mod 2 ^ 32) /\
    (LOOM_PLATFORM_64BIT = false ->
     0 <= allocatedBytes s < 2 ^ 32 ->
     (allocatedBytes s2 = allocatedBytes s <->
      netBytes (openRequests (newVM LOOM_PLATFORM_64BIT this) (L s1)
                  ++ closeRequests (L s1)) mod 2 ^ 32 = 0)).
Proof.
  intros HL Hsize Hblock Howns.
  set (vm := newVM LOOM_PLATFORM_64BIT this) in *.
  set (l := newBlock (frealloc vm)) in *.
  assert (Hvm : luaStates (afterOpen this s) !! l = Some vm)
    by (cbn [luaStates afterOpen]; apply lookup_insert_eq).
  assert (Hbytes : LOOM_PLATFORM_64BIT = false ->
            allocatedBytes (afterClose vm (afterOpen this s))
            = (allocatedBytes s + netBytes (openRequests vm l ++ closeRequests l))
              mod 2 ^ 32).
  { intros Hb. cbn [allocatedBytes L afterOpen afterClose]. fold vm. fold l.
    rewrite <- counted_app.
    replace (frealloc vm) with lsLuaAllocFn by (unfold vm; by rewrite Hb).
    rewrite counted_net.
    - unfold size_t_wrap, size_t_bits. by rewrite Hb.
    - intros Heq. apply app_eq_nil in Heq as [Heq _].
      by apply openRequests_nonempty in Heq. }
  exists (afterOpen this s), (afterClose vm (afterOpen this s)).
  split.
  { rewrite (open_unfold this s Hsize Hblock). unfold isNull.
    by rewrite bool_decide_eq_true_2. }
  split.
  { apply close_unfold; [exact Hblock|exact Hvm|exact Howns]. }
  split; [reflexivity|].
  cbn [L toLuaState luaStates assemblyHeap assemblies trace afterOpen afterClose].
  fold vm. fold l.
  split; [apply delete_insert_eq|].
  split; [apply delete_insert_eq|].
  split.
  { intros a Ha. rewrite releaseAll_lookup. by rewrite bool_decide_eq_true_2. }
  split; [by rewrite <- app_assoc|].
  split.
  { intros Hb. cbn [allocatedBytes afterOpen afterClose]. fold vm.
    replace (frealloc vm) with l_alloc by (unfold vm; by rewrite Hb).
    reflexivity. }
  split; [exact Hbytes|].
  intros Hb Hrange. rewrite (Hbytes Hb).
  set (net := netBytes _). split.
  - intros Heq.
    assert (Hmod : (allocatedBytes s + net) mod 2 ^ 32 = allocatedBytes s mod 2 ^ 32)
      by (rewrite Heq; symmetry; by apply Z.mod_small).
    rewrite Z.add_mod in Hmod by lia.
    rewrite (Z.mod_small (allocatedBytes s)) in Hmod by lia.
    pose proof (Z.mod_pos_bound net (2 ^ 32) ltac:(lia)) as Hnet.
    destruct (decide (allocatedBytes s + net mod 2 ^ 32 < 2 ^ 32)) as [Hlt|Hge].
    + rewrite Z.mod_small in Hmod by lia. lia.
    + replace ((allocatedBytes s + net mod 2 ^ 32) mod 2 ^ 32)
        with (allocatedBytes s + net mod 2 ^ 32 - 2 ^ 32) in Hmod; [lia|].
      apply Z.mod_unique with 1; lia.
  - intros Hzero. rewrite Z.add_mod by lia. rewrite Hzero, Z.add_0_r.
    rewrite Z.mod_mod by lia. by apply Z.mod_small.
Qed.

(** [close] forgets the last VM in use exactly when it is the one it
    closes: [lastState] and [lastLSState] are both reset when
    [lastState] is the handle of the instance, and both left alone
    otherwise, whatever [lastLSState] is.  It never touches the trace
    message, and it leaves the array [assemblies] as it was, listing
    the assemblies it has released.  The byte counter stays where it
    was when the VM was created with the default allocation function;
    when it was created with [lsLuaAlloc] the counter moves by the net
    size of what the VM frees, the block of its state included, modulo
    the width of [size_t]. *)
Theorem close_resets_last (s : State) :
  isOpen s -> ownsAssemblies s ->
  exists s',
    close s = Ok tt s' /\
    (lastState s = L s -> lastState s' = NULL /\ lastLSState s' = NULL) /\
    (lastState s <> L s ->
     lastState s' = lastState s /\ lastLSState s' = lastLSState s) /\
    tracemessage s' = tracemessage s /\
    assemblies s' = assemblies s /\
    (forall a, a ∈ assemblies s' -> assemblyHeap s' !! a = None) /\
    (forall st, luaStates s !! L s = Some st -> frealloc st = l_alloc ->
       allocatedBytes s' = allocatedBytes s) /\
    (forall st, luaStates s !! L s = Some st -> frealloc st = lsLuaAllocFn ->
       allocatedBytes s'
       = size_t_wrap LOOM_PLATFORM_64BIT
           (allocatedBytes s + netBytes (closeRequests (L s)))).
Proof.
  intros [HL [st Hvm]] Howns. exists (afterClose st s).
  split; [by apply close_unfold|].
  cbn [lastState lastLSState allocatedBytes tracemessage assemblies assemblyHeap
       afterClose].
  split; [intros Heq; by rewrite bool_decide_eq_true_2|].
  split; [intros Hne; by rewrite bool_decide_eq_false_2|].
  split; [reflexivity|]. split; [reflexivity|].
  split.
  { intros a Ha. rewrite releaseAll_lookup. by rewrite bool_decide_eq_true_2. }
  split; intros st' Hst' Hf; rewrite Hvm in Hst'; injection Hst' as <-; rewrite Hf.
  - reflexivity.
  - apply counted_net, closeRequests_nonempty.
Qed.

End RunProofs.

(** C9 (as the code has it).  On a platform that is not 64-bit, [open]
    creates the embedded VM with [lsLuaAlloc]: the requests the VM
    made during [open] have moved the counter by their net size, and
    from then on every request of that VM (allocation, reallocation or
    free) succeeds and moves the counter to
    [allocatedBytes + (nsize - osize)] modulo [2 ^ 32]; a request with
    [nsize = 0] frees the block, one with a null block allocates, any
    other reallocates; over a run of requests the counter has moved by
    their net size, modulo [2 ^ 32]. *)
Theorem lsLuaAlloc_counts lmAlloc lmRealloc vmWork stateSize this s s' :
  open false lmAlloc lmRealloc vmWork stateSize this s = Ok tt s' ->
  (forall s1 p osize nsize,
      luaStates s1 !! L s' = luaStates s' !! L s' ->
      exists r s2,
        vmRealloc false lmAlloc lmRealloc (L s') p osize nsize s1 = Ok r s2 /\
        allocatedBytes s2 = (allocatedBytes s1 + (nsize - osize)) mod 2 ^ 32 /\
        luaStates s2 = luaStates s1 /\
        (nsize = 0 -> r = NULL /\ trace s2 = trace s1 ++ [EvFree p]) /\
        (nsize <> 0 -> p = NULL ->
         r = lmAlloc nsize /\ trace s2 = trace s1 ++ [EvAlloc nsize]) /\
        (nsize <> 0 -> p <> NULL ->
         r = lmRealloc p nsize /\ trace s2 = trace s1 ++ [EvRealloc p nsize])) /\
  (forall reqs,
      exists s2,
        vmRequests false lmAlloc lmRealloc (L s') reqs s' = Ok tt s2 /\
        allocatedBytes s2 mod 2 ^ 32 = (allocatedBytes s' + netBytes reqs) mod 2 ^ 32) /\
  allocatedBytes s'
  = (allocatedBytes s
     + netBytes (openRequests vmWork stateSize (newVM false this) (L s')))
    mod 2 ^ 32.
Proof.
  intros Hopen.
  destruct (open_installs false lmAlloc lmRealloc vmWork stateSize this s s' Hopen)
    as (_ & _ & _ & ->).
  assert (Hvm : luaStates (afterOpen false lmAlloc lmRealloc vmWork stateSize this s)
                  !! L (afterOpen false lmAlloc lmRealloc vmWork stateSize this s)
                = Some (mkLuaState lsLuaAllocFn this))
    by (cbn [luaStates L afterOpen]; apply lookup_insert_eq).
  split; [|split].
  - intros s1 p osize nsize Hsame. rewrite Hvm in Hsame.
    exact (vmRealloc_lsLuaAlloc false lmAlloc lmRealloc _ _ p osize nsize s1
             Hsame eq_refl).
  - intros reqs.
    destruct (vmRequests_lsLuaAlloc false lmAlloc lmRealloc _ _ reqs _ Hvm eq_refl)
      as (s2 & Hrun & Hbytes & _).
    exists s2. split; [exact Hrun|exact Hbytes].
  - cbn [allocatedBytes L afterOpen newVM frealloc].
    apply counted_net, openRequests_nonempty.
Qed.

(** A host for the examples.  The block of a [lua_State] has 376
    bytes and is handed out at address 7, every other block at 100.
    The VM allocates 160 bytes in [lua_newstate], 64 bytes grown to 128
    while it opens the libraries and 32 bytes for each global table,
    and frees all of it in [lua_close]. *)
Definition hostAlloc (nsize : Z) : ptr := if nsize =? 376 then 7%N else 100%N.
Definition hostRealloc (p : ptr) (nsize : Z) : ptr :=
  if isNull p then hostAlloc nsize else p.

Definition hostWork (e : event) : list request :=
  match e with
  | EvNewState _ _ => [(NULL, 0, 160)]
  | EvOpenLibs _ => [(NULL, 0, 64); (100%N, 64, 128)]
  | EvNewTable _ _ _ => [(NULL, 0, 32)]
  | EvLuaClose _ => [(100%N, 128, 0); (100%N, 256, 0); (100%N, 160, 0)]
  | _ => []
  end.

(** An instance that was never opened, at address 9. *)
Definition unopened : State :=
  mkState NULL [] ∅ NULL NULL 0 "" ∅ ∅ [].

Definition opened (b64 : bool) : State :=
  match open b64 hostAlloc hostRealloc hostWork 376 9%N unopened with
  | Ok _ s => s
  | Fail _ s => s
  end.

Lemma lsLuaAlloc_counts_witness :
  exists s2,
    vmRequests false hostAlloc hostRealloc 7%N
      [(NULL, 0, 16); (100%N, 16, 64); (100%N, 64, 0)] (opened false) = Ok tt s2 /\
    allocatedBytes s2 mod 2 ^ 32
    = (allocatedBytes (opened false)
       + netBytes [(NULL, 0, 16); (100%N, 16, 64); (100%N, 64, 0)]) mod 2 ^ 32.
Proof.
  apply (proj1 (proj2 (lsLuaAlloc_counts hostAlloc hostRealloc hostWork 376 9%N
                         unopened (opened false) ltac:(vm_compute; reflexivity)))).
Defined.

(** The requests of [open] itself are counted: 376 bytes for the
    state, 160 in [lua_newstate], 128 for the libraries and 32 for each
    of the eight global tables. *)
Example open_counts_its_requests :
  L (opened false) = 7%N /\ allocatedBytes (opened false) = 920.
Proof. split; vm_compute; reflexivity. Qed.

(** On a 64-bit platform [open] creates the VM with [luaL_newstate]:
    the requests of [open] have left the counter at 0, and an
    allocation of 16 bytes by the VM leaves it where it was. *)
Lemma open_64bit_counter_unmoved :
  open true hostAlloc hostRealloc hostWork 376 9%N unopened = Ok tt (opened true) /\
  allocatedBytes (opened true) = 0 /\
  exists r s2,
    vmRealloc true hostAlloc hostRealloc 7%N NULL 0 16 (opened true) = Ok r s2 /\
    allocatedBytes s2 = allocatedBytes (opened true) /\
    allocatedBytes s2 <> size_t_wrap true (allocatedBytes (opened true) + (16 - 0)).
Proof.
  split; [vm_compute; reflexivity|]. split; [vm_compute; reflexivity|].
  eexists _, _. split; [vm_compute; reflexivity|].
  split; [reflexivity|]. vm_compute. discriminate.
Qed.

(** The counter wraps around: freeing 16 bytes at a counter of 0. *)
Example lsLuaAlloc_wraps :
  exists r s2,
    vmRealloc false hostAlloc hostRealloc 7%N 100%N 16 0 loaded = Ok r s2 /\
    allocatedBytes s2 = 4294967280.
Proof. eexists _, _. split; vm_compute; reflexivity. Qed.

(** The instance of [loaded] on the host of the examples: its VM
    holds the 920 bytes it allocated in [open]. *)
Definition running : State := set_allocatedBytes 920 loaded.

Lemma running_isOpen : isOpen running.
Proof. split; [vm_compute; discriminate|]. vm_compute. by eexists. Qed.

Lemma running_ownsAssemblies : ownsAssemblies running.
Proof.
  split.
  - apply (bool_decide_unpack _). vm_compute. exact I.
  - intros a Ha. cbn [assemblies running set_allocatedBytes loaded] in Ha.
    repeat (apply elem_of_cons in Ha as [->|Ha]; [by vm_compute; eexists|]).
    by apply elem_of_nil in Ha.
Qed.

(** C8 (where the code departs from it).  [close] leaves the array
    [assemblies] as it was, listing the assemblies it has released,
    and sets the handle to [NULL], so that [open] accepts the instance
    again.  The instance is then open, as the claim asks, and its next
    [close] releases the listed assemblies a second time: the first
    [lmDelete] is that of a block that is not allocated. *)
Example close_keeps_assemblies_listed :
  exists s1 s2 s3,
    close false hostAlloc hostRealloc hostWork 376 running = Ok tt s1 /\
    assemblies s1 = assemblies running /\
    (forall a, a ∈ assemblies s1 -> assemblyHeap s1 !! a = None) /\
    open false hostAlloc hostRealloc hostWork 376 9%N s1 = Ok tt s2 /\
    isOpen s2 /\ assemblies s2 = [1%N; 2%N; 3%N] /\
    close false hostAlloc hostRealloc hostWork 376 s2
    = Fail (Undefined "lmDelete of a block that is not allocated") s3 /\
    trace s3 = trace s2 ++ [EvProfilerDisable 7%N].
Proof.
  eexists _, _, _. split; [vm_compute; reflexivity|].
  split; [reflexivity|].
  split.
  { intros a Ha. vm_compute in Ha.
    repeat (apply elem_of_cons in Ha as [->|Ha]; [vm_compute; reflexivity|]).
    by apply elem_of_nil in Ha. }
  split; [vm_compute; reflexivity|].
  split; [split; [vm_compute; discriminate|vm_compute; by eexists]|].
  split; [vm_compute; reflexivity|].
  split; vm_compute; reflexivity.
Qed.

Lemma close_contract_witness :
  close false hostAlloc hostRealloc hostWork 376 unopened
  = Fail (AssertFault "L") unopened /\
  exists s',
    close false hostAlloc hostRealloc hostWork 376 running = Ok tt s' /\
    L s' = NULL /\
    luaStates s' !! L running = None /\
    toLuaState s' !! L running = None /\
    (forall a, a ∈ assemblies running -> assemblyHeap s' !! a = None) /\
    (forall a, a ∉ assemblies running ->
               assemblyHeap s' !! a = assemblyHeap running !! a) /\
    trace s' = trace running
                 ++ closeTrace hostWork 376 lsLuaAllocFn (L running)
                      (assemblies running) /\
    close false hostAlloc hostRealloc hostWork 376 s' = Fail (AssertFault "L") s'.
Proof.
  split.
  - apply (proj1 (close_contract false hostAlloc hostRealloc hostWork 376 unopened)).
    reflexivity.
  - destruct (proj2 (close_contract false hostAlloc hostRealloc hostWork 376 running)
                running_isOpen running_ownsAssemblies)
      as (s' & Hclose & HL & Hvms & Htl & Hrel & Hkeep & Htr & Hagain).
    exists s'.
    split; [exact Hclose|]. split; [exact HL|]. split; [exact Hvms|].
    split; [exact Htl|]. split; [exact Hrel|]. split; [exact Hkeep|].
    split; [|exact Hagain].
    apply (Htr (mkLuaState lsLuaAllocFn 9%N)). vm_compute. reflexivity.
Defined.

Lemma open_contract_witness :
  (exists s',
      open false hostAlloc hostRealloc hostWork 376 9%N unopened = Ok tt s' /\
      L s' = 7%N /\
      toLuaState s' = <[L s' := 9%N]> (toLuaState unopened) /\
      luaStates s' = <[L s' := newVM false 9%N]> (luaStates unopened) /\
      tracemessage s' = "" /\
      trace s' = trace unopened ++ openTrace hostWork 376 (newVM false 9%N) (L s') /\
      allocatedBytes s'
      = (allocatedBytes unopened
         + netBytes (openRequests hostWork 376 (newVM false 9%N) (L s'))) mod 2 ^ 32 /\
      open false hostAlloc hostRealloc hostWork 376 9%N s' = Fail (AssertFault "!L") s') /\
  (exists s',
      open true hostAlloc hostRealloc hostWork 376 9%N unopened = Ok tt s' /\
      allocatedBytes s' = allocatedBytes unopened) /\
  open false hostAlloc hostRealloc hostWork 376 9%N running
  = Fail (AssertFault "!L") running /\
  (exists s',
      open false hostAlloc hostRealloc hostWork 0 9%N unopened
      = Fail (Undefined "use of a null lua_State") s').
Proof.
  split; [|split; [|split]].
  - destruct (proj1 (proj2 (open_contract false hostAlloc hostRealloc hostWork 376
                              9%N unopened))
                eq_refl ltac:(discriminate) ltac:(vm_compute; discriminate))
      as (s' & Hopen & HL & Htl & Hvms & Htm & _ & _ & _ & _ & Htr & _ & H32 & Hagain).
    exists s'.
    split; [exact Hopen|]. split; [exact HL|]. split; [exact Htl|].
    split; [exact Hvms|]. split; [exact Htm|]. split; [exact Htr|].
    split; [exact (H32 eq_refl)|exact (Hagain 9%N)].
  - destruct (proj1 (proj2 (open_contract true hostAlloc hostRealloc hostWork 376
                              9%N unopened))
                eq_refl ltac:(discriminate) ltac:(vm_compute; discriminate))
      as (s' & Hopen & _ & _ & _ & _ & _ & _ & _ & _ & _ & H64 & _).
    exists s'. split; [exact Hopen|exact (H64 eq_refl)].
  - apply (proj1 (open_contract false hostAlloc hostRealloc hostWork 376 9%N running)).
    vm_compute. discriminate.
  - apply (proj2 (proj2 (open_contract false hostAlloc hostRealloc hostWork 0
                           9%N unopened))); [reflexivity|by left].
Defined.

(** The counter after [open] on the host of the examples, and the
    calls in the trace up to the first global table. *)
Example open_on_host :
  exists s',
    open false hostAlloc hostRealloc hostWork 376 9%N unopened = Ok tt s' /\
    allocatedBytes s' = 920 /\
    take 9 (trace s')
    = [EvNewState lsLuaAllocFn 9%N; EvAlloc 376; EvAlloc 160;
       EvGCStop 7%N; EvOpenLibs 7%N; EvAlloc 64; EvRealloc 100%N 128;
       EvOpenSocketCore 7%N; EvNewTable 7%N LSINDEXCLASSES false].
Proof. eexists. split; [vm_compute; reflexivity|]. split; reflexivity. Qed.

Lemma open_close_round_trip_witness :
  (exists s1 s2,
      open false hostAlloc hostRealloc hostWork 376 9%N unopened = Ok tt s1 /\
      close false hostAlloc hostRealloc hostWork 376 s1 = Ok tt s2 /\
      L s2 = NULL /\
      toLuaState s2 = delete (L s1) (toLuaState unopened) /\
      luaStates s2 = delete (L s1) (luaStates unopened) /\
      trace s2 = trace unopened ++ openTrace hostWork 376 (newVM false 9%N) (L s1)
                   ++ closeTrace hostWork 376 (frealloc (newVM false 9%N)) (L s1)
                        (assemblies unopened) /\
      allocatedBytes s2
      = (allocatedBytes unopened
         + netBytes (openRequests hostWork 376 (newVM false 9%N) (L s1)
                       ++ closeRequests hostWork 376 (L s1)))
        mod 2 ^ 32 /\
      (allocatedBytes s2 = allocatedBytes unopened <->
       netBytes (openRequests hostWork 376 (newVM false 9%N) (L s1)
                   ++ closeRequests hostWork 376 (L s1)) mod 2 ^ 32 = 0)) /\
  (exists s1 s2,
      open true hostAlloc hostRealloc hostWork 376 9%N unopened = Ok tt s1 /\
      close true hostAlloc hostRealloc hostWork 376 s1 = Ok tt s2 /\
      allocatedBytes s2 = allocatedBytes unopened).
Proof.
  assert (Howns : ownsAssemblies unopened).
  { split; [constructor|]. intros a Ha. by apply elem_of_nil in Ha. }
  split.
  - destruct (open_close_round_trip false hostAlloc hostRealloc hostWork 376 9%N
                unopened eq_refl ltac:(discriminate)
                ltac:(vm_compute; discriminate) Howns)
      as (s1 & s2 & Hopen & Hclose & HL & Htl & Hvms & _ & Htr & _ & H32 & Hiff).
    exists s1, s2.
    split; [exact Hopen|]. split; [exact Hclose|]. split; [exact HL|].
    split; [exact Htl|]. split; [exact Hvms|]. split; [exact Htr|].
    split; [exact (H32 eq_refl)|].
    apply (Hiff eq_refl). vm_compute. split; [discriminate|reflexivity].
  - destruct (open_close_round_trip true hostAlloc hostRealloc hostWork 376 9%N
                unopened eq_refl ltac:(discriminate)
                ltac:(vm_compute; discriminate) Howns)
      as (s1 & s2 & Hopen & Hclose & _ & _ & _ & _ & _ & H64 & _).
    exists s1, s2. split; [exact Hopen|]. split; [exact Hclose|exact (H64 eq_refl)].
Defined.

(** On the host of the examples the VM frees in [lua_close] what it
    allocated since [lua_newstate], and the counter is back at 0; with
    a VM that keeps the 160 bytes of [lua_newstate] it is not. *)
Example round_trip_on_host :
  (exists s1 s2,
      open false hostAlloc hostRealloc hostWork 376 9%N unopened = Ok tt s1 /\
      close false hostAlloc hostRealloc hostWork 376 s1 = Ok tt s2 /\
      allocatedBytes s1 = 920 /\ allocatedBytes s2 = 0) /\
  (let leaky e := match e with EvLuaClose _ => [(100%N, 128, 0); (100%N, 256, 0)]
                             | _ => hostWork e end in
   exists s1 s2,
      open false hostAlloc hostRealloc leaky 376 9%N unopened = Ok tt s1 /\
      close false hostAlloc hostRealloc leaky 376 s1 = Ok tt s2 /\
      allocatedBytes s2 = 160).
Proof.
  split.
  - eexists _, _. split; [vm_compute; reflexivity|].
    split; [vm_compute; reflexivity|]. split; reflexivity.
  - eexists _, _. split; [vm_compute; reflexivity|].
    split; [vm_compute; reflexivity|]. reflexivity.
Qed.

(** The instance of [running], with its VM the last one in use. *)
Definition lastUsed : State :=
  set_last (L running) 9%N running.

(** The instance of [running] on a 64-bit platform: its VM was created
    by [luaL_newstate]. *)
Definition running64 : State :=
  set_luaStates {[ 7%N := mkLuaState l_alloc NULL ]} running.

Lemma close_resets_last_witness :
  (exists s',
      close false hostAlloc hostRealloc hostWork 376 lastUsed = Ok tt s' /\
      lastState s' = NULL /\ lastLSState s' = NULL /\
      tracemessage s' = tracemessage lastUsed /\
      assemblies s' = assemblies lastUsed /\
      (forall a, a ∈ assemblies s' -> assemblyHeap s' !! a = None) /\
      allocatedBytes s'
      = size_t_wrap false
          (allocatedBytes lastUsed
           + netBytes (closeRequests hostWork 376 (L lastUsed)))) /\
  (exists s',
      close true hostAlloc hostRealloc hostWork 376 running64 = Ok tt s' /\
      lastState s' = lastState running64 /\ lastLSState s' = lastLSState running64 /\
      allocatedBytes s' = allocatedBytes running64).
Proof.
  assert (Hasms : forall s, assemblies s = assemblies loaded ->
                    assemblyHeap s = assemblyHeap loaded -> ownsAssemblies s).
  { intros s Ha Hh. unfold ownsAssemblies. rewrite Ha, Hh. split.
    - apply (bool_decide_unpack _). vm_compute. exact I.
    - intros a Hin. cbn [assemblies loaded] in Hin.
      repeat (apply elem_of_cons in Hin as [->|Hin]; [by vm_compute; eexists|]).
      by apply elem_of_nil in Hin. }
  split.
  - destruct (close_resets_last false hostAlloc hostRealloc hostWork 376 lastUsed)
      as (s' & Hclose & Hreset & _ & Htm & Hlist & Hrel & _ & Hbytes).
    { split; [vm_compute; discriminate|]. vm_compute. by eexists. }
    { by apply Hasms. }
    exists s'. split; [exact Hclose|].
    split; [apply Hreset; reflexivity|]. split; [apply Hreset; reflexivity|].
    split; [exact Htm|]. split; [exact Hlist|]. split; [exact Hrel|].
    apply (Hbytes (mkLuaState lsLuaAllocFn 9%N)); [vm_compute|]; reflexivity.
  - destruct (close_resets_last true hostAlloc hostRealloc hostWork 376 running64)
      as (s' & Hclose & _ & Hkeep & _ & _ & _ & Hbytes & _).
    { split; [vm_compute; discriminate|]. vm_compute. by eexists. }
    { by apply Hasms. }
    exists s'. split; [exact Hclose|].
    split; [apply Hkeep; vm_compute; discriminate|].
    split; [apply Hkeep; vm_compute; discriminate|].
    apply (Hbytes (mkLuaState l_alloc NULL)); [vm_compute|]; reflexivity.
Defined.

(** Closing the instance of [lastUsed] frees the 920 bytes its VM
    held and resets both statics. *)
Example close_on_host :
  exists s',
    close false hostAlloc hostRealloc hostWork 376 lastUsed = Ok tt s' /\
    allocatedBytes lastUsed = 920 /\ allocatedBytes s' = 0 /\
    lastState s' = NULL /\ lastLSState s' = NULL.
Proof.
  eexists. split; [vm_compute; reflexivity|]. repeat split; reflexivity.
Qed.

End InstanceProofs.

(** ** Traceback capture *)

Module Traceback.

(** An activation record as [lua_getstack] and [lua_getinfo(L, "fSl")]
    fill it: whether [lua_getinfo] succeeded, the function running in
    the frame (the value option [f] pushes), whether it is a C function,
    the source label and the current line. *)
Record lua_Debug : Type := mkDebug {
  infoOk : bool;
  func : ptr;
  iscfunction : bool;
  source : string;
  currentline : Z
}.

(** [struct stackinfo]. *)
Record stackinfo : Type := mkStackinfo {
  si_source : string;
  linenumber : Z;
  methodBase : ptr
}.

Section Capture.

(** The method-lookup table of the VM (global slot
    [LSINDEXMETHODLOOKUP]): callable to [MethodBase*]. *)
Variable methodLookup : gmap ptr ptr.

(** [methodBase->isNative()]. *)
Variable isNative : ptr -> bool.

(** The record pushed for a frame that resolves to [methodBase]. *)
Definition record (lstack : lua_Debug) (methodBase : ptr) : stackinfo :=
  mkStackinfo
    (if isNative methodBase then "[NATIVE]" else source lstack)
    (if currentline lstack =? -1 then 0 else currentline lstack)
    methodBase.

(** The loop of [_getCurrentStack]: [frames] are the activation
    records from level [stackFrame] outwards, the innermost first;
    [lua_getstack] fails when they are used up. *)
Fixpoint walk (frames : list lua_Debug) (lastMethod : ptr)
  (stack : list stackinfo) : list stackinfo :=
  match frames with
  | [] => stack
  | lstack :: outer =>
      if negb (infoOk lstack) then stack
      else
        let cfunc := iscfunction lstack in
        match methodLookup !! func lstack with
        | None => walk outer lastMethod stack
        | Some methodBase =>
            if cfunc && bool_decide (lastMethod = methodBase)
            then walk outer lastMethod stack
            else walk outer methodBase (stack ++ [record lstack methodBase])
        end
  end.

(** [_getCurrentStack(L, stack)]: the pushes go on top of [stack]. *)
Definition _getCurrentStack (frames : list lua_Debug) (stack : list stackinfo)
  : list stackinfo :=
  walk frames NULL stack.

(** *** The trace in the words of the specification *)

(** The frames the walk looks at: all of them up to the first one
    [lua_getinfo] fails on. *)
Fixpoint inspected (frames : list lua_Debug) : list lua_Debug :=
  match frames with
  | [] => []
  | f :: outer => if infoOk f then f :: inspected outer else []
  end.

(** The frames whose callable is found in the method-lookup table,
    each with the metadata it resolves to. *)
Definition resolved (frames : list lua_Debug) : list (lua_Debug * ptr) :=
  omap (fun f => (fun m => (f, m)) <$> methodLookup !! func f) frames.

(** A host trampoline: a C frame that resolves to the metadata [prev]
    of the resolved frame just inside it. *)
Definition trampoline (prev : ptr) (fm : lua_Debug * ptr) : bool :=
  iscfunction fm.1 && bool_decide (prev = fm.2).

(** Trampolines are dropped; [prev] is the metadata of the resolved
    frame before, [NULL] at the innermost one. *)
Fixpoint collapse (prev : ptr) (frames : list (lua_Debug * ptr))
  : list (lua_Debug * ptr) :=
  match frames with
  | [] => []
  | fm :: outer =>
      if trampoline prev fm then collapse fm.2 outer
      else fm :: collapse fm.2 outer
  end.

(** One entry per logical call, innermost first. *)
Definition logicalCalls (frames : list lua_Debug) : list stackinfo :=
  (fun fm => record fm.1 fm.2) <$> collapse NULL (resolved (inspected frames)).

End Capture.

(** *** The stored traceback and the runtime error report *)

(** The first [n] characters of a string: what [snprintf] and
    [vsnprintf] keep of it in a buffer of [n + 1] characters. *)
Fixpoint truncate (n : nat) (s : string) : string :=
  match n, s with
  | O, _ => EmptyString
  | S _, EmptyString => EmptyString
  | S n', String c rest => String c (truncate n' rest)
  end.

(** What the report writes and calls, in order: a line of [LSLog], the
    line of a stack frame (the method whose [getFullMemberName()] is
    printed, the source, the line number), and the calls of
    [lmAllocVerifyAll] and [dumpLuaStack]. *)
Inductive entry : Type :=
| LSLog (text : string)
| LSLogFrame (methodBase : ptr) (source : string) (linenumber : Z)
| CallAllocVerifyAll
| CallDumpLuaStack.

(** The statics [_tracestack] and [_tracemessage], and the log. *)
Record State : Type := mkState {
  _tracestack : list stackinfo;
  _tracemessage : string;
  log : list entry
}.

Definition set_tracestack (v : list stackinfo) (s : State) : State :=
  mkState v (_tracemessage s) (log s).
Definition set_tracemessage (v : string) (s : State) : State :=
  mkState (_tracestack s) v (log s).
Definition set_log (v : list entry) (s : State) : State :=
  mkState (_tracestack s) (_tracemessage s) v.

Definition emit (e : entry) : M State unit :=
  modify (fun s => set_log (log s ++ [e]) s).

Section Report.

Variable methodLookup : gmap ptr ptr.
Variable isNative : ptr -> bool.

(** [utStack::peek(offs)]; [None] when there is no such element. *)
Variable peek : list stackinfo -> nat -> option stackinfo.

(** Whether the file is compiled with [_MSC_VER] defined. *)
Variable _MSC_VER : bool.

(** [LSLuaState::traceback(L)].  [arg1] is what [lua_tostring(L, 1)]
    gives when [lua_isstring(L, 1)] holds, [frames] the activation
    records of [L]. *)
Definition traceback (arg1 : option string) (frames : list lua_Debug)
  : M State Z :=
  modify (set_tracestack []) ;;
  match arg1 with
  | Some str => modify (set_tracemessage (truncate 2039 (Paths.c_str str)))
  | None => modify (set_tracemessage "")
  end ;;
  modify (fun s => set_tracestack
                     (_getCurrentStack methodLookup isNative frames (_tracestack s)) s) ;;
  ret 0.

(** The formatting of the message into [buff]: [vsnprintf] cuts it to
    the buffer; [vsprintf_s] does not return when it does not fit. *)
Definition formatMessage (formatted : string) : M State string :=
  if _MSC_VER then
    if bool_decide (String.length (Paths.c_str formatted) <= 2045)%nat
    then ret (Paths.c_str formatted)
    else raise (Undefined "vsprintf_s: the message does not fit the buffer")
  else ret (truncate 2045 (Paths.c_str formatted)).

(** One turn of the loop over the stored stack. *)
Definition logFrame (i : nat) : M State unit :=
  s <- get ;;
  match peek (_tracestack s) (length (_tracestack s) - i - 1) with
  | Some si => emit (LSLogFrame (methodBase si) (si_source si) (linenumber si))
  | None => raise (Undefined "peek past the end of the stack")
  end.

(** [LSLuaState::triggerRuntimeError(format, ...)].  [formatted] is the
    expansion of [format] with its arguments, [frames] the activation
    records of the VM. *)
Definition triggerRuntimeError (formatted : string) (frames : list lua_Debug)
  : M State unit :=
  emit (LSLog "=====================") ;;
  emit (LSLog "=   RUNTIME ERROR   =") ;;
  emit (LSLog ("=====================" +:+ "
")) ;;
  emit CallAllocVerifyAll ;;
  emit CallDumpLuaStack ;;
  buff <- formatMessage formatted ;;
  emit (LSLog buff) ;;
  s <- get ;;
  (if bool_decide (Paths.c_str (_tracemessage s) = "") then ret tt
   else emit (LSLog (Paths.c_str (_tracemessage s) +:+ "
"))) ;;
  modify (set_tracemessage "") ;;
  s <- get ;;
  (if bool_decide (length (_tracestack s) = 0%nat)
   then modify (set_tracestack
                  (_getCurrentStack methodLookup isNative frames (_tracestack s)))
   else ret tt) ;;
  emit (LSLog "Stacktrace:") ;;
  s <- get ;;
  forEach logFrame (seq 0 (length (_tracestack s))) ;;
  LSError "
Fatal Runtime Error

".

End Report.

End Traceback.

Module TracebackProofs.
Import Traceback.

Section CaptureProofs.

Variable methodLookup : gmap ptr ptr.
Variable isNative : ptr -> bool.

Local Abbreviation walk := (walk methodLookup isNative).
Local Abbreviation record := (record isNative).

Lemma walk_refines frames : forall lastMethod stack,
  walk frames lastMethod stack
  = stack ++ ((fun fm => record fm.1 fm.2)
                <$> collapse lastMethod (resolved methodLookup (inspected frames))).
Proof.
  induction frames as [|f outer IH]; intros lastMethod stack.
  - cbn. by rewrite app_nil_r.
  - cbn [Traceback.walk inspected]. destruct (infoOk f); cbn [negb].
    2:{ cbn. by rewrite app_nil_r. }
    unfold resolved. cbn [omap list_omap].
    fold (resolved methodLookup (inspected outer)).
    destruct (methodLookup !! func f) as [m|] eqn:Hm; cbn [fmap option_fmap option_map].
    + cbn [collapse]. unfold trampoline. cbn [fst snd].
      destruct (iscfunction f && bool_decide (lastMethod = m)) eqn:Ht.
      * apply andb_true_iff in Ht as [_ Heq].
        apply bool_decide_eq_true_1 in Heq. subst m. apply IH.
      * rewrite IH. cbn [fmap list_fmap fst snd]. by rewrite <- app_assoc.
    + apply IH.
Qed.

(** The walk after [before]: the metadata of the last resolved frame
    and the stack so far, or nothing when the walk stopped inside. *)
Fixpoint after (before : list lua_Debug) (lastMethod : ptr)
  (stack : list stackinfo) : option (ptr * list stackinfo) :=
  match before with
  | [] => Some (lastMethod, stack)
  | f :: outer =>
      if negb (infoOk f) then None
      else match methodLookup !! func f with
           | None => after outer lastMethod stack
           | Some m =>
               if iscfunction f && bool_decide (lastMethod = m)
               then after outer lastMethod stack
               else after outer m (stack ++ [record f m])
           end
  end.

Lemma walk_app before : forall rest lastMethod stack,
  walk (before ++ rest) lastMethod stack =
    match after before lastMethod stack with
    | Some (m, st) => walk rest m st
    | None => walk before lastMethod stack
    end.
Proof.
  induction before as [|f outer IH]; intros rest lastMethod stack.
  - reflexivity.
  - cbn [app Traceback.walk after]. destruct (infoOk f); cbn [negb]; [|done].
    destruct (methodLookup !! func f) as [m|]; [|apply IH].
    destruct (iscfunction f && bool_decide (lastMethod = m)); apply IH.
Qed.

(** A frame that is not in the table leaves no mark on the trace. *)
Lemma walk_skips_unresolved before f rest stack lastMethod :
  infoOk f = true -> methodLookup !! func f = None ->
  walk (before ++ f :: rest) lastMethod stack
  = walk (before ++ rest) lastMethod stack.
Proof.
  intros Hok Hnone. rewrite !walk_app.
  destruct (after before lastMethod stack) as [[m st]|]; [|done].
  cbn [Traceback.walk]. by rewrite Hok, Hnone.
Qed.

(** A C frame with the metadata of the frame inside it leaves no
    mark on the trace. *)
Lemma walk_collapses_trampoline before inner outer rest m stack lastMethod :
  infoOk outer = true -> iscfunction outer = true ->
  methodLookup !! func inner = Some m ->
  methodLookup !! func outer = Some m ->
  walk (before ++ inner :: outer :: rest) lastMethod stack
  = walk (before ++ inner :: rest) lastMethod stack.
Proof.
  intros Hok Hc Hin Hout. rewrite !walk_app.
  destruct (after before lastMethod stack) as [[m0 st]|]; [|done].
  cbn [Traceback.walk]. destruct (infoOk inner); cbn [negb]; [|done].
  rewrite Hin, Hok, Hout, Hc. cbn [negb andb].
  destruct (iscfunction inner && bool_decide (m0 = m)) eqn:Ht.
  - apply andb_true_iff in Ht as [_ Heq]. rewrite Heq. done.
  - by rewrite bool_decide_eq_true_2.
Qed.

(** C7.  The trace [_getCurrentStack] captures on an empty stack is,
    innermost first, one entry per logical call: the frames it
    inspects, those not found in the method-lookup table left out and
    host trampolines (a C frame that resolves to the metadata of the
    resolved frame inside it) dropped.  In particular a frame that is
    not in the table can be taken out of the call stack without
    changing the trace, so can a trampoline, and a call stack of two
    adjacent frames with the same metadata, the outer one a C
    function, gives a trace of exactly one frame. *)
Theorem getCurrentStack_logical_calls (frames : list lua_Debug) :
  _getCurrentStack methodLookup isNative frames []
  = logicalCalls methodLookup isNative frames /\
  (forall before f rest,
      frames = before ++ f :: rest ->
      infoOk f = true -> methodLookup !! func f = None ->
      _getCurrentStack methodLookup isNative frames []
      = _getCurrentStack methodLookup isNative (before ++ rest) []) /\
  (forall before inner outer rest m,
      frames = before ++ inner :: outer :: rest ->
      infoOk outer = true -> iscfunction outer = true ->
      methodLookup !! func inner = Some m ->
      methodLookup !! func outer = Some m ->
      _getCurrentStack methodLookup isNative frames []
      = _getCurrentStack methodLookup isNative (before ++ inner :: rest) []) /\
  (forall inner outer m,
      frames = [inner; outer] ->
      infoOk inner = true -> infoOk outer = true ->
      iscfunction outer = true -> m <> NULL ->
      methodLookup !! func inner = Some m ->
      methodLookup !! func outer = Some m ->
      _getCurrentStack methodLookup isNative frames [] = [record inner m]).
Proof.
  unfold _getCurrentStack, logicalCalls. split; [apply walk_refines|].
  split; [|split].
  - intros before f rest -> Hok Hnone. by apply walk_skips_unresolved.
  - intros before inner outer rest m -> Hok Hc Hin Hout.
    by eapply walk_collapses_trampoline.
  - intros inner outer m -> Hoki Hoko Hco Hm Hin Hout.
    cbn [Traceback.walk]. rewrite Hoki, Hoko, Hin, Hout, Hco. cbn [negb].
    rewrite (bool_decide_eq_false_2 (NULL = m)) by done.
    rewrite andb_false_r. cbn [andb].
    by rewrite bool_decide_eq_true_2.
Qed.

End CaptureProofs.

(** A call stack at a trap: the script method at address 50 running in
    the Lua closure 11, the C trampoline 12 that invoked it, a frame of
    the VM's own machinery (callable 13, not in the table), and the
    native method 60 behind the C function 14. *)
Definition lookupTable : gmap ptr ptr :=
  <[11%N := 50%N]> (<[12%N := 50%N]> {[ 14%N := 60%N ]}).

Definition nativeMethods (m : ptr) : bool := bool_decide (m = 60%N).

Definition scriptFrame : lua_Debug := mkDebug true 11%N false "Main.ls" 42.
Definition trampolineFrame : lua_Debug := mkDebug true 12%N true "=[C]" (-1).
Definition internalFrame : lua_Debug := mkDebug true 13%N true "=[C]" (-1).
Definition nativeFrame : lua_Debug := mkDebug true 14%N true "=[C]" (-1).

Lemma getCurrentStack_logical_calls_witness :
  _getCurrentStack lookupTable nativeMethods [scriptFrame; trampolineFrame] []
  = [mkStackinfo "Main.ls" 42 50%N].
Proof.
  exact (proj2 (proj2 (proj2
    (getCurrentStack_logical_calls lookupTable nativeMethods
       [scriptFrame; trampolineFrame])))
    scriptFrame trampolineFrame 50%N eq_refl eq_refl eq_refl eq_refl
    ltac:(discriminate) eq_refl eq_refl).
Defined.

Example getCurrentStack_example :
  _getCurrentStack lookupTable nativeMethods
    [scriptFrame; trampolineFrame; internalFrame; nativeFrame] []
  = [mkStackinfo "Main.ls" 42 50%N; mkStackinfo "[NATIVE]" 0 60%N].
Proof. vm_compute. reflexivity. Qed.

(** Two adjacent script frames with the same metadata (a method that
    calls itself) are two logical calls, and both are recorded. *)
Example getCurrentStack_recursion :
  _getCurrentStack lookupTable nativeMethods [scriptFrame; scriptFrame] []
  = [mkStackinfo "Main.ls" 42 50%N; mkStackinfo "Main.ls" 42 50%N].
Proof. vm_compute. reflexivity. Qed.

(** *** The stored traceback and the runtime error report *)

Section ReportProofs.

Variable methodLookup : gmap ptr ptr.
Variable isNative : ptr -> bool.
Variable peek : list stackinfo -> nat -> option stackinfo.
Variable _MSC_VER : bool.

Local Abbreviation traceback := (traceback methodLookup isNative).
Local Abbreviation triggerRuntimeError :=
  (triggerRuntimeError methodLookup isNative peek _MSC_VER).
Local Abbreviation logicalCalls := (logicalCalls methodLookup isNative).
Local Abbreviation logFrame := (logFrame peek).

Lemma truncate_length n : forall s, (String.length (truncate n s) <= n)%nat.
Proof.
  induction n as [|n IH]; intros [|c s]; cbn; try lia.
  specialize (IH s). lia.
Qed.

Lemma getCurrentStack_fresh frames :
  _getCurrentStack methodLookup isNative frames [] = logicalCalls frames.
Proof. unfold _getCurrentStack. by rewrite walk_refines. Qed.

(** [traceback] always returns 0.  It replaces the stored stack by
    the logical calls of the activation records at hand, whatever was
    stored before; the stored message is the string at index 1 cut to
    2039 characters, or empty when there is no string there; nothing is
    logged. *)
Theorem traceback_stores (arg1 : option string) (frames : list lua_Debug)
  (s : State) :
  exists s',
    traceback arg1 frames s = Ok 0 s' /\
    _tracestack s' = logicalCalls frames /\
    _tracemessage s' = match arg1 with
                       | Some str => truncate 2039 (Paths.c_str str)
                       | None => ""
                       end /\
    (String.length (_tracemessage s') <= 2039)%nat /\
    log s' = log s.
Proof.
  eexists. split.
  - unfold Traceback.traceback. unfold bind at 1. cbn [modify].
    unfold bind at 1.
    replace (match arg1 with
             | Some str => modify (set_tracemessage (truncate 2039 (Paths.c_str str)))
             | None => modify (set_tracemessage "")
             end (set_tracestack [] s))
      with (Ok (S:=State) tt
              (set_tracemessage
                 match arg1 with
                 | Some str => truncate 2039 (Paths.c_str str)
                 | None => ""
                 end (set_tracestack [] s)))
      by (by destruct arg1).
    unfold bind at 1. cbn [modify]. unfold ret.
    cbn [_tracestack set_tracestack set_tracemessage].
    rewrite getCurrentStack_fresh. reflexivity.
  - cbn [_tracestack _tracemessage log set_tracestack set_tracemessage].
    repeat split. destruct arg1; [apply truncate_length|cbn; lia].
Qed.

(** A computation that does not return. *)
Definition stops {A} (c : M State A) : Prop :=
  forall s, exists f s', c s = Fail f s'.

Lemma stops_bind {A B} (c : M State A) (k : A -> M State B) :
  (forall a, stops (k a)) -> stops (bind c k).
Proof.
  intros Hk s. unfold bind. destruct (c s) as [a s1|f s1]; [apply Hk|eauto].
Qed.

Lemma stops_LSError {A} msg : stops (LSError (A:=A) msg).
Proof. intros s. by eexists _, _. Qed.

(** The line of the report for a stored frame. *)
Definition frameEntry (si : stackinfo) : entry :=
  LSLogFrame (methodBase si) (si_source si) (linenumber si).

(** [peek(offs)] is the element [offs] below the top of the stack, the
    top being the last element pushed. *)
Definition peeksFromTop : Prop :=
  forall (st : list stackinfo) (offs : nat),
    (offs < length st)%nat -> peek st offs = st !! (length st - 1 - offs)%nat.

Lemma forEach_logFrame n : forall i s,
  peeksFromTop -> (i + n = length (_tracestack s))%nat ->
  forEach logFrame (seq i n) s
  = Ok tt (set_log (log s ++ (frameEntry <$> take n (drop i (_tracestack s)))) s).
Proof.
  induction n as [|n IH]; intros i s Hpeek Hlen.
  - destruct s. cbn. by rewrite app_nil_r.
  - cbn [seq forEach]. unfold bind at 1.
    assert (Hi : (i < length (_tracestack s))%nat) by lia.
    destruct (lookup_lt_is_Some_2 _ _ Hi) as [si Hsi].
    assert (Hstep : logFrame i s = Ok tt (set_log (log s ++ [frameEntry si]) s)).
    { unfold Traceback.logFrame, bind, get. rewrite Hpeek by lia.
      replace (length (_tracestack s) - 1 - (length (_tracestack s) - i - 1))%nat
        with i by lia.
      by rewrite Hsi. }
    rewrite Hstep, IH; [|done|cbn [_tracestack set_log]; lia].
    cbn [_tracestack log set_log].
    rewrite (drop_S _ _ _ Hsi). cbn [take fmap list_fmap].
    destruct s. cbn. by rewrite <- app_assoc.
Qed.

(** The stack the report prints: the stored one, or the one captured
    on the spot when none is stored. *)
Definition reported (frames : list lua_Debug) (s : State) : list stackinfo :=
  match _tracestack s with
  | [] => logicalCalls frames
  | _ :: _ => _tracestack s
  end.

Definition banner : list entry :=
  [LSLog "====================="; LSLog "=   RUNTIME ERROR   =";
   LSLog ("=====================" +:+ "
");
   CallAllocVerifyAll; CallDumpLuaStack].

Definition fatalRuntimeError : string := "
Fatal Runtime Error

".

Lemma truncate_fits n : forall s, (String.length s <= n)%nat -> truncate n s = s.
Proof.
  induction n as [|n IH]; intros [|c s] Hlen; cbn in *; try done; try lia.
  rewrite IH; [done|lia].
Qed.

Lemma formatMessage_fits formatted s :
  _MSC_VER = false \/ (String.length (Paths.c_str formatted) <= 2045)%nat ->
  formatMessage _MSC_VER formatted s = Ok (truncate 2045 (Paths.c_str formatted)) s.
Proof.
  intros Hfit. unfold formatMessage. destruct _MSC_VER.
  - destruct Hfit as [?|Hfit]; [done|].
    rewrite bool_decide_eq_true_2 by done. by rewrite truncate_fits.
  - reflexivity.
Qed.

Lemma report_emit_then {A} e (k : M State A) s :
  (emit e ;; k) s = k (set_log (log s ++ [e]) s).
Proof. reflexivity. Qed.

Ltac norm :=
  unfold set_log, set_tracestack, set_tracemessage;
  cbn [log _tracestack _tracemessage].

(** [triggerRuntimeError] never returns.  With a [peek] that counts
    from the top of the stack and a message that fits the buffer (or
    [vsnprintf], which cuts it), it stops with the fatal runtime error
    after it logged, in this order: the banner, the message cut to
    2045 characters, the stored trace message when there is one, and
    one line per frame of the stack it reports, the innermost call
    first.  The stack it reports is the stored one whenever one is
    stored, whatever the VM is running now, and the one captured on the
    spot otherwise; the stored trace message is emptied, the stack is
    not. *)
Theorem triggerRuntimeError_report (formatted : string)
  (frames : list lua_Debug) (s : State) :
  (exists f s', triggerRuntimeError formatted frames s = Fail f s') /\
  (peeksFromTop ->
   _MSC_VER = false \/ (String.length (Paths.c_str formatted) <= 2045)%nat ->
   exists s',
     triggerRuntimeError formatted frames s = Fail (FatalError fatalRuntimeError) s' /\
     _tracemessage s' = "" /\
     _tracestack s' = reported frames s /\
     log s' = log s ++ banner
                ++ [LSLog (truncate 2045 (Paths.c_str formatted))]
                ++ (if bool_decide (Paths.c_str (_tracemessage s) = "") then []
                    else [LSLog (Paths.c_str (_tracemessage s) +:+ "
")])
                ++ [LSLog "Stacktrace:"]
                ++ (frameEntry <$> reported frames s)).
Proof.
  split.
  - unfold Traceback.triggerRuntimeError.
    repeat (apply stops_bind; intros ?). apply stops_LSError.
  - intros Hpeek Hfit. destruct s as [st msg lg].
    eexists. split.
    unfold Traceback.triggerRuntimeError.
    do 5 (rewrite report_emit_then; norm).
    unfold bind at 1. rewrite formatMessage_fits by done.
    rewrite report_emit_then; norm.
    unfold bind at 1, get at 1. cbn [_tracemessage]. unfold bind at 1.
    set (said := if bool_decide (Paths.c_str msg = "") then []
                 else [LSLog (Paths.c_str msg +:+ "
")]).
    match goal with
    | |- context [(if bool_decide (Paths.c_str msg = "") then ret tt else ?e) ?s0] =>
        replace ((if bool_decide (Paths.c_str msg = "") then ret tt else e) s0)
          with (Ok (S:=State) tt (set_log (log s0 ++ said) s0))
          by (unfold said; destruct (bool_decide (Paths.c_str msg = ""));
              cbn; by rewrite ?app_nil_r)
    end.
    norm.
    unfold bind at 1. cbn [modify]; norm.
    unfold bind at 1, get at 1. cbn [_tracestack]. unfold bind at 1.
    set (rep := reported frames (mkState st msg lg)).
    match goal with
    | |- context [(if bool_decide (length st = 0%nat) then ?m else ret tt) ?s0] =>
        replace ((if bool_decide (length st = 0%nat) then m else ret tt) s0)
          with (Ok (S:=State) tt (set_tracestack rep s0))
          by (unfold rep, reported; destruct st;
              cbn [length _tracestack modify set_tracestack];
              [rewrite bool_decide_eq_true_2 by done; cbn [modify];
               by rewrite getCurrentStack_fresh
              |by rewrite bool_decide_eq_false_2 by done])
    end.
    norm.
    rewrite report_emit_then; norm.
    unfold bind at 1, get at 1. cbn [_tracestack]. unfold bind at 1.
    rewrite forEach_logFrame by (done || (cbn [_tracestack]; lia)).
    norm.
    rewrite drop_0, firstn_all. reflexivity.
    cbn [log _tracestack _tracemessage]. repeat split.
    unfold banner. by rewrite <- !app_assoc.
Qed.

End ReportProofs.

(** A [peek] that counts from the top, the last element pushed. *)
Definition topPeek (st : list stackinfo) (offs : nat) : option stackinfo :=
  st !! (length st - 1 - offs)%nat.

(** A traceback is stored while the script frame runs under its
    trampoline; the error is triggered later, from native code. *)
Definition stored : State :=
  mkState [mkStackinfo "Main.ls" 42 50%N] "attempt to index a nil value" [].

Lemma triggerRuntimeError_report_witness :
  exists s',
    triggerRuntimeError lookupTable nativeMethods topPeek false
      "assert failed" [nativeFrame] stored
    = Fail (FatalError fatalRuntimeError) s' /\
    _tracemessage s' = "" /\
    _tracestack s' = reported lookupTable nativeMethods [nativeFrame] stored /\
    log s' = log stored ++ banner
               ++ [LSLog (truncate 2045 (Paths.c_str "assert failed"))]
               ++ (if bool_decide (Paths.c_str (_tracemessage stored) = "") then []
                   else [LSLog (Paths.c_str (_tracemessage stored) +:+ "
")])
               ++ [LSLog "Stacktrace:"]
               ++ (frameEntry <$> reported lookupTable nativeMethods [nativeFrame] stored).
Proof.
  apply (proj2 (triggerRuntimeError_report lookupTable nativeMethods topPeek false
                  "assert failed" [nativeFrame] stored)).
  - intros st offs _. reflexivity.
  - left. reflexivity.
Defined.

(** The report prints the stored frame, not the native frame that is
    running when the error is triggered. *)
Example triggerRuntimeError_stale_stack :
  reported lookupTable nativeMethods [nativeFrame] stored
  = [mkStackinfo "Main.ls" 42 50%N] /\
  reported lookupTable nativeMethods [nativeFrame] (mkState [] "" [])
  = [mkStackinfo "[NATIVE]" 0 60%N].
Proof. split; vm_compute; reflexivity. Qed.

End TracebackProofs.

(** ** Invoking a static method *)

Module Invoke.

(** [MemberInfo], as far as [invokeStaticMethod] asks: [isMethod()]
    and, once the member is taken for a [MethodInfo], [isStatic()]. *)
Record MemberInfo : Type := mkMember {
  isMethod : bool;
  isStatic : bool
}.

(** [method->invoke(thisObject, numParameters)]. *)
Inductive event : Type :=
| EvInvoke (method thisObject : ptr) (numParameters : Z).

Section Invocation.

(** [getType(typePath)] and [type->findMember(methodName)], [NULL]
    when there is none; the members by address. *)
Variable getType : string -> ptr.
Variable findMember : ptr -> string -> ptr.
Variable memberAt : ptr -> MemberInfo.

(** The default value of [numParameters], which the header declares. *)
Variable defaultNumParameters : Z.

Definition unknownType (typePath : string) : string :=
  "LSLuaState::invokeStaticMethod unknown type: " +:+ typePath.

Definition unknownMember (typePath methodName : string) : string :=
  "LSLuaState::invokeStaticMethod unknown member: " +:+ typePath +:+ ":"
  +:+ methodName.

Definition notAMethod (typePath methodName : string) : string :=
  "LSLuaState::invokeStaticMethod member: " +:+ typePath +:+ ":" +:+ methodName
  +:+ " is not a method".

Definition notStatic (typePath methodName : string) : string :=
  "LSLuaState::invokeStaticMethod member: " +:+ typePath +:+ ":" +:+ methodName
  +:+ " is not a static method".

(** [LSLuaState::invokeStaticMethod(typePath, methodName,
    numParameters)]; the state is the list of invocations made. *)
Definition invokeStaticMethod (typePath methodName : string) (numParameters : Z)
  : M (list event) unit :=
  let type := getType typePath in
  lmAssert (negb (bool_decide (type = NULL))) (unknownType typePath) ;;
  let member := findMember type methodName in
  lmAssert (negb (bool_decide (member = NULL))) (unknownMember typePath methodName) ;;
  (if negb (isMethod (memberAt member))
   then lmAssert false (notAMethod typePath methodName)
   else ret tt) ;;
  let method := member in
  lmAssert (isStatic (memberAt method)) (notStatic typePath methodName) ;;
  modify (fun invoked => invoked ++ [EvInvoke method NULL numParameters]).

(** [LSLuaState::tick()]. *)
Definition tick : M (list event) unit :=
  invokeStaticMethod "system.VM" "_tick" defaultNumParameters.

(** The static method [methodName] of the type [typePath], if the
    type is known and has one. *)
Definition staticMethod (typePath methodName : string) : option ptr :=
  let type := getType typePath in
  let member := findMember type methodName in
  if bool_decide (type = NULL) then None
  else if bool_decide (member = NULL) then None
  else if isMethod (memberAt member) && isStatic (memberAt member) then Some member
  else None.

End Invocation.

End Invoke.

Module InvokeProofs.
Import Invoke.

Section InvocationProofs.

Variable getType : string -> ptr.
Variable findMember : ptr -> string -> ptr.
Variable memberAt : ptr -> MemberInfo.
Variable defaultNumParameters : Z.

Local Abbreviation invokeStaticMethod := (invokeStaticMethod getType findMember memberAt).
Local Abbreviation staticMethod := (staticMethod getType findMember memberAt).

(** The method is invoked, once, without a receiver and with the
    number of parameters given, exactly when the type is known, has a
    member of that name, and the member is a static method.  In every
    other case nothing is invoked and the call stops with a fatal
    error: unknown type, then unknown member, then not a method, then
    not static, in this order.  [tick] invokes the static method
    [_tick] of [system.VM]. *)
Theorem invokeStaticMethod_outcome (typePath methodName : string)
  (numParameters : Z) (invoked : list event) :
  (forall method, staticMethod typePath methodName = Some method ->
     invokeStaticMethod typePath methodName numParameters invoked
     = Ok tt (invoked ++ [EvInvoke method NULL numParameters])) /\
  (staticMethod typePath methodName = None ->
     exists msg,
       invokeStaticMethod typePath methodName numParameters invoked
       = Fail (FatalError msg) invoked /\
       msg = (let type := getType typePath in
              let member := findMember type methodName in
              if bool_decide (type = NULL) then unknownType typePath
              else if bool_decide (member = NULL)
                   then unknownMember typePath methodName
              else if negb (isMethod (memberAt member))
                   then notAMethod typePath methodName
              else notStatic typePath methodName)) /\
  (forall method, staticMethod "system.VM" "_tick" = Some method ->
     tick getType findMember memberAt defaultNumParameters invoked
     = Ok tt (invoked ++ [EvInvoke method NULL defaultNumParameters])).
Proof.
  assert (Hok : forall path name n method,
             staticMethod path name = Some method ->
             invokeStaticMethod path name n invoked
             = Ok tt (invoked ++ [EvInvoke method NULL n])).
  { intros path name n method Hm.
    unfold Invoke.staticMethod, Invoke.invokeStaticMethod in *. cbv zeta in *.
    destruct (bool_decide (getType path = NULL)); [discriminate|].
    destruct (bool_decide (findMember (getType path) name = NULL)); [discriminate|].
    destruct (isMethod (memberAt _)); [|discriminate].
    destruct (isStatic (memberAt _)) eqn:Hs; [|discriminate].
    injection Hm as <-. reflexivity. }
  split; [apply Hok|]. split; [|apply Hok].
  unfold Invoke.staticMethod, Invoke.invokeStaticMethod. cbv zeta.
  set (type := getType typePath). set (member := findMember type methodName).
  intros Hnone.
  destruct (bool_decide (type = NULL)); [by eexists|].
  destruct (bool_decide (member = NULL)); [by eexists|].
  destruct (isMethod (memberAt member)); [|by eexists].
  destruct (isStatic (memberAt member)) eqn:Hs; [discriminate|].
  by eexists.
Qed.

End InvocationProofs.

(** A VM type at address 3 with the static method [_tick] at address
    31 and the instance method [update] at address 32. *)
Definition vmType (typePath : string) : ptr :=
  if bool_decide (typePath = "system.VM") then 3%N else NULL.

Definition vmMember (type : ptr) (name : string) : ptr :=
  if bool_decide (name = "_tick") then 31%N
  else if bool_decide (name = "update") then 32%N
  else NULL.

Definition vmMemberAt (member : ptr) : MemberInfo :=
  mkMember true (bool_decide (member = 31%N)).

Lemma invokeStaticMethod_outcome_witness :
  tick vmType vmMember vmMemberAt 0 [] = Ok tt [EvInvoke 31%N NULL 0] /\
  exists msg,
    invokeStaticMethod vmType vmMember vmMemberAt "system.VM" "update" 1 []
    = Fail (FatalError msg) [] /\
    msg = notStatic "system.VM" "update".
Proof.
  split.
  - apply (proj2 (proj2 (invokeStaticMethod_outcome vmType vmMember vmMemberAt 0
                           "system.VM" "_tick" 0 []))).
    reflexivity.
  - apply (proj1 (proj2 (invokeStaticMethod_outcome vmType vmMember vmMemberAt 0
                           "system.VM" "update" 1 []))).
    reflexivity.
Defined.

End InvokeProofs.

(** ** The command line *)

Module CommandLine.

(** One turn of the loop of [initCommandLine(argc, argv)]:
    [commandLine.push_back(argv[i])]. *)
Definition pushArgument (argv : list string) (i : nat) : M (list string) unit :=
  match argv !! i with
  | Some arg => modify (fun commandLine => commandLine ++ [arg])
  | None => raise (Undefined "argv read past its end")
  end.

(** [LSLuaState::initCommandLine(argc, argv)]; the state is the static
    [commandLine]. *)
Definition initCommandLine (argc : Z) (argv : list string) : M (list string) unit :=
  forEach (pushArgument argv) (seq 0 (Z.to_nat argc)).

(** [LSLuaState::initCommandLine(args)]. *)
Definition initCommandLineArgs (args : list string) : M (list string) unit :=
  put args.

End CommandLine.

Module CommandLineProofs.
Import CommandLine.

Lemma forEach_pushArgument argv n : forall i commandLine,
  (i + n <= length argv)%nat ->
  forEach (pushArgument argv) (seq i n) commandLine
  = Ok tt (commandLine ++ take n (drop i argv)).
Proof.
  induction n as [|n IH]; intros i commandLine Hlen.
  - cbn. by rewrite app_nil_r.
  - cbn [seq forEach].
    assert (Hi : (i < length argv)%nat) by lia.
    destruct (lookup_lt_is_Some_2 _ _ Hi) as [arg Harg].
    unfold bind at 1, pushArgument at 1. rewrite Harg. cbn [modify].
    rewrite IH by lia. rewrite (drop_S _ _ _ Harg). cbn [take].
    by rewrite <- app_assoc.
Qed.

(** [initCommandLine(argc, argv)] appends the first [argc] arguments
    to the command line that is stored already, and nothing when
    [argc] is not positive: it does not start from an empty command
    line, so a second call stores the arguments a second time.
    [initCommandLine(args)] replaces what is stored. *)
Theorem initCommandLine_appends (argc : Z) (argv args commandLine : list string) :
  argc <= Z.of_nat (length argv) ->
  initCommandLine argc argv commandLine
  = Ok tt (commandLine ++ take (Z.to_nat argc) argv) /\
  (initCommandLine argc argv ;; initCommandLine argc argv) commandLine
  = Ok tt (commandLine ++ take (Z.to_nat argc) argv ++ take (Z.to_nat argc) argv) /\
  (initCommandLineArgs args ;; initCommandLine argc argv) commandLine
  = Ok tt (args ++ take (Z.to_nat argc) argv) /\
  (initCommandLine argc argv ;; initCommandLineArgs args) commandLine = Ok tt args.
Proof.
  intros Hargc.
  assert (Hrun : forall l, initCommandLine argc argv l
                           = Ok tt (l ++ take (Z.to_nat argc) argv)).
  { intros l. unfold initCommandLine. rewrite forEach_pushArgument by (cbn; lia).
    by rewrite drop_0. }
  split; [apply Hrun|]. unfold bind. rewrite !Hrun. cbn.
  by rewrite Hrun, <- app_assoc.
Qed.

Lemma initCommandLine_appends_witness :
  initCommandLine 2 ["loom"; "run"; "x"] ["old"] = Ok tt ["old"; "loom"; "run"].
Proof.
  apply (initCommandLine_appends 2 ["loom"; "run"; "x"] [] ["old"]).
  vm_compute. discriminate.
Defined.

End CommandLineProofs.

(** ** Dumping the Lua stack *)

Module LuaDump.

(** The types of Lua values, and the names [lua_typename] gives
    them. *)
Inductive lua_Type : Type :=
| LUA_TNONE | LUA_TNIL | LUA_TBOOLEAN | LUA_TLIGHTUSERDATA | LUA_TNUMBER
| LUA_TSTRING | LUA_TTABLE | LUA_TFUNCTION | LUA_TUSERDATA | LUA_TTHREAD.

Definition lua_typename (t : lua_Type) : string :=
  match t with
  | LUA_TNONE => "no value"
  | LUA_TNIL => "nil"
  | LUA_TBOOLEAN => "boolean"
  | LUA_TLIGHTUSERDATA => "userdata"
  | LUA_TNUMBER => "number"
  | LUA_TSTRING => "string"
  | LUA_TTABLE => "table"
  | LUA_TFUNCTION => "function"
  | LUA_TUSERDATA => "userdata"
  | LUA_TTHREAD => "thread"
  end.

(** What [lmLog] is given by the two dump functions: the total, the
    line of a stack slot that holds a table, the line of any other
    slot, and a line of text. *)
Inductive entry : Type :=
| LogTotal (top : Z)
| LogTableSlot (i : Z)
| LogSlot (i : Z) (text : string)
| LogLine (text : string).

(** The double quote. *)
Definition quote : string := String (Ascii.ascii_of_nat 34) EmptyString.

Section Values.

(** [lua_Number], and its rendering with the format [%.0f]. *)
Variable lua_Number : Type.
Context `{EqDecision lua_Number}.
Variable formatNumber : lua_Number -> string.

(** The text [getLuaValue] formats from what [lua_getinfo] tells of a
    function. *)
Variable describeFunction : ptr -> string.

(** The default value of the parameter [level] of [dumpLuaTable],
    which the header declares. *)
Variable defaultLevel : Z.

(** Lua values; tables and functions are references. *)
Inductive TValue : Type :=
| TNil
| TBoolean (b : bool)
| TLightUserdata (p : ptr)
| TNumber (n : lua_Number)
| TString (s : string)
| TTable (t : ptr)
| TFunction (f : ptr)
| TUserdata (p : ptr)
| TThread (p : ptr).

#[global] Instance TValue_eq_dec : EqDecision TValue.
Proof. solve_decision. Defined.

Definition typeOf (v : TValue) : lua_Type :=
  match v with
  | TNil => LUA_TNIL
  | TBoolean _ => LUA_TBOOLEAN
  | TLightUserdata _ => LUA_TLIGHTUSERDATA
  | TNumber _ => LUA_TNUMBER
  | TString _ => LUA_TSTRING
  | TTable _ => LUA_TTABLE
  | TFunction _ => LUA_TFUNCTION
  | TUserdata _ => LUA_TUSERDATA
  | TThread _ => LUA_TTHREAD
  end.

(** The part of a [lua_State] the dump functions work on: the stack of
    the running function, bottom first; the tables, each the sequence
    of its pairs in the order [lua_next] goes through them; and the
    log. *)
Record lua_State : Type := mkLua {
  stack : list TValue;
  tables : gmap ptr (list (TValue * TValue));
  log : list entry
}.

Definition set_stack (v : list TValue) (s : lua_State) : lua_State :=
  mkLua v (tables s) (log s).
Definition set_log (v : list entry) (s : lua_State) : lua_State :=
  mkLua (stack s) (tables s) v.

Definition lmLog (e : entry) : M lua_State unit :=
  modify (fun s => set_log (log s ++ [e]) s).

(** *** The Lua API, as the reference manual has it *)

(** The stack position an index stands for: positive indices count
    from the bottom, negative ones from the top. *)
Definition slot (st : list TValue) (index : Z) : option nat :=
  if (0 <? index) && (index <=? Z.of_nat (length st))
  then Some (Z.to_nat (index - 1))
  else if (index <? 0) && (- index <=? Z.of_nat (length st))
       then Some (Z.to_nat (Z.of_nat (length st) + index))
       else None.

Definition valueAt (st : list TValue) (index : Z) : option TValue :=
  i ← slot st index; st !! i.

Definition lua_gettop : M lua_State Z :=
  s <- get ;; ret (Z.of_nat (length (stack s))).

Definition lua_type (index : Z) : M lua_State lua_Type :=
  s <- get ;;
  ret (match valueAt (stack s) index with
       | Some v => typeOf v
       | None => LUA_TNONE
       end).

Definition push (v : TValue) : M lua_State unit :=
  modify (fun s => set_stack (stack s ++ [v]) s).

Definition lua_pushnil : M lua_State unit := push TNil.

Definition lua_pushvalue (index : Z) : M lua_State unit :=
  s <- get ;;
  match valueAt (stack s) index with
  | Some v => push v
  | None => raise (Undefined "lua_pushvalue: the index is not valid")
  end.

Definition lua_pop (n : nat) : M lua_State unit :=
  s <- get ;;
  if decide (n <= length (stack s))%nat
  then put (set_stack (take (length (stack s) - n) (stack s)) s)
  else raise (Undefined "lua_pop: the stack underflows").

(** The position of the pair that follows the key [k] in a table: the
    first one for [nil]. *)
Fixpoint following (k : TValue) (pairs : list (TValue * TValue)) : option nat :=
  match pairs with
  | [] => None
  | (k', _) :: rest => if decide (k' = k) then Some 1%nat else S <$> following k rest
  end.

(** [lua_next(L, index)]: pops a key and pushes the pair that follows
    it in the table at [index], or nothing when there is none; the
    value is what the function returns. *)
Definition lua_next (index : Z) : M lua_State Z :=
  s <- get ;;
  match valueAt (stack s) index, last (stack s) with
  | Some (TTable t), Some k =>
      match tables s !! t with
      | None => raise (Undefined "lua_next: the table is not allocated")
      | Some pairs =>
          lua_pop 1 ;;
          match (if decide (k = TNil) then Some 0%nat else following k pairs) with
          | None => raise (FatalError "invalid key to 'next'")
          | Some pos =>
              match pairs !! pos with
              | Some (k', v') => push k' ;; push v' ;; ret 1
              | None => ret 0
              end
          end
      end
  | _, _ => raise (Undefined "lua_next: not a table, or no key")
  end.

(** [lua_tostring], [lua_tonumber] and [lua_toboolean] on a value of
    the type they are named after. *)
Definition lua_tostring (index : Z) : M lua_State string :=
  s <- get ;;
  match valueAt (stack s) index with
  | Some (TString str) => ret str
  | _ => raise (Undefined "lua_tostring: not a string")
  end.

Definition lua_tonumber (index : Z) : M lua_State lua_Number :=
  s <- get ;;
  match valueAt (stack s) index with
  | Some (TNumber n) => ret n
  | _ => raise (Undefined "lua_tonumber: not a number")
  end.

Definition lua_toboolean (index : Z) : M lua_State bool :=
  s <- get ;;
  match valueAt (stack s) index with
  | Some (TBoolean b) => ret b
  | _ => raise (Undefined "lua_toboolean: not a boolean")
  end.

(** [lua_getinfo(L, ">Snlu", &info)]: pops the function on top of the
    stack; the value is the function [info] tells of. *)
Definition lua_getinfo : M lua_State ptr :=
  s <- get ;;
  match last (stack s) with
  | Some (TFunction f) => lua_pop 1 ;; ret f
  | _ => raise (Undefined "lua_getinfo: no function on top of the stack")
  end.

(** *** The dump functions *)

(** [getLuaValue(L, index)]. *)
Definition getLuaValue (index : Z) : M lua_State string :=
  t <- lua_type index ;;
  match t with
  | LUA_TSTRING =>
      str <- lua_tostring index ;; ret (quote +:+ Paths.c_str str +:+ quote)
  | LUA_TNUMBER =>
      n <- lua_tonumber index ;; ret (formatNumber n)
  | LUA_TBOOLEAN =>
      b <- lua_toboolean index ;; ret (if b then "true" else "false")
  | LUA_TFUNCTION =>
      lua_pushvalue index ;;
      f <- lua_getinfo ;;
      ret (describeFunction f)
  | _ => ret (lua_typename t)
  end.

(** [for (int i = 0; i < level + 1; i++) indent = indent + "    "]. *)
Definition indentOf (level : Z) : string :=
  Nat.iter (Z.to_nat (level + 1)) (fun indent => indent +:+ "    ") "".

(** [while (lua_next(L, -2) != 0) body]; one unit of fuel per turn. *)
Fixpoint whileNext (fuel : nat) (body : M lua_State unit) : M lua_State unit :=
  match fuel with
  | O => raise OutOfFuel
  | S fuel' =>
      more <- lua_next (-2) ;;
      if more =? 0 then ret tt else body ;; whileNext fuel' body
  end.

(** [LSLuaState::dumpLuaTable(L, index, levels, level)]; one unit of
    fuel per nested call. *)
Fixpoint dumpLuaTable (fuel : nat) (index levels level : Z) : M lua_State unit :=
  match fuel with
  | O => raise OutOfFuel
  | S fuel' =>
      if levels <=? level then ret tt
      else
        lua_pushvalue index ;;
        lua_pushnil ;;
        let keyIndex := -2 in
        let valueIndex := -1 in
        let indent := indentOf level in
        whileNext fuel'
          (key <- getLuaValue keyIndex ;;
           value <- getLuaValue valueIndex ;;
           valueType <- lua_type valueIndex ;;
           lmLog (LogLine (indent +:+ key +:+ ": " +:+ value)) ;;
           (match valueType with
            | LUA_TTABLE => dumpLuaTable fuel' valueIndex levels (level + 1)
            | _ => ret tt
            end) ;;
           lua_pop 1) ;;
        lua_pop 1
  end.

(** One turn of the loop of [dumpLuaStack(L)]. *)
Definition dumpSlot (fuel : nat) (i : Z) : M lua_State unit :=
  t <- lua_type i ;;
  match t with
  | LUA_TTABLE =>
      lmLog (LogTableSlot i) ;;
      dumpLuaTable fuel i 0 defaultLevel
  | _ =>
      text <- getLuaValue i ;;
      lmLog (LogSlot i text)
  end.

(** [LSLuaState::dumpLuaStack(L)]. *)
Definition dumpLuaStack (fuel : nat) : M lua_State unit :=
  top <- lua_gettop ;;
  lmLog (LogTotal top) ;;
  forEach (dumpSlot fuel) (Z.of_nat <$> seq 1 (Z.to_nat top)) ;;
  lmLog (LogLine "").

End Values.

End LuaDump.

Module LuaDumpProofs.
Import LuaDump.

Section DumpProofs.

Variable lua_Number : Type.
Context `{EqDecision lua_Number}.
Variable formatNumber : lua_Number -> string.
Variable describeFunction : ptr -> string.
Variable defaultLevel : Z.

Local Abbreviation TValue := (TValue lua_Number).
Local Abbreviation lua_State := (lua_State lua_Number).
Local Abbreviation getLuaValue := (getLuaValue lua_Number formatNumber describeFunction).
Local Abbreviation dumpLuaTable :=
  (dumpLuaTable lua_Number formatNumber describeFunction).
Local Abbreviation dumpLuaStack :=
  (dumpLuaStack lua_Number formatNumber describeFunction defaultLevel).
Local Abbreviation dumpSlot :=
  (dumpSlot lua_Number formatNumber describeFunction defaultLevel).

(** The text [getLuaValue] gives for a value. *)
Definition render (v : TValue) : string :=
  match v with
  | TString _ str => quote +:+ Paths.c_str str +:+ quote
  | TNumber _ n => formatNumber n
  | TBoolean _ b => if b then "true" else "false"
  | TFunction _ f => describeFunction f
  | v => lua_typename (typeOf lua_Number v)
  end.

Lemma set_stack_same (s : lua_State) : set_stack lua_Number (stack lua_Number s) s = s.
Proof. by destruct s. Qed.

Lemma valueAt_negative (st : list TValue) (k : nat) :
  (0 < k <= length st)%nat ->
  valueAt lua_Number st (- Z.of_nat k) = st !! (length st - k)%nat.
Proof.
  intros Hk. unfold valueAt, slot.
  replace (0 <? - Z.of_nat k) with false by (symmetry; apply Z.ltb_ge; lia).
  cbn [andb].
  replace (- Z.of_nat k <? 0) with true by (symmetry; apply Z.ltb_lt; lia).
  replace (- - Z.of_nat k <=? Z.of_nat (length st)) with true
    by (symmetry; apply Z.leb_le; lia).
  cbn. f_equal. lia.
Qed.

Lemma valueAt_top (st : list TValue) v : valueAt lua_Number (st ++ [v]) (-1) = Some v.
Proof.
  rewrite (valueAt_negative _ 1) by (rewrite length_app; cbn; lia).
  rewrite length_app. cbn [length].
  replace (length st + 1 - 1)%nat with (length st + 0)%nat by lia.
  by rewrite lookup_app_r, Nat.add_0_r, Nat.sub_diag by lia.
Qed.

Lemma valueAt_below (st : list TValue) v w :
  valueAt lua_Number (st ++ [v; w]) (-2) = Some v.
Proof.
  rewrite (valueAt_negative _ 2) by (rewrite length_app; cbn; lia).
  rewrite length_app. cbn [length].
  replace (length st + 2 - 2)%nat with (length st) by lia.
  by rewrite lookup_app_r, Nat.sub_diag by lia.
Qed.

Lemma valueAt_inside (st rest : list TValue) index v :
  valueAt lua_Number st index = Some v -> 0 < index ->
  valueAt lua_Number (st ++ rest) index = Some v.
Proof.
  unfold valueAt, slot. intros Hv Hpos.
  replace (0 <? index) with true in * by (symmetry; apply Z.ltb_lt; lia).
  cbn [andb] in *.
  destruct (index <=? Z.of_nat (length st)) eqn:Hle.
  - apply Z.leb_le in Hle.
    replace (index <=? Z.of_nat (length (st ++ rest))) with true
      by (symmetry; apply Z.leb_le; rewrite length_app; lia).
    cbn in *. rewrite lookup_app_l by lia. exact Hv.
  - replace (index <? 0) with false in Hv by (symmetry; apply Z.ltb_ge; lia).
    discriminate.
Qed.

Lemma push_run v (s : lua_State) :
  push lua_Number v s = Ok tt (set_stack lua_Number (stack lua_Number s ++ [v]) s).
Proof. reflexivity. Qed.

Lemma lua_pop_one (st : list TValue) v (s : lua_State) :
  stack lua_Number s = st ++ [v] ->
  lua_pop lua_Number 1 s = Ok tt (set_stack lua_Number st s).
Proof.
  intros Hst. unfold lua_pop, bind, get. rewrite Hst, length_app. cbn [length].
  rewrite decide_True by lia. unfold put. f_equal. f_equal.
  replace (length st + 1 - 1)%nat with (length st) by lia.
  by rewrite take_app_length.
Qed.

Lemma lua_type_run (s : lua_State) index v :
  valueAt lua_Number (stack lua_Number s) index = Some v ->
  lua_type lua_Number index s = Ok (typeOf lua_Number v) s.
Proof. intros Hv. unfold lua_type, bind, get, ret. by rewrite Hv. Qed.

(** [getLuaValue] on a valid index gives the text of the value there
    and leaves the state as it was. *)
Lemma getLuaValue_render (s : lua_State) index v :
  valueAt lua_Number (stack lua_Number s) index = Some v ->
  getLuaValue index s = Ok (render v) s.
Proof.
  intros Hv. unfold LuaDump.getLuaValue.
  rewrite (bind_Ok _ _ _ _ _ (lua_type_run s index v Hv)).
  destruct v; cbn [typeOf render];
    try (unfold lua_tostring, lua_tonumber, lua_toboolean, bind, get, ret;
         rewrite ?Hv; reflexivity).
  unfold bind at 1, lua_pushvalue. unfold bind at 1, get at 1. rewrite Hv.
  rewrite push_run. unfold bind at 1, lua_getinfo. unfold bind at 1, get at 1.
  cbn [stack set_stack]. rewrite last_snoc.
  unfold bind at 1.
  rewrite (lua_pop_one (stack lua_Number s) (TFunction lua_Number f)) by reflexivity.
  unfold ret. destruct s. reflexivity.
Qed.

(** *** The dump of the stack *)

(** The line [dumpLuaStack] logs for the slot [i] that holds [v]. *)
Definition slotLine (i : Z) (v : TValue) : entry :=
  match v with
  | TTable _ _ => LogTableSlot i
  | _ => LogSlot i (render v)
  end.

(** The lines for the values [vs] that sit above the first [k] slots. *)
Fixpoint slotLinesFrom (k : nat) (vs : list TValue) : list entry :=
  match vs with
  | [] => []
  | v :: vs' => slotLine (Z.of_nat (S k)) v :: slotLinesFrom (S k) vs'
  end.

Lemma valueAt_positive (st : list TValue) (k : nat) :
  (k < length st)%nat -> valueAt lua_Number st (Z.of_nat (S k)) = st !! k.
Proof.
  intros Hk. unfold valueAt, slot.
  replace (0 <? Z.of_nat (S k)) with true by (symmetry; apply Z.ltb_lt; lia).
  replace (Z.of_nat (S k) <=? Z.of_nat (length st)) with true
    by (symmetry; apply Z.leb_le; lia).
  cbn. f_equal. lia.
Qed.

Lemma dumpLuaTable_no_level fuel index level (s : lua_State) :
  0 <= level -> dumpLuaTable (S fuel) index 0 level s = Ok tt s.
Proof.
  intros Hl. cbn [LuaDump.dumpLuaTable].
  by replace (0 <=? level) with true by (symmetry; apply Z.leb_le; lia).
Qed.

Lemma dumpSlot_line fuel (s : lua_State) (k : nat) v :
  0 <= defaultLevel ->
  stack lua_Number s !! k = Some v ->
  dumpSlot (S fuel) (Z.of_nat (S k)) s
  = Ok tt (set_log lua_Number (log lua_Number s ++ [slotLine (Z.of_nat (S k)) v]) s).
Proof.
  intros Hl Hk.
  assert (Hv : valueAt lua_Number (stack lua_Number s) (Z.of_nat (S k)) = Some v).
  { rewrite valueAt_positive; [done|]. by eapply lookup_lt_Some. }
  unfold LuaDump.dumpSlot. rewrite (bind_Ok _ _ _ _ _ (lua_type_run s _ v Hv)).
  destruct v; cbn [typeOf slotLine];
    try (rewrite (bind_Ok _ _ _ _ _ (getLuaValue_render s _ _ Hv)); reflexivity).
  unfold bind, lmLog, modify. by rewrite dumpLuaTable_no_level.
Qed.

Lemma forEach_dumpSlot fuel n : forall (k : nat) (s : lua_State),
  0 <= defaultLevel ->
  (k + n = length (stack lua_Number s))%nat ->
  forEach (dumpSlot (S fuel)) (Z.of_nat <$> seq (S k) n) s
  = Ok tt (set_log lua_Number
             (log lua_Number s ++ slotLinesFrom k (drop k (stack lua_Number s))) s).
Proof.
  induction n as [|n IH]; intros k s Hl Hlen.
  - rewrite drop_ge by lia. destruct s. cbn. by rewrite app_nil_r.
  - cbn [seq fmap list_fmap forEach].
    assert (Hk : (k < length (stack lua_Number s))%nat) by lia.
    destruct (lookup_lt_is_Some_2 _ _ Hk) as [v Hv].
    rewrite (bind_Ok _ _ _ _ _ (dumpSlot_line fuel s k v Hl Hv)).
    rewrite (IH (S k)); [|done|cbn [stack set_log]; lia].
    cbn [stack log set_log]. rewrite (drop_S _ _ _ Hv). cbn [slotLinesFrom].
    destruct s. cbn. by rewrite <- app_assoc.
Qed.

(** With a default [level] that is not negative, [dumpLuaStack] logs
    the total, one line per slot of the stack from the bottom up, and
    an empty line, and leaves the stack and the tables as they were;
    a slot that holds a table gets its line and nothing of what the
    table holds, for [dumpLuaTable] is called with [levels = 0]. *)
Theorem dumpLuaStack_lines (fuel : nat) (s : lua_State) :
  0 <= defaultLevel ->
  dumpLuaStack (S fuel) s
  = Ok tt (set_log lua_Number
             (log lua_Number s
                ++ [LogTotal (Z.of_nat (length (stack lua_Number s)))]
                ++ slotLinesFrom 0 (stack lua_Number s) ++ [LogLine ""]) s).
Proof.
  intros Hl. unfold LuaDump.dumpLuaStack.
  unfold bind at 1, lua_gettop. unfold bind at 1, get at 1, ret at 1.
  unfold bind at 1, lmLog at 1, modify at 1.
  rewrite Nat2Z.id. unfold bind at 1.
  rewrite (forEach_dumpSlot fuel _ 0); [|done|reflexivity].
  cbn [stack log set_log]. rewrite drop_0. unfold lmLog, modify.
  destruct s. cbn. by rewrite <- !app_assoc.
Qed.

(** *** The dump of a table *)

(** The tables are well formed: no table has [nil] for a key or a key
    twice, and a table that a table holds is allocated. *)
Definition wellFormed (tbls : gmap ptr (list (TValue * TValue))) : Prop :=
  forall t pairs, tbls !! t = Some pairs ->
    NoDup pairs.*1 /\ (TNil lua_Number ∉ pairs.*1) /\
    forall k t', (k, TTable lua_Number t') ∈ pairs -> is_Some (tbls !! t').

(** No table has more than [n] pairs. *)
Definition bounded (n : nat) (tbls : gmap ptr (list (TValue * TValue))) : Prop :=
  forall t pairs, tbls !! t = Some pairs -> (length pairs <= n)%nat.

(** The lines [dumpLuaTable] logs for the table [t] when [depth]
    levels are left: one per pair, each followed by the lines of the
    table the pair holds, if it holds one. *)
Fixpoint tableLines (depth : nat) (tbls : gmap ptr (list (TValue * TValue)))
  (level : Z) (t : ptr) : list entry :=
  match depth with
  | O => []
  | S depth' =>
      match tbls !! t with
      | None => []
      | Some pairs =>
          flat_map
            (fun kv : TValue * TValue =>
               LogLine (indentOf level +:+ render kv.1 +:+ ": " +:+ render kv.2)
               :: match kv.2 with
                  | TTable _ t' => tableLines depth' tbls (level + 1) t'
                  | _ => []
                  end)
            pairs
      end
  end.

(** The lines for one pair. *)
Definition pairLines (depth' : nat) (tbls : gmap ptr (list (TValue * TValue)))
  (level : Z) (kv : TValue * TValue) : list entry :=
  LogLine (indentOf level +:+ render kv.1 +:+ ": " +:+ render kv.2)
  :: match kv.2 with
     | TTable _ t' => tableLines depth' tbls (level + 1) t'
     | _ => []
     end.

(** Where [lua_next] goes on from the key [key]. *)
Definition position (key : TValue) (pairs : list (TValue * TValue)) : option nat :=
  if decide (key = TNil lua_Number) then Some 0%nat
  else following lua_Number key pairs.

Lemma following_app done : forall key v rest,
  key ∉ done.*1 ->
  following lua_Number key (done ++ (key, v) :: rest) = Some (S (length done)).
Proof.
  induction done as [|[k w] done IH]; intros key v rest Hnot.
  - cbn. by rewrite decide_True.
  - cbn in *. rewrite decide_False.
    + rewrite IH; [done|]. intros Hin. apply Hnot. by right.
    + intros ->. apply Hnot. by left.
Qed.

Lemma position_next done key v rest :
  NoDup (done ++ (key, v) :: rest).*1 ->
  (TNil lua_Number ∉ (done ++ (key, v) :: rest).*1) ->
  position key (done ++ (key, v) :: rest) = Some (length (done ++ [(key, v)])).
Proof.
  intros Hnd Hnil. unfold position. rewrite decide_False.
  - rewrite following_app, length_app; [cbn; f_equal; lia|].
    rewrite fmap_app, fmap_cons in Hnd. apply NoDup_app in Hnd as (_ & Hdis & _).
    intros Hin. apply (Hdis _ Hin). by left.
  - intros ->. apply Hnil. rewrite fmap_app, fmap_cons.
    apply elem_of_app. right. by left.
Qed.

Lemma lua_next_run (st : list TValue) t key tbls lg pairs pos :
  tbls !! t = Some pairs -> position key pairs = Some pos ->
  lua_next lua_Number (-2) (mkLua lua_Number (st ++ [TTable lua_Number t; key]) tbls lg)
  = match pairs !! pos with
    | Some (k, v) =>
        Ok 1 (mkLua lua_Number (st ++ [TTable lua_Number t; k; v]) tbls lg)
    | None => Ok 0 (mkLua lua_Number (st ++ [TTable lua_Number t]) tbls lg)
    end.
Proof.
  intros Ht Hpos. unfold lua_next. unfold bind at 1, get at 1.
  cbn [stack tables]. rewrite valueAt_below.
  replace (st ++ [TTable lua_Number t; key])
    with ((st ++ [TTable lua_Number t]) ++ [key]) by (by rewrite <- app_assoc).
  rewrite last_snoc, Ht. unfold bind at 1.
  rewrite (lua_pop_one (st ++ [TTable lua_Number t]) key) by reflexivity.
  fold (position key pairs). rewrite Hpos. unfold set_stack. cbn [stack tables log].
  destruct (pairs !! pos) as [[k v]|]; [|reflexivity].
  unfold bind, push, modify, ret, set_stack. cbn [stack tables log].
  by rewrite <- !app_assoc.
Qed.

(** One turn of the loop of [dumpLuaTable]. *)
Definition turn (fuel' : nat) (levels level : Z) : M lua_State unit :=
  key <- getLuaValue (-2) ;;
  value <- getLuaValue (-1) ;;
  valueType <- lua_type lua_Number (-1) ;;
  lmLog lua_Number (LogLine (indentOf level +:+ key +:+ ": " +:+ value)) ;;
  (match valueType with
   | LUA_TTABLE => dumpLuaTable fuel' (-1) levels (level + 1)
   | _ => ret tt
   end) ;;
  lua_pop lua_Number 1.

(** What the nested calls do, when [depth'] levels are left for
    them. *)
Definition nestedOk (fuel' depth' : nat) (levels level' : Z)
  (tbls : gmap ptr (list (TValue * TValue))) : Prop :=
  forall (st : list TValue) t' lg,
    is_Some (tbls !! t') ->
    dumpLuaTable fuel' (-1) levels level'
      (mkLua lua_Number (st ++ [TTable lua_Number t']) tbls lg)
    = Ok tt (mkLua lua_Number (st ++ [TTable lua_Number t']) tbls
               (lg ++ tableLines depth' tbls level' t')).

Lemma turn_run fuel' depth' levels level tbls (st : list TValue) t k v lg :
  nestedOk fuel' depth' levels (level + 1) tbls ->
  (forall t', v = TTable lua_Number t' -> is_Some (tbls !! t')) ->
  turn fuel' levels level (mkLua lua_Number (st ++ [TTable lua_Number t; k; v]) tbls lg)
  = Ok tt (mkLua lua_Number (st ++ [TTable lua_Number t; k]) tbls
             (lg ++ pairLines depth' tbls level (k, v))).
Proof.
  intros Hnested Halloc. unfold turn.
  set (s0 := mkLua lua_Number (st ++ [TTable lua_Number t; k; v]) tbls lg).
  assert (Hk : valueAt lua_Number (stack lua_Number s0) (-2) = Some k).
  { unfold s0. cbn [stack].
    replace (st ++ [TTable lua_Number t; k; v])
      with ((st ++ [TTable lua_Number t]) ++ [k; v]) by (by rewrite <- app_assoc).
    apply valueAt_below. }
  assert (Hv : valueAt lua_Number (stack lua_Number s0) (-1) = Some v).
  { unfold s0. cbn [stack].
    replace (st ++ [TTable lua_Number t; k; v])
      with ((st ++ [TTable lua_Number t; k]) ++ [v]) by (by rewrite <- app_assoc).
    apply valueAt_top. }
  rewrite (bind_Ok _ _ _ _ _ (getLuaValue_render s0 _ _ Hk)).
  rewrite (bind_Ok _ _ _ _ _ (getLuaValue_render s0 _ _ Hv)).
  rewrite (bind_Ok _ _ _ _ _ (lua_type_run s0 _ _ Hv)).
  unfold bind at 1, lmLog, modify. unfold s0, set_log. cbn [stack tables log].
  unfold pairLines. cbn [fst snd].
  set (line := LogLine _).
  assert (Hpop : forall lg',
    lua_pop lua_Number 1 (mkLua lua_Number (st ++ [TTable lua_Number t; k; v]) tbls lg')
    = Ok tt (mkLua lua_Number (st ++ [TTable lua_Number t; k]) tbls lg')).
  { intros lg'.
    rewrite (lua_pop_one (st ++ [TTable lua_Number t; k]) v)
      by (cbn [stack]; by rewrite <- app_assoc).
    reflexivity. }
  destruct v as [|b|p|num|str|t0|f|p|p]; cbn [typeOf]; unfold bind, ret;
    rewrite ?Hpop; try reflexivity.
  replace (st ++ [TTable lua_Number t; k; TTable lua_Number t0])
    with ((st ++ [TTable lua_Number t; k]) ++ [TTable lua_Number t0])
    by (by rewrite <- app_assoc).
  rewrite Hnested by (by apply Halloc).
  replace ((st ++ [TTable lua_Number t; k]) ++ [TTable lua_Number t0])
    with (st ++ [TTable lua_Number t; k; TTable lua_Number t0])
    by (by rewrite <- app_assoc).
  rewrite Hpop. by rewrite <- app_assoc.
Qed.

Lemma whileNext_run fuel' depth' levels level tbls t pairs (st : list TValue) :
  tbls !! t = Some pairs -> wellFormed tbls ->
  nestedOk fuel' depth' levels (level + 1) tbls ->
  forall rest done key lg n,
    pairs = done ++ rest ->
    position key pairs = Some (length done) ->
    (length rest < n)%nat ->
    whileNext lua_Number n (turn fuel' levels level)
      (mkLua lua_Number (st ++ [TTable lua_Number t; key]) tbls lg)
    = Ok tt (mkLua lua_Number (st ++ [TTable lua_Number t]) tbls
               (lg ++ flat_map (pairLines depth' tbls level) rest)).
Proof.
  intros Ht Hwf Hnested.
  destruct (Hwf t pairs Ht) as (Hnd & Hnil & Halloc).
  induction rest as [|[k v] rest IH]; intros done key lg n Hsplit Hpos Hn;
    (destruct n as [|n]; [lia|]); cbn [whileNext].
  - unfold bind at 1.
    rewrite (lua_next_run st t key tbls lg pairs _ Ht Hpos).
    rewrite lookup_ge_None_2 by (rewrite Hsplit, app_nil_r; lia).
    cbn. by rewrite app_nil_r.
  - unfold bind at 1.
    rewrite (lua_next_run st t key tbls lg pairs _ Ht Hpos).
    assert (Hlook : pairs !! length done = Some (k, v)).
    { rewrite Hsplit. by rewrite lookup_app_r, Nat.sub_diag by lia. }
    rewrite Hlook. cbn [Z.eqb]. unfold bind at 1.
    rewrite (turn_run fuel' depth' levels level tbls st t k v lg Hnested).
    2: { intros t' ->. apply (Halloc k). rewrite Hsplit.
         apply elem_of_app. right. by left. }
    rewrite (IH (done ++ [(k, v)]) k); [| | |cbn in Hn; lia].
    + cbn [flat_map]. by rewrite <- app_assoc.
    + by rewrite <- app_assoc.
    + rewrite Hsplit in *. by apply position_next.
Qed.

Lemma dumpLuaTable_depth n depth : forall fuel index levels level (s : lua_State) t,
  Z.to_nat (levels - level) = depth ->
  (depth + n + 1 < fuel)%nat ->
  wellFormed (tables lua_Number s) -> bounded n (tables lua_Number s) ->
  valueAt lua_Number (stack lua_Number s) index = Some (TTable lua_Number t) ->
  is_Some (tables lua_Number s !! t) ->
  dumpLuaTable fuel index levels level s
  = Ok tt (set_log lua_Number
             (log lua_Number s ++ tableLines depth (tables lua_Number s) level t) s).
Proof.
  induction depth as [|depth IH];
    intros fuel index levels level s t Hdepth Hfuel Hwf Hbound Hindex [pairs Ht];
    (destruct fuel as [|fuel]; [lia|]); cbn [LuaDump.dumpLuaTable].
  - replace (levels <=? level) with true by (symmetry; apply Z.leb_le; lia).
    destruct s. cbn. by rewrite app_nil_r.
  - replace (levels <=? level) with false by (symmetry; apply Z.leb_gt; lia).
    destruct s as [st tbls lg]. cbn [stack tables log set_log] in *.
    unfold bind at 1, lua_pushvalue. unfold bind at 1, get at 1.
    cbn [stack]. rewrite Hindex, push_run. cbn [stack set_stack tables log].
    unfold bind at 1, lua_pushnil. rewrite push_run.
    unfold set_stack. cbn [stack tables log]. rewrite <- app_assoc. cbn [app].
    fold (turn fuel levels level). unfold bind at 1.
    assert (Hnested : nestedOk fuel depth levels (level + 1) tbls).
    { intros st' t' lg' Halloc.
      rewrite (IH fuel (-1) levels (level + 1) _ t');
        [reflexivity|lia|lia|done|done| |done].
      apply valueAt_top. }
    assert (Hlen : (length pairs < fuel)%nat)
      by (specialize (Hbound t pairs Ht); lia).
    rewrite (whileNext_run fuel depth levels level tbls t pairs st Ht Hwf Hnested
               pairs [] (TNil lua_Number) lg fuel eq_refl eq_refl Hlen).
    rewrite (lua_pop_one st (TTable lua_Number t)) by reflexivity.
    unfold set_stack. cbn [stack tables log tableLines]. by rewrite Ht.
Qed.

(** On well-formed tables and with fuel for the levels and the pairs,
    [dumpLuaTable] returns with the stack and the tables as it found
    them, whatever refers to what, a table to itself included; it has
    logged the lines of [tableLines], which go [levels - level] levels
    deep and no deeper, and nothing at all when [level] is not below
    [levels]. *)
Theorem dumpLuaTable_balanced (n fuel : nat) (index levels level : Z)
  (s : lua_State) (t : ptr) :
  wellFormed (tables lua_Number s) -> bounded n (tables lua_Number s) ->
  valueAt lua_Number (stack lua_Number s) index = Some (TTable lua_Number t) ->
  is_Some (tables lua_Number s !! t) ->
  (Z.to_nat (levels - level) + n + 1 < fuel)%nat ->
  exists s',
    dumpLuaTable fuel index levels level s = Ok tt s' /\
    stack lua_Number s' = stack lua_Number s /\
    tables lua_Number s' = tables lua_Number s /\
    log lua_Number s'
    = log lua_Number s
        ++ tableLines (Z.to_nat (levels - level)) (tables lua_Number s) level t /\
    (levels <= level -> s' = s).
Proof.
  intros Hwf Hbound Hindex Halloc Hfuel. eexists. split.
  - by apply (dumpLuaTable_depth n (Z.to_nat (levels - level))).
  - repeat split. intros Hle.
    replace (Z.to_nat (levels - level)) with 0%nat by lia.
    destruct s. cbn. by rewrite app_nil_r.
Qed.

End DumpProofs.

End LuaDumpProofs.

Module LuaDumpExamples.
Import LuaDump LuaDumpProofs.

(** Numbers are integers here, and [%.0f] prints them in decimal. *)
Definition showNumber (n : Z) : string := pretty.pretty n.

Definition showFunction (f : ptr) : string := "function".

(** A table that holds itself under the key [self], and [true] under
    the key 1; it sits at the bottom of the stack, below a string. *)
Definition selfPairs : list (TValue Z * TValue Z) :=
  [(TString Z "self", TTable Z 1%N); (TNumber Z 1, TBoolean Z true)].

Definition cyclic : lua_State Z :=
  mkLua Z [TTable Z 1%N; TString Z "top"] {[ 1%N := selfPairs ]} [].

Lemma cyclic_wellFormed : wellFormed Z (tables Z cyclic).
Proof.
  intros t pairs Ht. cbn [tables cyclic] in Ht.
  apply lookup_singleton_Some in Ht as [<- <-].
  split; [|split].
  - apply (bool_decide_unpack _). vm_compute. exact I.
  - apply (bool_decide_unpack _). vm_compute. exact I.
  - intros k t' Hin. unfold selfPairs in Hin.
    apply elem_of_cons in Hin as [[= -> ->]|Hin]; [by eexists|].
    apply elem_of_cons in Hin as [[=]|Hin]. by apply elem_of_nil in Hin.
Qed.

Lemma cyclic_bounded : bounded Z 2 (tables Z cyclic).
Proof.
  intros t pairs Ht. cbn [tables cyclic] in Ht.
  by apply lookup_singleton_Some in Ht as [<- <-].
Qed.

Lemma dumpLuaTable_balanced_witness :
  exists s',
    dumpLuaTable Z showNumber showFunction 6 1 2 0 cyclic = Ok tt s' /\
    stack Z s' = stack Z cyclic /\
    tables Z s' = tables Z cyclic /\
    log Z s' = log Z cyclic
               ++ tableLines Z showNumber showFunction (Z.to_nat (2 - 0))
                    (tables Z cyclic) 0 1%N /\
    (2 <= 0 -> s' = cyclic).
Proof.
  apply (dumpLuaTable_balanced Z showNumber showFunction 2 6 1 2 0 cyclic 1%N).
  - exact cyclic_wellFormed.
  - exact cyclic_bounded.
  - reflexivity.
  - by eexists.
  - vm_compute. lia.
Defined.

(** Two levels of the table that holds itself. *)
Example dumpLuaTable_cyclic :
  tableLines Z showNumber showFunction 2 (tables Z cyclic) 0 1%N
  = [LogLine ("    " +:+ quote +:+ "self" +:+ quote +:+ ": table");
     LogLine ("        " +:+ quote +:+ "self" +:+ quote +:+ ": table");
     LogLine "        1: true";
     LogLine "    1: true"].
Proof. vm_compute. reflexivity. Qed.

Lemma dumpLuaStack_lines_witness :
  dumpLuaStack Z showNumber showFunction 0 1 cyclic
  = Ok tt (set_log Z
             (log Z cyclic ++ [LogTotal (Z.of_nat (length (stack Z cyclic)))]
                ++ slotLinesFrom Z showNumber showFunction 0 (stack Z cyclic)
                ++ [LogLine ""]) cyclic).
Proof.
  apply (dumpLuaStack_lines Z showNumber showFunction 0 0 cyclic). lia.
Defined.

(** The dump of the stack names the table and prints the string. *)
Example dumpLuaStack_cyclic :
  log Z (match dumpLuaStack Z showNumber showFunction 0 1 cyclic with
         | Ok _ s => s
         | Fail _ s => s
         end)
  = [LogTotal 2; LogTableSlot 1; LogSlot 2 (quote +:+ "top" +:+ quote); LogLine ""].
Proof. vm_compute. reflexivity. Qed.

End LuaDumpExamples.

(** ** Reflected types *)

Module Reflection.

(** [LS::Type], as far as the runtime reads and writes it.  [missing]
    holds the reason [setMissing] was given; [getMissing] tells whether
    there is one.  [members] are the [MemberInfo] objects [findMembers]
    returns, each with its name. *)
Record LSType : Type := mkType {
  getName : string;
  getFullName : string;
  getTypeID : Z;
  getBaseType : ptr;
  getImports : list ptr;
  missing : option string;
  isNative : bool;
  hasStaticNativeMember : bool;
  isNativeManaged : bool;
  getCTypeName : string;
  getModule : ptr;
  members : list (ptr * string)
}.

End Reflection.

(** ** The ordinal type cache *)

Module Cache.
Import Reflection.

(** The part of an [Assembly] that [cacheAssemblyTypes] touches:
    [ordinalTypes] is [None] while the pointer is [NULL]. *)
Record Assembly : Type := mkAssembly {
  getUniqueId : string;
  ordinalTypes : option (list ptr);
  types : gmap string ptr
}.

(** The fast access cache of [LSLuaState]. *)
Record FastTypes : Type := mkFast {
  objectType : ptr;
  nullType : ptr;
  booleanType : ptr;
  numberType : ptr;
  stringType : ptr;
  functionType : ptr;
  vectorType : ptr;
  reflectionType : ptr
}.

(** The instance, the two tables of the VM's globals the function
    fills ([LSASSEMBLYLOOKUP], [LSINDEXMEMBERINFONAME]), and the object
    [assembly] points to. *)
Record State : Type := mkState {
  fast : FastTypes;
  typeCache : gmap string ptr;
  assemblyLookup : gmap string ptr;
  memberInfoName : gmap ptr string;
  assembly : Assembly
}.

Definition set_fast (v : FastTypes) (s : State) : State :=
  mkState v (typeCache s) (assemblyLookup s) (memberInfoName s) (assembly s).
Definition set_typeCache (v : gmap string ptr) (s : State) : State :=
  mkState (fast s) v (assemblyLookup s) (memberInfoName s) (assembly s).
Definition set_assemblyLookup (v : gmap string ptr) (s : State) : State :=
  mkState (fast s) (typeCache s) v (memberInfoName s) (assembly s).
Definition set_memberInfoName (v : gmap ptr string) (s : State) : State :=
  mkState (fast s) (typeCache s) (assemblyLookup s) v (assembly s).
Definition set_assembly (v : Assembly) (s : State) : State :=
  mkState (fast s) (typeCache s) (assemblyLookup s) (memberInfoName s) v.

Definition set_ordinalTypes (v : option (list ptr)) (a : Assembly) : Assembly :=
  mkAssembly (getUniqueId a) v (types a).
Definition set_types (v : gmap string ptr) (a : Assembly) : Assembly :=
  mkAssembly (getUniqueId a) (ordinalTypes a) v.

(** [utHashTable::insert] keeps the entry a key already has.  The
    ordinal array does not depend on it. *)
Definition hashInsert {K V} `{Countable K} (k : K) (v : V) (m : gmap K V) : gmap K V :=
  match m !! k with
  | Some _ => m
  | None => <[k := v]> m
  end.

(** The chain of [strcmp]s on the full name. *)
Definition cacheFast (typeName : string) (type : ptr) (f : FastTypes) : FastTypes :=
  if bool_decide (typeName = "system.Object") then
    mkFast type (nullType f) (booleanType f) (numberType f) (stringType f)
      (functionType f) (vectorType f) (reflectionType f)
  else if bool_decide (typeName = "system.Null") then
    mkFast (objectType f) type (booleanType f) (numberType f) (stringType f)
      (functionType f) (vectorType f) (reflectionType f)
  else if bool_decide (typeName = "system.Boolean") then
    mkFast (objectType f) (nullType f) type (numberType f) (stringType f)
      (functionType f) (vectorType f) (reflectionType f)
  else if bool_decide (typeName = "system.Number") then
    mkFast (objectType f) (nullType f) (booleanType f) type (stringType f)
      (functionType f) (vectorType f) (reflectionType f)
  else if bool_decide (typeName = "system.String") then
    mkFast (objectType f) (nullType f) (booleanType f) (numberType f) type
      (functionType f) (vectorType f) (reflectionType f)
  else if bool_decide (typeName = "system.Function") then
    mkFast (objectType f) (nullType f) (booleanType f) (numberType f) (stringType f)
      type (vectorType f) (reflectionType f)
  else if bool_decide (typeName = "system.Vector") then
    mkFast (objectType f) (nullType f) (booleanType f) (numberType f) (stringType f)
      (functionType f) type (reflectionType f)
  else if bool_decide (typeName = "system.reflection.Type") then
    mkFast (objectType f) (nullType f) (booleanType f) (numberType f) (stringType f)
      (functionType f) (vectorType f) type
  else f.

Definition notNull (p : ptr) : bool := negb (bool_decide (p = NULL)).

Section CacheAssemblyTypes.

(** The [Type] objects behind the pointers; the function only reads
    them. *)
Variable typeAt : ptr -> LSType.

(** [assembly->ordinalTypes->ptr()[id] = type]. *)
Definition storeOrdinal (id : Z) (type : ptr) : M State unit :=
  s <- get ;;
  match ordinalTypes (assembly s) with
  | Some ord =>
      put (set_assembly
             (set_ordinalTypes (Some (<[Z.to_nat id := type]> ord)) (assembly s)) s)
  | None => raise (Undefined "ordinalTypes is NULL")
  end.

(** The interned names of a type that has none yet: the type's own
    and one per member. *)
Definition internNames (type : ptr) : M State unit :=
  s <- get ;;
  match memberInfoName s !! type with
  | None =>
      let withType := <[type := getName (typeAt type)]> (memberInfoName s) in
      put (set_memberInfoName
             (foldl (fun tbl mi => <[mi.1 := mi.2]> tbl) withType
                (members (typeAt type))) s)
  | Some _ => ret tt
  end.

(** The body of the loop over [types], for [type = types.at(j)];
    [size] is [types.size()]. *)
Definition cacheType (size : nat) (type : ptr) : M State unit :=
  let t := typeAt type in
  modify (fun s => set_assembly
                     (set_types (hashInsert (getName t) type (types (assembly s)))
                        (assembly s)) s) ;;
  lmAssert ((0 <? getTypeID t) && (getTypeID t <=? Z.of_nat size))
    "LSLuaState::cacheAssemblyTypes TypeID out of range" ;;
  storeOrdinal (getTypeID t) type ;;
  modify (fun s => set_fast (cacheFast (getFullName t) type (fast s)) s) ;;
  internNames type ;;
  s <- get ;;
  match typeCache s !! getFullName t with
  | None => put (set_typeCache (hashInsert (getFullName t) type (typeCache s)) s)
  | Some _ => ret tt
  end.

(** The asserts that close [cacheAssemblyTypes]: the built-in types
    the runtime cannot do without have been seen, in this assembly or
    in one cached before. *)
Definition assertFastTypes : M State unit :=
  s <- get ;;
  lmAssert (notNull (nullType (fast s)))
    "LSLuaState::cacheAssemblyTypes - system.Null not found" ;;
  lmAssert (notNull (booleanType (fast s)))
    "LSLuaState::cacheAssemblyTypes - system.Boolean not found" ;;
  lmAssert (notNull (numberType (fast s)))
    "LSLuaState::cacheAssemblyTypes - system.Number not found" ;;
  lmAssert (notNull (stringType (fast s)))
    "LSLuaState::cacheAssemblyTypes - system.String not found" ;;
  lmAssert (notNull (functionType (fast s)))
    "LSLuaState::cacheAssemblyTypes - system.Function not found" ;;
  lmAssert (notNull (reflectionType (fast s)))
    "LSLuaState::cacheAssemblyTypes - system.reflection.Type not found" ;;
  lmAssert (notNull (vectorType (fast s)))
    "LSLuaState::cacheAssemblyTypes - system.Vector not found".

(** [LSLuaState::cacheAssemblyTypes(assembly, types)]; [assemblyPtr]
    is the address of the assembly. *)
Definition cacheAssemblyTypes (assemblyPtr : ptr) (types : list ptr) : M State unit :=
  modify (fun s => set_assemblyLookup
                     (<[getUniqueId (assembly s) := assemblyPtr]> (assemblyLookup s)) s) ;;
  s <- get ;;
  lmAssert (bool_decide (ordinalTypes (assembly s) = None))
    "Assembly types cache error, ordinalTypes already exists" ;;
  modify (fun s => set_assembly
                     (set_ordinalTypes (Some (replicate (length types + 1) NULL))
                        (assembly s)) s) ;;
  forEach (cacheType (length types)) types ;;
  assertFastTypes.

(** The ordinal ID of the type at [type]. *)
Definition idOf (type : ptr) : Z := getTypeID (typeAt type).

(** Ordinal IDs are unique within the cohort. *)
Definition uniqueIds (types : list ptr) : Prop :=
  forall t1 t2, t1 ∈ types -> t2 ∈ types -> idOf t1 = idOf t2 -> t1 = t2.

Definition idInRange (size : nat) (type : ptr) : Prop :=
  1 <= idOf type <= Z.of_nat size.

End CacheAssemblyTypes.

End Cache.

Module CacheProofs.
Import Reflection Cache.

Section OrdinalProofs.

Variable typeAt : ptr -> LSType.

Local Abbreviation idOf := (idOf typeAt).
Local Abbreviation cacheType := (cacheType typeAt).

(** The ordinal array after the loop stored the types [rest]. *)
Definition fill (ord : list ptr) (rest : list ptr) : list ptr :=
  foldl (fun o t => <[Z.to_nat (idOf t) := t]> o) ord rest.

Lemma fill_length rest : forall ord, length (fill ord rest) = length ord.
Proof.
  induction rest as [|t rest IH]; intros ord; [done|].
  cbn [fill foldl]. fold (fill (<[Z.to_nat (idOf t) := t]> ord) rest).
  by rewrite IH, length_insert.
Qed.

Lemma fill_untouched rest : forall ord (i : nat),
  (forall t, t ∈ rest -> Z.to_nat (idOf t) <> i) ->
  fill ord rest !! i = ord !! i.
Proof.
  induction rest as [|t rest IH]; intros ord i Hne; [done|].
  cbn [fill foldl]. fold (fill (<[Z.to_nat (idOf t) := t]> ord) rest).
  rewrite IH.
  - apply list_lookup_insert_ne. apply Hne. by left.
  - intros u Hu. apply Hne. by right.
Qed.

Lemma fill_lookup rest : forall ord t,
  uniqueIds typeAt rest -> t ∈ rest ->
  (forall u, u ∈ rest -> 1 <= idOf u) ->
  (Z.to_nat (idOf t) < length ord)%nat ->
  fill ord rest !! Z.to_nat (idOf t) = Some t.
Proof.
  induction rest as [|u rest IH]; intros ord t Huniq Hin Hpos Hlen.
  - by apply elem_of_nil in Hin.
  - cbn [fill foldl]. fold (fill (<[Z.to_nat (idOf u) := u]> ord) rest).
    destruct (decide (t ∈ rest)) as [Hrest|Hnot].
    + apply IH; [|done| |by rewrite length_insert].
      * intros a b Ha Hb. apply Huniq; by right.
      * intros a Ha. apply Hpos. by right.
    + apply elem_of_cons in Hin as [->|Hin]; [|contradiction].
      rewrite fill_untouched.
      * by apply list_lookup_insert_eq.
      * intros v Hv Heq.
        assert (Hpv : 1 <= idOf v) by (apply Hpos; by right).
        assert (Hpu : 1 <= idOf u) by (apply Hpos; by left).
        assert (v = u); [|by subst].
        apply Huniq; [by right|by left|lia].
Qed.

Lemma fill_app before after : forall ord,
  fill ord (before ++ after) = fill (fill ord before) after.
Proof. intros ord. unfold fill. apply foldl_app. Qed.

(** The loop is last writer wins: a slot holds the last type of the
    cohort with that ordinal ID. *)
Lemma fill_last before t after ord :
  (forall u, u ∈ after -> 1 <= idOf u) -> 1 <= idOf t ->
  (forall u, u ∈ after -> idOf u <> idOf t) ->
  (Z.to_nat (idOf t) < length ord)%nat ->
  fill ord (before ++ t :: after) !! Z.to_nat (idOf t) = Some t.
Proof.
  intros Hpos Ht Hlater Hlen. rewrite fill_app.
  cbn [fill foldl].
  fold (fill (<[Z.to_nat (idOf t) := t]> (fill ord before)) after).
  rewrite fill_untouched.
  - apply list_lookup_insert_eq. by rewrite fill_length.
  - intros u Hu Heq. apply (Hlater u Hu).
    specialize (Hpos u Hu). lia.
Qed.

Lemma idInRange_dec size t :
  (0 <? idOf t) && (idOf t <=? Z.of_nat size) = true <-> idInRange typeAt size t.
Proof. unfold idInRange. rewrite andb_true_iff, Z.ltb_lt, Z.leb_le. lia. Qed.

(** One turn of the loop: it stores the type at its ordinal ID when
    the ID is in range, and stops with the fatal error otherwise. *)
Lemma cacheType_ok size t s ord :
  ordinalTypes (assembly s) = Some ord -> idInRange typeAt size t ->
  exists s', cacheType size t s = Ok tt s' /\
    ordinalTypes (assembly s') = Some (<[Z.to_nat (idOf t) := t]> ord) /\
    fast s' = cacheFast (getFullName (typeAt t)) t (fast s).
Proof.
  intros Hord Hr. apply idInRange_dec in Hr.
  unfold Cache.cacheType, bind at 1, modify. unfold bind at 1, lmAssert.
  unfold Cache.idOf in Hr. rewrite Hr. unfold ret at 1.
  unfold bind at 1, storeOrdinal, bind at 1, get at 1.
  cbn [assembly set_assembly ordinalTypes set_types]. rewrite Hord.
  unfold put. unfold bind at 1, modify. unfold bind at 1, internNames.
  unfold bind at 1, get at 1. cbn [memberInfoName set_fast set_assembly].
  destruct (memberInfoName s !! t).
  - unfold ret at 1. unfold bind, get.
    cbn [typeCache set_fast set_assembly].
    destruct (typeCache s !! _); eexists; (split; [reflexivity|done]).
  - unfold put. unfold bind, get.
    cbn [typeCache set_memberInfoName set_fast set_assembly].
    destruct (typeCache s !! _); eexists; (split; [reflexivity|done]).
Qed.

Lemma cacheType_fatal size t s :
  ~ idInRange typeAt size t ->
  exists s', cacheType size t s
             = Fail (FatalError "LSLuaState::cacheAssemblyTypes TypeID out of range") s'.
Proof.
  intros Hr. rewrite <- idInRange_dec in Hr. apply not_true_is_false in Hr.
  unfold Cache.cacheType, bind at 1, modify. unfold bind at 1, lmAssert.
  unfold Cache.idOf in Hr. rewrite Hr. eexists. reflexivity.
Qed.

Lemma idInRange_decide size t :
  {idInRange typeAt size t} + {~ idInRange typeAt size t}.
Proof.
  destruct ((0 <? idOf t) && (idOf t <=? Z.of_nat size)) eqn:E.
  - left. by apply idInRange_dec.
  - right. rewrite <- idInRange_dec. unfold Cache.idOf in *. congruence.
Qed.

Lemma forEach_cacheType size rest : forall s ord,
  ordinalTypes (assembly s) = Some ord ->
  (Forall (idInRange typeAt size) rest /\
   exists s', forEach (cacheType size) rest s = Ok tt s' /\
     ordinalTypes (assembly s') = Some (fill ord rest) /\
     fast s' = foldl (fun f t => cacheFast (getFullName (typeAt t)) t f) (fast s) rest)
  \/
  (Exists (fun t => ~ idInRange typeAt size t) rest /\
   exists msg s', forEach (cacheType size) rest s = Fail (FatalError msg) s').
Proof.
  induction rest as [|t rest IH]; intros s ord Hord.
  - left. split; [constructor|]. exists s. by repeat split.
  - destruct (idInRange_decide size t) as [Hr|Hr].
    + destruct (cacheType_ok size t s ord Hord Hr) as (s1 & Hstep & Hord1 & Hfast).
      destruct (IH s1 _ Hord1) as [(Hall & s2 & Hrun & Hord2 & Hfast2)
                                  |(Hex & msg & s2 & Hrun)].
      * left. split; [by constructor|]. exists s2.
        cbn [forEach]. rewrite (bind_Ok _ _ _ _ _ Hstep).
        split; [done|]. split; [done|]. cbn [foldl]. by rewrite <- Hfast.
      * right. split; [by apply Exists_cons_tl|]. exists msg, s2.
        cbn [forEach]. by rewrite (bind_Ok _ _ _ _ _ Hstep).
    + right. split; [by apply Exists_cons_hd|].
      destruct (cacheType_fatal size t s Hr) as (s1 & Hstep).
      eexists _, s1. cbn [forEach]. by rewrite (bind_Fail _ _ _ _ _ Hstep).
Qed.

End OrdinalProofs.

Section OrdinalInvariant.

Variable typeAt : ptr -> LSType.

Local Abbreviation idOf := (Cache.idOf typeAt).

Lemma assertFastTypes_outcome s :
  assertFastTypes s = Ok tt s \/
  exists msg, assertFastTypes s = Fail (FatalError msg) s.
Proof.
  unfold assertFastTypes, bind, get, lmAssert, ret, raise.
  repeat (match goal with
          | |- context [if ?x then _ else _] => destruct x
          end); eauto.
Qed.

(** The state the loop of [cacheAssemblyTypes] starts in. *)
Definition prepared (assemblyPtr : ptr) (types : list ptr) (s : State) : State :=
  let s0 := set_assemblyLookup
              (<[getUniqueId (assembly s) := assemblyPtr]> (assemblyLookup s)) s in
  set_assembly
    (set_ordinalTypes (Some (replicate (length types + 1) NULL)) (assembly s0)) s0.

Lemma cacheAssemblyTypes_unfold assemblyPtr types s :
  cacheAssemblyTypes typeAt assemblyPtr types s =
    match ordinalTypes (assembly s) with
    | Some _ =>
        Fail (FatalError "Assembly types cache error, ordinalTypes already exists")
          (set_assemblyLookup
             (<[getUniqueId (assembly s) := assemblyPtr]> (assemblyLookup s)) s)
    | None =>
        (forEach (cacheType typeAt (length types)) types ;; assertFastTypes)
          (prepared assemblyPtr types s)
    end.
Proof.
  unfold cacheAssemblyTypes. unfold bind at 1, modify at 1.
  unfold bind at 1, get at 1. unfold bind at 1, lmAssert at 1.
  cbn [assembly set_assemblyLookup].
  destruct (ordinalTypes (assembly s)) as [old|] eqn:Hold.
  - by rewrite bool_decide_eq_false_2.
  - rewrite bool_decide_eq_true_2 by done. unfold ret at 1.
    unfold bind at 1, modify at 1. reflexivity.
Qed.

(** C6 (as the code has it).  When [cacheAssemblyTypes] returns, the
    assembly's ordinal array has one slot more than there are types,
    slot 0 holds [NULL], and every type of the cohort has its ordinal
    ID between 1 and the number of types.  The loop checks the range of
    an ID and not that it is new, and the last store wins: the slot at
    a type's ordinal ID holds that type whenever no later type of the
    cohort has the same ID, hence for every type when ordinal IDs are
    unique within the assembly.  When some type has an ordinal ID
    outside the range the call does not return: it stops with a fatal
    error. *)
Theorem cacheAssemblyTypes_ordinal_invariant (assemblyPtr : ptr)
  (types : list ptr) (s : State) :
  (forall s', cacheAssemblyTypes typeAt assemblyPtr types s = Ok tt s' ->
    exists ord,
      ordinalTypes (assembly s') = Some ord /\
      length ord = (length types + 1)%nat /\
      ord !! 0%nat = Some NULL /\
      (forall t, t ∈ types -> 1 <= idOf t <= Z.of_nat (length types)) /\
      (forall before t after,
          types = before ++ t :: after ->
          (forall u, u ∈ after -> idOf u <> idOf t) ->
          ord !! Z.to_nat (idOf t) = Some t) /\
      (uniqueIds typeAt types ->
       forall t, t ∈ types -> ord !! Z.to_nat (idOf t) = Some t)) /\
  ((exists t, t ∈ types /\ ~ (1 <= idOf t <= Z.of_nat (length types))) ->
   exists msg s', cacheAssemblyTypes typeAt assemblyPtr types s
                  = Fail (FatalError msg) s').
Proof.
  rewrite cacheAssemblyTypes_unfold.
  destruct (ordinalTypes (assembly s)) as [old|] eqn:Hold.
  { split; [intros s' [=]|]. intros _. eauto. }
  set (s0 := prepared assemblyPtr types s).
  assert (Hord0 : ordinalTypes (assembly s0)
                  = Some (replicate (length types + 1) NULL)) by reflexivity.
  destruct (forEach_cacheType typeAt (length types) types s0 _ Hord0)
    as [(Hall & s1 & Hrun & Hord1 & _)|(Hex & msg & s1 & Hrun)].
  - rewrite (bind_Ok _ _ _ _ _ Hrun). rewrite Forall_forall in Hall.
    split.
    + intros s' Hfinal.
      destruct (assertFastTypes_outcome s1) as [Hok|[msg Hbad]];
        [|rewrite Hbad in Hfinal; discriminate].
      rewrite Hok in Hfinal. injection Hfinal as <-.
      exists (fill typeAt (replicate (length types + 1) NULL) types).
      split; [exact Hord1|].
      split; [by rewrite fill_length, length_replicate|].
      split.
      { rewrite fill_untouched; [by rewrite lookup_replicate_2 by lia|].
        intros t Ht. specialize (Hall t Ht). unfold idInRange in Hall.
        unfold Cache.idOf in *. lia. }
      split; [exact Hall|].
      split.
      { intros before t after Hsplit Hlater.
        assert (Ht : t ∈ types)
          by (rewrite Hsplit; apply elem_of_app; right; by left).
        assert (Hafter : forall u, u ∈ after -> u ∈ types)
          by (intros u Hu; rewrite Hsplit; apply elem_of_app; right; by right).
        rewrite Hsplit at 2. apply fill_last; [| |exact Hlater|].
        - intros u Hu. apply (Hall u (Hafter u Hu)).
        - apply (Hall t Ht).
        - rewrite length_replicate. specialize (Hall t Ht).
          unfold idInRange, Cache.idOf in *. lia. }
      intros Huniq t Ht. apply fill_lookup; [done|done| |].
      * intros u Hu. apply (Hall u Hu).
      * rewrite length_replicate. specialize (Hall t Ht).
        unfold idInRange, Cache.idOf in *. lia.
    + intros (t & Ht & Hbad). exfalso. apply Hbad. by apply Hall.
  - rewrite (bind_Fail _ _ _ _ _ Hrun).
    split; [intros s' [=]|]. intros _. eauto.
Qed.

End OrdinalInvariant.

(** A cohort of the seven built-in types the runtime asks for, with
    ordinal IDs 1 to 7: the type at address [100 + i] has ID [i]. *)
Definition builtinNames : list string :=
  ["system.Null"; "system.Boolean"; "system.Number"; "system.String";
   "system.Function"; "system.Vector"; "system.reflection.Type"].

Definition builtinAt (p : ptr) : LSType :=
  let i := (N.to_nat p - 100)%nat in
  let n := nth (i - 1) builtinNames "app.Main" in
  mkType n n (Z.of_nat i) NULL [] None false false false "" NULL [].

Definition builtinCohort : list ptr :=
  [101%N; 102%N; 103%N; 104%N; 105%N; 106%N; 107%N].

Definition emptyState : State :=
  mkState (mkFast NULL NULL NULL NULL NULL NULL NULL NULL) ∅ ∅ ∅
    (mkAssembly "uid-system" None ∅).

Definition cachedState : State :=
  match cacheAssemblyTypes builtinAt 1%N builtinCohort emptyState with
  | Ok _ s => s
  | Fail _ s => s
  end.

Lemma builtinCohort_uniqueIds : uniqueIds builtinAt builtinCohort.
Proof.
  intros t1 t2 H1 H2 Heq. unfold builtinCohort in H1, H2.
  repeat (apply elem_of_cons in H1 as [->|H1]; [|try by apply elem_of_nil in H1]);
    repeat (apply elem_of_cons in H2 as [->|H2]; [|try by apply elem_of_nil in H2]);
    first [reflexivity | vm_compute in Heq; discriminate Heq].
Qed.

Lemma cacheAssemblyTypes_ordinal_invariant_witness :
  exists ord,
    ordinalTypes (assembly cachedState) = Some ord /\
    length ord = (length builtinCohort + 1)%nat /\
    ord !! 0%nat = Some NULL /\
    (forall t, t ∈ builtinCohort ->
               1 <= Cache.idOf builtinAt t <= Z.of_nat (length builtinCohort)) /\
    ord !! Z.to_nat (Cache.idOf builtinAt 103%N) = Some 103%N /\
    (forall t, t ∈ builtinCohort -> ord !! Z.to_nat (Cache.idOf builtinAt t) = Some t).
Proof.
  destruct (proj1 (cacheAssemblyTypes_ordinal_invariant builtinAt 1%N builtinCohort
                     emptyState) cachedState)
    as (ord & Hord & Hlen & Hzero & Hrange & Hlast & Hall);
    [vm_compute; reflexivity|].
  exists ord.
  split; [exact Hord|]. split; [exact Hlen|]. split; [exact Hzero|].
  split; [exact Hrange|]. split.
  - apply (Hlast [101%N; 102%N] 103%N [104%N; 105%N; 106%N; 107%N]); [reflexivity|].
    intros u Hu.
    repeat (apply elem_of_cons in Hu as [->|Hu]; [vm_compute; discriminate|]).
    apply elem_of_nil in Hu. destruct Hu.
  - apply Hall. exact builtinCohort_uniqueIds.
Defined.

(** The built-in types again, with the ordinal ID 6 given twice: to
    [system.Vector] at 106 and to [system.reflection.Type] at 107. *)
Definition clashingAt (p : ptr) : LSType :=
  if bool_decide (p = 107%N)
  then mkType "system.reflection.Type" "system.reflection.Type" 6
         NULL [] None false false false "" NULL []
  else builtinAt p.

(** The claim fails on a cohort that repeats an ordinal ID: the range
    check passes, the call returns, and the type at 106, which is in
    the cohort and is not missing, is not in the slot of its ordinal
    ID, which the later type at 107 has taken; slot 7 stays empty. *)
Lemma cacheAssemblyTypes_repeated_id :
  exists s',
    cacheAssemblyTypes clashingAt 1%N builtinCohort emptyState = Ok tt s' /\
    ordinalTypes (assembly s')
    = Some [NULL; 101%N; 102%N; 103%N; 104%N; 105%N; 107%N; NULL] /\
    106%N ∈ builtinCohort /\
    missing (clashingAt 106%N) = None /\
    Cache.idOf clashingAt 106%N = 6 /\
    ~ (forall t ord, t ∈ builtinCohort ->
         ordinalTypes (assembly s') = Some ord ->
         ord !! Z.to_nat (Cache.idOf clashingAt t) = Some t).
Proof.
  eexists. split; [vm_compute; reflexivity|].
  split; [reflexivity|].
  split; [apply (bool_decide_unpack _); vm_compute; exact I|].
  split; [reflexivity|]. split; [reflexivity|].
  intros Hclaim.
  assert (Hin : 106%N ∈ builtinCohort)
    by (apply (bool_decide_unpack _); vm_compute; exact I).
  specialize (Hclaim 106%N _ Hin eq_refl). vm_compute in Hclaim. discriminate.
Qed.

Example cachedState_ordinals :
  ordinalTypes (assembly cachedState)
  = Some [NULL; 101%N; 102%N; 103%N; 104%N; 105%N; 106%N; 107%N].
Proof. vm_compute. reflexivity. Qed.

(** An ordinal ID of 9 in a cohort of seven stops the load. *)
Example cacheAssemblyTypes_out_of_range :
  exists msg s',
    cacheAssemblyTypes builtinAt 1%N
      [101%N; 102%N; 103%N; 104%N; 105%N; 106%N; 109%N] emptyState
    = Fail (FatalError msg) s'.
Proof. eexists _, _. vm_compute. reflexivity. Qed.

(** *** The type cache, the lookup table and the built-in types *)

Section CachingProofs.

Variable typeAt : ptr -> LSType.

Local Abbreviation cacheType := (cacheType typeAt).
Local Abbreviation cacheAssemblyTypes := (cacheAssemblyTypes typeAt).
Local Abbreviation fullNameOf := (fun t : ptr => getFullName (typeAt t)).

(** The type cache after the turn of the loop for [t]. *)
Definition register (t : ptr) (cache : gmap string ptr) : gmap string ptr :=
  match cache !! fullNameOf t with
  | None => <[fullNameOf t := t]> cache
  | Some _ => cache
  end.

(** What one turn of the loop leaves of the state, when it returns. *)
Lemma cacheType_effect size t s s' :
  cacheType size t s = Ok tt s' ->
  typeCache s' = register t (typeCache s) /\
  assemblyLookup s' = assemblyLookup s /\
  fast s' = cacheFast (fullNameOf t) t (fast s) /\
  getUniqueId (assembly s') = getUniqueId (assembly s) /\
  is_Some (ordinalTypes (assembly s')).
Proof.
  unfold Cache.cacheType, bind at 1, modify. unfold bind at 1, lmAssert.
  destruct (_ && _); [|discriminate]. unfold ret at 1.
  unfold bind at 1, storeOrdinal, bind at 1, get at 1.
  cbn [assembly set_assembly ordinalTypes set_types].
  destruct (ordinalTypes (assembly s)) as [ord|]; [|discriminate].
  unfold put. unfold bind at 1, modify. unfold bind at 1, internNames.
  unfold bind at 1, get at 1. cbn [memberInfoName set_fast set_assembly].
  unfold register, hashInsert.
  destruct (memberInfoName s !! t).
  - unfold ret at 1. unfold bind, get.
    cbn [typeCache set_fast set_assembly].
    destruct (typeCache s !! _) eqn:E; intros [= <-];
      cbn [typeCache assemblyLookup fast assembly ordinalTypes set_fast set_assembly
           set_typeCache set_ordinalTypes]; rewrite ?E; eauto.
  - unfold put. unfold bind, get.
    cbn [typeCache set_memberInfoName set_fast set_assembly].
    destruct (typeCache s !! _) eqn:E; intros [= <-];
      cbn [typeCache assemblyLookup fast assembly ordinalTypes set_fast set_assembly
           set_typeCache set_ordinalTypes set_memberInfoName]; rewrite ?E; eauto.
Qed.

Lemma forEach_cacheType_effect size rest : forall s s',
  forEach (cacheType size) rest s = Ok tt s' ->
  typeCache s' = foldl (fun cache t => register t cache) (typeCache s) rest /\
  assemblyLookup s' = assemblyLookup s /\
  fast s' = foldl (fun f t => cacheFast (fullNameOf t) t f) (fast s) rest /\
  getUniqueId (assembly s') = getUniqueId (assembly s) /\
  (is_Some (ordinalTypes (assembly s)) -> is_Some (ordinalTypes (assembly s'))).
Proof.
  induction rest as [|t rest IH]; intros s s' Hrun.
  - injection Hrun as <-. done.
  - cbn [forEach] in Hrun. apply bind_Ok_inv in Hrun as ([] & s1 & Hstep & Hrun).
    apply cacheType_effect in Hstep as (Hc & Hl & Hf & Hu & Ho).
    apply IH in Hrun as (Hc' & Hl' & Hf' & Hu' & Ho').
    cbn [foldl]. rewrite <- Hc, <- Hf. repeat split; try congruence. eauto.
Qed.

Lemma register_keeps t cache k p :
  cache !! k = Some p -> register t cache !! k = Some p.
Proof.
  intros Hk. unfold register. destruct (cache !! fullNameOf t) eqn:E; [done|].
  rewrite lookup_insert_ne; [done|]. intros <-. congruence.
Qed.

Lemma registerAll_keeps rest : forall cache k p,
  cache !! k = Some p ->
  foldl (fun cache t => register t cache) cache rest !! k = Some p.
Proof.
  induction rest as [|t rest IH]; intros cache k p Hk; [done|].
  cbn [foldl]. apply IH. by apply register_keeps.
Qed.

Lemma registerAll_other rest : forall cache k,
  (forall t, t ∈ rest -> fullNameOf t <> k) ->
  foldl (fun cache t => register t cache) cache rest !! k = cache !! k.
Proof.
  induction rest as [|t rest IH]; intros cache k Hk; [done|].
  cbn [foldl]. rewrite IH by (intros u Hu; apply Hk; by right).
  unfold register. destruct (cache !! fullNameOf t); [done|].
  apply lookup_insert_ne. apply Hk. by left.
Qed.

Lemma registerAll_first before t after cache :
  cache !! fullNameOf t = None ->
  (forall u, u ∈ before -> fullNameOf u <> fullNameOf t) ->
  foldl (fun cache t => register t cache) cache (before ++ t :: after)
    !! fullNameOf t = Some t.
Proof.
  intros Hnone Hbefore. rewrite foldl_app. cbn [foldl].
  apply registerAll_keeps. unfold register.
  rewrite registerAll_other by done. rewrite Hnone.
  apply lookup_insert_eq.
Qed.

Lemma registerAll_present rest : forall cache t,
  t ∈ rest ->
  is_Some (foldl (fun cache t => register t cache) cache rest !! fullNameOf t).
Proof.
  induction rest as [|u rest IH]; intros cache t Ht; [by apply elem_of_nil in Ht|].
  cbn [foldl]. apply elem_of_cons in Ht as [->|Ht]; [|by apply IH].
  assert (Hu : is_Some (register u cache !! fullNameOf u)).
  { unfold register. destruct (cache !! fullNameOf u) eqn:E; [by rewrite E|].
    rewrite lookup_insert_eq. eauto. }
  destruct Hu as [p Hp]. exists p. by apply registerAll_keeps.
Qed.

(** When [cacheAssemblyTypes] returns, the type cache holds every
    entry it held before, unchanged; every type of the cohort is found
    under its full name; a full name that was not cached before maps to
    the first type of the cohort that bears it; and no other name was
    added. *)
Theorem cacheAssemblyTypes_typeCache (assemblyPtr : ptr) (types : list ptr)
  (s s' : State) :
  cacheAssemblyTypes assemblyPtr types s = Ok tt s' ->
  (forall name p, typeCache s !! name = Some p -> typeCache s' !! name = Some p) /\
  (forall before t after,
      types = before ++ t :: after ->
      typeCache s !! fullNameOf t = None ->
      (forall u, u ∈ before -> fullNameOf u <> fullNameOf t) ->
      typeCache s' !! fullNameOf t = Some t) /\
  (forall t, t ∈ types -> is_Some (typeCache s' !! fullNameOf t)) /\
  (forall name, typeCache s !! name = None ->
                (forall t, t ∈ types -> fullNameOf t <> name) ->
                typeCache s' !! name = None).
Proof.
  rewrite cacheAssemblyTypes_unfold.
  destruct (ordinalTypes (assembly s)); [discriminate|].
  intros Hrun. apply bind_Ok_inv in Hrun as ([] & s1 & Hloop & Hassert).
  destruct (assertFastTypes_outcome s1) as [Hok|[msg Hbad]];
    [|rewrite Hbad in Hassert; discriminate].
  rewrite Hok in Hassert. injection Hassert as <-.
  apply forEach_cacheType_effect in Hloop as (Hc & _).
  change (typeCache (prepared assemblyPtr types s)) with (typeCache s) in Hc.
  rewrite Hc. split; [|split; [|split]].
  - intros name p. apply registerAll_keeps.
  - intros before t after -> Hnone Hfirst. by apply registerAll_first.
  - intros t Ht. by apply registerAll_present.
  - intros name Hnone Hother. by rewrite registerAll_other.
Qed.


(** After a call that returned, the assembly is registered under its
    unique id in the lookup table of the VM, and no further call for
    that assembly gets past the first assert, whatever the types it is
    given. *)
Theorem cacheAssemblyTypes_once (assemblyPtr : ptr) (types : list ptr)
  (s s' : State) :
  cacheAssemblyTypes assemblyPtr types s = Ok tt s' ->
  assemblyLookup s' = <[getUniqueId (assembly s) := assemblyPtr]> (assemblyLookup s) /\
  forall again types',
    cacheAssemblyTypes again types' s'
    = Fail (FatalError "Assembly types cache error, ordinalTypes already exists")
        (set_assemblyLookup
           (<[getUniqueId (assembly s) := again]> (assemblyLookup s')) s').
Proof.
  rewrite cacheAssemblyTypes_unfold.
  destruct (ordinalTypes (assembly s)); [discriminate|].
  intros Hrun. apply bind_Ok_inv in Hrun as ([] & s1 & Hloop & Hassert).
  destruct (assertFastTypes_outcome s1) as [Hok|[msg Hbad]];
    [|rewrite Hbad in Hassert; discriminate].
  rewrite Hok in Hassert. injection Hassert as <-.
  apply forEach_cacheType_effect in Hloop as (_ & Hl & _ & Hu & Ho).
  split; [exact Hl|].
  intros again types'. rewrite cacheAssemblyTypes_unfold.
  destruct Ho as [ord Hord]; [by eexists|].
  rewrite Hord, Hu. reflexivity.
Qed.

(** The built-in types the closing asserts ask for, in the order of
    the asserts, each with its slot of the fast access cache. *)
Definition required : list (string * (FastTypes -> ptr)) :=
  [("system.Null", nullType); ("system.Boolean", booleanType);
   ("system.Number", numberType); ("system.String", stringType);
   ("system.Function", functionType);
   ("system.reflection.Type", reflectionType);
   ("system.Vector", vectorType)].

Definition notFound (name : string) : string :=
  "LSLuaState::cacheAssemblyTypes - " +:+ name +:+ " not found".

(** A built-in type is known when its slot was filled by an assembly
    cached before, or a type of the cohort has its name. *)
Definition known (s : State) (types : list ptr)
  (builtin : string * (FastTypes -> ptr)) : Prop :=
  builtin.2 (fast s) <> NULL \/ exists t, t ∈ types /\ fullNameOf t = builtin.1.

Lemma slot_cacheFast builtin n t f :
  builtin ∈ required ->
  builtin.2 (cacheFast n t f) = if bool_decide (n = builtin.1) then t else builtin.2 f.
Proof.
  intros Hin. unfold required in Hin.
  repeat (apply elem_of_cons in Hin as [->|Hin]);
    [..|by apply elem_of_nil in Hin];
    cbn [fst snd]; unfold cacheFast;
    repeat (match goal with
            | |- context [bool_decide (n = ?x)] =>
                destruct (bool_decide_reflect (n = x)); [subst n|]
            end);
    try reflexivity; try discriminate.
Qed.

Lemma slot_after builtin rest : forall f,
  builtin ∈ required -> NULL ∉ rest ->
  builtin.2 (foldl (fun f t => cacheFast (fullNameOf t) t f) f rest) <> NULL
  <-> builtin.2 f <> NULL \/ exists t, t ∈ rest /\ fullNameOf t = builtin.1.
Proof.
  induction rest as [|t rest IH]; intros f Hin Hnull.
  - cbn. split; [by left|]. intros [?|(t & Ht & _)]; [done|by apply elem_of_nil in Ht].
  - cbn [foldl]. rewrite IH by (done || (intros ?; apply Hnull; by right)).
    rewrite slot_cacheFast by done.
    assert (Ht : t <> NULL) by (intros ->; apply Hnull; by left).
    destruct (bool_decide_reflect (fullNameOf t = builtin.1)) as [Heq|Hne].
    + split; intros _; [right; exists t; split; [by left|done]|by left].
    + split.
      * intros [?|(u & Hu & Hname)]; [by left|]. right. exists u. split; [by right|done].
      * intros [?|(u & Hu & Hname)]; [by left|].
        apply elem_of_cons in Hu as [->|Hu]; [done|]. right. by exists u.
Qed.

Lemma assertFastTypes_unfold s :
  assertFastTypes s =
    match find (fun builtin : string * (FastTypes -> ptr) =>
                  bool_decide (builtin.2 (fast s) = NULL)) required with
    | Some builtin => Fail (FatalError (notFound builtin.1)) s
    | None => Ok tt s
    end.
Proof.
  unfold assertFastTypes, bind, get, lmAssert, notNull, required.
  cbn [find list_find fst snd].
  repeat (match goal with
          | |- context [bool_decide (?x = NULL)] =>
              destruct (bool_decide (x = NULL)); cbn [negb]; try reflexivity
          end).
Qed.

Lemma find_first {A} (p : A -> bool) before x after :
  Forall (fun y => p y = false) before -> p x = true ->
  find p (before ++ x :: after) = Some x.
Proof.
  induction 1 as [|y before Hy _ IH]; intros Hx; cbn [app find].
  - by rewrite Hx.
  - rewrite Hy. by apply IH.
Qed.

Lemma find_none {A} (p : A -> bool) l :
  Forall (fun y => p y = false) l -> find p l = None.
Proof. induction 1 as [|y l Hy _ IH]; cbn [find]; [done|by rewrite Hy]. Qed.

(** On an assembly that was not cached before, with ordinal IDs in
    range: the call returns when each of the seven built-in types of
    [required] is known, and stops with the fatal error that names the
    first one, in the order of the asserts, that is not.
    [system.Object] has a slot in the fast access cache but is not
    asked for. *)
Theorem cacheAssemblyTypes_builtins (assemblyPtr : ptr) (types : list ptr)
  (s : State) :
  ordinalTypes (assembly s) = None ->
  Forall (idInRange typeAt (length types)) types ->
  NULL ∉ types ->
  (Forall (known s types) required ->
   exists s', cacheAssemblyTypes assemblyPtr types s = Ok tt s') /\
  (forall before builtin after,
      required = before ++ builtin :: after ->
      Forall (known s types) before -> ~ known s types builtin ->
      exists s', cacheAssemblyTypes assemblyPtr types s
                 = Fail (FatalError (notFound builtin.1)) s').
Proof.
  intros Hfresh Hrange Hnull. rewrite cacheAssemblyTypes_unfold, Hfresh.
  set (s0 := prepared assemblyPtr types s).
  destruct (forEach_cacheType typeAt (length types) types s0 _ eq_refl)
    as [(_ & s1 & Hrun & _ & Hfast)|(Hex & _)].
  2: { exfalso. apply Exists_exists in Hex as (t & Ht & Hbad).
       rewrite Forall_forall in Hrange. by apply Hbad, Hrange. }
  rewrite (bind_Ok _ _ _ _ _ Hrun), assertFastTypes_unfold, Hfast.
  change (fast s0) with (fast s).
  assert (Hslot : forall builtin, builtin ∈ required ->
            bool_decide (builtin.2 (foldl (fun f t => cacheFast (fullNameOf t) t f)
                                      (fast s) types) = NULL) = false
            <-> known s types builtin).
  { intros builtin Hin. unfold known. rewrite <- (slot_after builtin types) by done.
    split.
    - intros Hb. by apply bool_decide_eq_false_1 in Hb.
    - intros Hb. by apply bool_decide_eq_false_2. }
  split.
  - intros Hall. rewrite find_none; [by eexists|].
    rewrite Forall_forall in Hall. apply Forall_forall.
    intros builtin Hin. apply Hslot; [done|]. by apply Hall.
  - intros before builtin after Hsplit Hbefore Hnot.
    rewrite Hsplit, (find_first _ before builtin after); [by eexists| |].
    + rewrite Forall_forall in Hbefore. apply Forall_forall.
      intros b Hb. apply Hslot; [|by apply Hbefore].
      rewrite Hsplit. apply elem_of_app. by left.
    + apply not_false_iff_true. intros Hb. apply Hnot, Hslot; [|done].
      rewrite Hsplit. apply elem_of_app. right. by left.
Qed.

End CachingProofs.

Lemma cacheAssemblyTypes_typeCache_witness :
  (forall name p, typeCache emptyState !! name = Some p ->
                  typeCache cachedState !! name = Some p) /\
  (forall before t after,
      builtinCohort = before ++ t :: after ->
      typeCache emptyState !! getFullName (builtinAt t) = None ->
      (forall u, u ∈ before -> getFullName (builtinAt u) <> getFullName (builtinAt t)) ->
      typeCache cachedState !! getFullName (builtinAt t) = Some t) /\
  (forall t, t ∈ builtinCohort ->
             is_Some (typeCache cachedState !! getFullName (builtinAt t))) /\
  (forall name, typeCache emptyState !! name = None ->
                (forall t, t ∈ builtinCohort -> getFullName (builtinAt t) <> name) ->
                typeCache cachedState !! name = None).
Proof.
  apply (cacheAssemblyTypes_typeCache builtinAt 1%N builtinCohort emptyState cachedState).
  vm_compute. reflexivity.
Defined.

Lemma cacheAssemblyTypes_once_witness :
  assemblyLookup cachedState
  = <[getUniqueId (assembly emptyState) := 1%N]> (assemblyLookup emptyState) /\
  forall again types',
    cacheAssemblyTypes builtinAt again types' cachedState
    = Fail (FatalError "Assembly types cache error, ordinalTypes already exists")
        (set_assemblyLookup
           (<[getUniqueId (assembly emptyState) := again]> (assemblyLookup cachedState))
           cachedState).
Proof.
  apply (cacheAssemblyTypes_once builtinAt 1%N builtinCohort emptyState cachedState).
  vm_compute. reflexivity.
Defined.

Lemma cacheAssemblyTypes_builtins_witness :
  exists s', cacheAssemblyTypes builtinAt 1%N builtinCohort emptyState = Ok tt s'.
Proof.
  apply (cacheAssemblyTypes_builtins builtinAt 1%N builtinCohort emptyState).
  - reflexivity.
  - repeat constructor; vm_compute; discriminate.
  - apply (bool_decide_unpack _). vm_compute. exact I.
  - unfold required.
    repeat (apply Forall_cons; split); [..|constructor]; unfold known; right;
      [exists 101%N|exists 102%N|exists 103%N|exists 104%N|exists 105%N
      |exists 107%N|exists 106%N];
      (split; [apply (bool_decide_unpack _); vm_compute; exact I|reflexivity]).
Defined.

(** *** The interned names *)

Section InterningProofs.

Variable typeAt : ptr -> LSType.

Local Abbreviation cacheType := (cacheType typeAt).
Local Abbreviation cacheAssemblyTypes := (cacheAssemblyTypes typeAt).

(** The table of interned names after the members [ms] were added. *)
Definition internMembers (ms : list (ptr * string)) (tbl : gmap ptr string)
  : gmap ptr string :=
  foldl (fun tbl mi => <[mi.1 := mi.2]> tbl) tbl ms.

(** The table of interned names after the turn of the loop for [t]. *)
Definition intern (t : ptr) (tbl : gmap ptr string) : gmap ptr string :=
  match tbl !! t with
  | None => internMembers (members (typeAt t)) (<[t := getName (typeAt t)]> tbl)
  | Some _ => tbl
  end.

Lemma cacheType_interns size t s s' :
  cacheType size t s = Ok tt s' ->
  memberInfoName s' = intern t (memberInfoName s).
Proof.
  unfold Cache.cacheType, bind at 1, modify. unfold bind at 1, lmAssert.
  destruct (_ && _); [|discriminate]. unfold ret at 1.
  unfold bind at 1, storeOrdinal, bind at 1, get at 1.
  cbn [assembly set_assembly ordinalTypes set_types].
  destruct (ordinalTypes (assembly s)) as [ord|]; [|discriminate].
  unfold put. unfold bind at 1, modify. unfold bind at 1, internNames.
  unfold bind at 1, get at 1. cbn [memberInfoName set_fast set_assembly].
  unfold intern, internMembers.
  destruct (memberInfoName s !! t).
  - unfold ret at 1. unfold bind, get.
    cbn [typeCache set_fast set_assembly].
    destruct (typeCache s !! _); intros [= <-]; reflexivity.
  - unfold put. unfold bind, get.
    cbn [typeCache set_memberInfoName set_fast set_assembly].
    destruct (typeCache s !! _); intros [= <-]; reflexivity.
Qed.

Lemma forEach_cacheType_interns size rest : forall s s',
  forEach (cacheType size) rest s = Ok tt s' ->
  memberInfoName s' = foldl (fun tbl t => intern t tbl) (memberInfoName s) rest.
Proof.
  induction rest as [|t rest IH]; intros s s' Hrun.
  - by injection Hrun as <-.
  - cbn [forEach] in Hrun. apply bind_Ok_inv in Hrun as ([] & s1 & Hstep & Hrun).
    apply cacheType_interns in Hstep. apply IH in Hrun.
    cbn [foldl]. by rewrite <- Hstep.
Qed.

Lemma internMembers_present ms : forall tbl k,
  is_Some (tbl !! k) -> is_Some (internMembers ms tbl !! k).
Proof.
  induction ms as [|mi ms IH]; intros tbl k Hk; [done|].
  change (internMembers (mi :: ms) tbl) with (internMembers ms (<[mi.1 := mi.2]> tbl)).
  apply IH.
  destruct (decide (mi.1 = k)) as [<-|Hne].
  - rewrite lookup_insert_eq. eauto.
  - by rewrite lookup_insert_ne.
Qed.

Lemma internMembers_member ms : forall tbl mi,
  mi ∈ ms -> is_Some (internMembers ms tbl !! mi.1).
Proof.
  induction ms as [|m ms IH]; intros tbl mi Hin; [by apply elem_of_nil in Hin|].
  change (internMembers (m :: ms) tbl) with (internMembers ms (<[m.1 := m.2]> tbl)).
  apply elem_of_cons in Hin as [->|Hin].
  - apply internMembers_present. rewrite lookup_insert_eq. eauto.
  - by apply IH.
Qed.

Lemma internMembers_other ms : forall tbl k,
  k ∉ ms.*1 -> internMembers ms tbl !! k = tbl !! k.
Proof.
  induction ms as [|m ms IH]; intros tbl k Hk; [done|].
  change (internMembers (m :: ms) tbl) with (internMembers ms (<[m.1 := m.2]> tbl)).
  rewrite fmap_cons in Hk.
  rewrite IH by (intros ?; apply Hk; by right).
  apply lookup_insert_ne. intros Heq. apply Hk. rewrite Heq. by left.
Qed.

Lemma intern_present t tbl k : is_Some (tbl !! k) -> is_Some (intern t tbl !! k).
Proof.
  intros Hk. unfold intern. destruct (tbl !! t); [done|].
  apply internMembers_present.
  destruct (decide (t = k)) as [<-|Hne].
  - rewrite lookup_insert_eq. eauto.
  - by rewrite lookup_insert_ne.
Qed.

Lemma intern_self t tbl : is_Some (intern t tbl !! t).
Proof.
  unfold intern. destruct (tbl !! t) eqn:E; [by rewrite E|].
  apply internMembers_present. rewrite lookup_insert_eq. eauto.
Qed.

Lemma internAll_present rest : forall tbl k,
  is_Some (tbl !! k) -> is_Some (foldl (fun tbl t => intern t tbl) tbl rest !! k).
Proof.
  induction rest as [|t rest IH]; intros tbl k Hk; [done|].
  cbn [foldl]. apply IH. by apply intern_present.
Qed.

Lemma intern_type t tbl k :
  k ∉ (members (typeAt t)).*1 ->
  intern t tbl !! k
  = match tbl !! k with
    | Some name => Some name
    | None => if decide (t = k) then Some (getName (typeAt k)) else None
    end.
Proof.
  intros Hk. unfold intern. destruct (tbl !! t) eqn:E.
  - destruct (tbl !! k) eqn:Ek; [done|]. rewrite decide_False; [done|].
    intros ->. congruence.
  - rewrite internMembers_other by done.
    destruct (decide (t = k)) as [->|Hne].
    + by rewrite lookup_insert_eq, E.
    + rewrite lookup_insert_ne by done. by destruct (tbl !! k).
Qed.

Lemma internAll_type rest : forall tbl k,
  (forall u, u ∈ rest -> k ∉ (members (typeAt u)).*1) ->
  foldl (fun tbl t => intern t tbl) tbl rest !! k
  = match tbl !! k with
    | Some name => Some name
    | None => if decide (k ∈ rest) then Some (getName (typeAt k)) else None
    end.
Proof.
  induction rest as [|t rest IH]; intros tbl k Hsep.
  - cbn. destruct (tbl !! k); [done|]. rewrite decide_False; [done|].
    apply not_elem_of_nil.
  - cbn [foldl]. rewrite IH by (intros u Hu; apply Hsep; by right).
    rewrite intern_type by (apply Hsep; by left).
    destruct (tbl !! k); [done|].
    destruct (decide (t = k)) as [->|Hne].
    + rewrite decide_True; [done|by left].
    + destruct (decide (k ∈ rest)) as [Hin|Hnin].
      * rewrite decide_True; [done|by right].
      * rewrite decide_False; [done|].
        intros Hin. apply elem_of_cons in Hin as [?|?]; [congruence|done].
Qed.

(** When [cacheAssemblyTypes] returns, every type of the cohort has an
    interned name.  When no member has the address of a type of the
    cohort, the name interned for a type is the one it had, if it had
    one, and its own name otherwise, and every member of a type that
    had no interned name has one now: a type is interned once, with
    its members. *)
Theorem cacheAssemblyTypes_interns (assemblyPtr : ptr) (types : list ptr)
  (s s' : State) :
  cacheAssemblyTypes assemblyPtr types s = Ok tt s' ->
  (forall t, t ∈ types -> is_Some (memberInfoName s' !! t)) /\
  ((forall t u, t ∈ types -> u ∈ types -> t ∉ (members (typeAt u)).*1) ->
   forall t, t ∈ types ->
     memberInfoName s' !! t
     = Some (default (getName (typeAt t)) (memberInfoName s !! t)) /\
     (memberInfoName s !! t = None ->
      forall mi, mi ∈ members (typeAt t) -> is_Some (memberInfoName s' !! mi.1))).
Proof.
  rewrite cacheAssemblyTypes_unfold.
  destruct (ordinalTypes (assembly s)); [discriminate|].
  intros Hrun. apply bind_Ok_inv in Hrun as ([] & s1 & Hloop & Hassert).
  destruct (assertFastTypes_outcome s1) as [Hok|[msg Hbad]];
    [|rewrite Hbad in Hassert; discriminate].
  rewrite Hok in Hassert. injection Hassert as <-.
  apply forEach_cacheType_interns in Hloop.
  change (memberInfoName (prepared assemblyPtr types s)) with (memberInfoName s) in Hloop.
  rewrite Hloop. clear Hloop Hok. split.
  - intros t Ht. apply list_elem_of_split in Ht as (before & after & ->).
    rewrite foldl_app. cbn [foldl]. apply internAll_present, intern_self.
  - intros Hsep t Ht. split.
    + rewrite internAll_type by (intros u Hu; by apply Hsep).
      destruct (memberInfoName s !! t); [done|]. by rewrite decide_True.
    + intros Hnone mi Hmi.
      apply list_elem_of_split_l in Ht as (before & after & Hsplit & Hfirst).
      rewrite Hsplit, foldl_app. cbn [foldl]. apply internAll_present.
      unfold intern at 1.
      rewrite internAll_type.
      * rewrite Hnone, decide_False by done. by apply internMembers_member.
      * intros u Hu. apply Hsep; [|rewrite Hsplit; apply elem_of_app; by left].
        rewrite Hsplit. apply elem_of_app. right. by left.
Qed.

End InterningProofs.

Lemma cacheAssemblyTypes_interns_witness :
  (forall t, t ∈ builtinCohort -> is_Some (memberInfoName cachedState !! t)) /\
  ((forall t u, t ∈ builtinCohort -> u ∈ builtinCohort ->
                t ∉ (members (builtinAt u)).*1) ->
   forall t, t ∈ builtinCohort ->
     memberInfoName cachedState !! t
     = Some (default (getName (builtinAt t)) (memberInfoName emptyState !! t)) /\
     (memberInfoName emptyState !! t = None ->
      forall mi, mi ∈ members (builtinAt t) ->
                 is_Some (memberInfoName cachedState !! mi.1))).
Proof.
  apply (cacheAssemblyTypes_interns builtinAt 1%N builtinCohort emptyState cachedState).
  vm_compute. reflexivity.
Defined.

End CacheProofs.

(** ** Finalising an assembly: missing types, compaction, declare, initialize *)

Module Loader.
Import Reflection.

(** What the loader asks of a [NativeTypeBase]: [isManaged()],
    [getCTypeName()], and whether [validate(type)] accepts the type (it
    stops the load when it does not). *)
Record NativeTypeBase : Type := mkNative {
  isManaged : bool;
  ntbCTypeName : string;
  validate : LSType -> bool
}.

(** Calls into the VM and the native interface, in the order they are
    made. *)
Inductive event : Type :=
| EvResolveScriptType (type : ptr)
| EvDeclareClass (type : ptr)
| EvValidateNative (type : ptr)
| EvCache (type : ptr)
| EvInitializeClass (type : ptr)
| EvInitializeStatic (type : ptr)
| EvValidateRT (type : ptr)
| EvBootstrap (assembly : ptr).

(** The [Type] objects by address, the types each [Module] has
    registered, and the calls made so far. *)
Record State : Type := mkState {
  heap : gmap ptr LSType;
  modules : gmap ptr (list ptr);
  trace : list event
}.

Definition set_heap (v : gmap ptr LSType) (s : State) : State :=
  mkState v (modules s) (trace s).
Definition set_modules (v : gmap ptr (list ptr)) (s : State) : State :=
  mkState (heap s) v (trace s).
Definition set_trace (v : list event) (s : State) : State :=
  mkState (heap s) (modules s) v.

Definition emit (e : event) : M State unit :=
  modify (fun s => set_trace (trace s ++ [e]) s).

(** *** Reading and writing types through pointers *)

(** What the model reads through a pointer that is not allocated (in
    C++ the read is undefined). *)
Definition blank : LSType :=
  mkType "" "" 0 NULL [] None false false false "" NULL [].

Definition typeAt (h : gmap ptr LSType) (p : ptr) : LSType :=
  match h !! p with
  | Some t => t
  | None => blank
  end.

(** [type->getMissing()]. *)
Definition getMissing (h : gmap ptr LSType) (p : ptr) : bool :=
  match missing (typeAt h p) with
  | Some _ => true
  | None => false
  end.

Definition withMissing (reason : string) (t : LSType) : LSType :=
  mkType (getName t) (getFullName t) (getTypeID t) (getBaseType t) (getImports t)
    (Some reason) (isNative t) (hasStaticNativeMember t) (isNativeManaged t)
    (getCTypeName t) (getModule t) (members t).

Definition withCTypeName (name : string) (t : LSType) : LSType :=
  mkType (getName t) (getFullName t) (getTypeID t) (getBaseType t) (getImports t)
    (missing t) (isNative t) (hasStaticNativeMember t) (isNativeManaged t)
    name (getModule t) (members t).

(** [type->setMissing(reason)]. *)
Definition setMissing (h : gmap ptr LSType) (p : ptr) (reason : string)
  : gmap ptr LSType :=
  alter (withMissing reason) p h.

(** [type->setCTypeName(name)]. *)
Definition setCTypeName (h : gmap ptr LSType) (p : ptr) (name : string)
  : gmap ptr LSType :=
  alter (withCTypeName name) p h.

Definition isNull (p : ptr) : bool := bool_decide (p = NULL).

(** *** Marking missing types *)

(** The walk up the base types in [finalizeAssemblyLoad]:
    [while (search) { if (search->getMissing()) ... search =
    search->getBaseType(); }].  One unit of fuel per turn. *)
Fixpoint searchMissing (fuel : nat) (h : gmap ptr LSType) (search : ptr)
  : option bool :=
  match fuel with
  | O => None
  | S fuel' =>
      if isNull search then Some false
      else if getMissing h search then Some true
      else searchMissing fuel' h (getBaseType (typeAt h search))
  end.

(** The loop over the imports in [finalizeAssemblyLoad]. *)
Definition importMissing (h : gmap ptr LSType) (incomplete : bool)
  (imports : list ptr) : bool :=
  foldl (fun inc import => if getMissing h import then true else inc)
    incomplete imports.

(** The loop over the imports in [markImportedMissing], up to its
    [break]: whether [missing] is one of them. *)
Fixpoint importsType (imports : list ptr) (missing : ptr) : bool :=
  match imports with
  | [] => false
  | import :: rest =>
      if bool_decide (import = missing) then true else importsType rest missing
  end.

Definition missingImport (h : gmap ptr LSType) (missing : ptr) : string :=
  "missing import " +:+ getFullName (typeAt h missing).

(** The loop of [markImportedMissing(types, missing)] over the types
    from index [i] on; [recurse] is the nested call
    [markImportedMissing(types, type)]. *)
Fixpoint markLoop (recurse : ptr -> gmap ptr LSType -> option (gmap ptr LSType))
  (missing : ptr) (rest : list ptr) (h : gmap ptr LSType)
  : option (gmap ptr LSType) :=
  match rest with
  | [] => Some h
  | type :: rest' =>
      if getMissing h type then markLoop recurse missing rest' h
      else if importsType (getImports (typeAt h type)) missing then
        match recurse type (setMissing h type (missingImport h missing)) with
        | Some h' => markLoop recurse missing rest' h'
        | None => None
        end
      else markLoop recurse missing rest' h
  end.

(** [markImportedMissing(types, missing)].  One unit of fuel per
    nested call. *)
Fixpoint markImportedMissing (fuel : nat) (types : list ptr) (missing : ptr)
  (h : gmap ptr LSType) : option (gmap ptr LSType) :=
  match fuel with
  | O => None
  | S fuel' => markLoop (markImportedMissing fuel' types) missing types h
  end.

(** The loop of [finalizeAssemblyLoad] that finds the incomplete
    types, over the types from index [j] on; the value is the heap and
    [shrink]. *)
Fixpoint markIncomplete (fuel : nat) (types rest : list ptr)
  (h : gmap ptr LSType) (shrink : bool) : option (gmap ptr LSType * bool) :=
  match rest with
  | [] => Some (h, shrink)
  | type :: rest' =>
      match searchMissing fuel h type with
      | None => None
      | Some incomplete =>
          if importMissing h incomplete (getImports (typeAt h type)) then
            match markImportedMissing fuel types type
                    (setMissing h type "incomplete") with
            | Some h' => markIncomplete fuel types rest' h' true
            | None => None
            end
          else markIncomplete fuel types rest' h shrink
      end
  end.

(** *** Compaction *)

(** [module->removeType(type)]: the module forgets the type. *)
Definition removeType (m type : ptr) : M State unit :=
  modify (fun s => set_modules
                     (alter (filter (fun t => t <> type)) m (modules s)) s).

(** [lmDelete(NULL, type)]. *)
Definition lmDelete (type : ptr) : M State unit :=
  s <- get ;;
  match heap s !! type with
  | Some _ => put (set_heap (delete type (heap s)) s)
  | None => raise (Undefined "lmDelete of a block that is not allocated")
  end.

(** The compaction loop, [n] turns from index [j] on; the value is
    [firstFree] and the array. *)
Fixpoint compactFrom (n j firstFree : nat) (types : list ptr)
  : M State (nat * list ptr) :=
  match n with
  | O => ret (firstFree, types)
  | S n' =>
      match types !! j with
      | None => raise (Undefined "index past the end of types")
      | Some type =>
          s <- get ;;
          if negb (getMissing (heap s) type) then
            compactFrom n' (S j) (S firstFree) (<[firstFree := type]> types)
          else
            removeType (getModule (typeAt (heap s) type)) type ;;
            lmDelete type ;;
            compactFrom n' (S j) firstFree (<[j := NULL]> types)
      end
  end.

(** The block under [if (shrink)]: the loop, then
    [types.resize(firstFree)]. *)
Definition compactTypes (types : list ptr) : M State (list ptr) :=
  r <- compactFrom (length types) 0 0 types ;;
  ret (take r.1 r.2).

Section Pipeline.

(** [NativeInterface::getNativeType(type)]: the binding registered
    for the type, if there is one. *)
Variable getNativeType : ptr -> option NativeTypeBase.

(** What [NativeInterface::resolveScriptType(type)] does to the
    types. *)
Variable resolveScriptType : ptr -> gmap ptr LSType -> gmap ptr LSType.

(** The runtime validation is compiled in on OSX and Windows only. *)
Variable developmentPlatform : bool.

Definition usesNative (t : LSType) : bool :=
  isNative t || hasStaticNativeMember t.

Definition managedMismatch (t : LSType) : string :=
  if isNativeManaged t then
    "Managed mismatch for type " +:+ getFullName t +:+
    ", script declaration specifies managed while native bindings are unmanaged"
  else
    "Managed mismatch for type " +:+ getFullName t +:+
    ", script declaration specifies unmanaged while native bindings are managed".

(** The body of the second loop of [declareLuaTypes]. *)
Definition bindNative (type : ptr) : M State unit :=
  s <- get ;;
  let t := typeAt (heap s) type in
  if getMissing (heap s) type then ret tt
  else if usesNative t then
    match getNativeType type with
    | None => LSError ("Unable to get NativeTypeBase for type " +:+ getFullName t)
    | Some ntb =>
        (if negb (Bool.eqb (isNativeManaged t) (isManaged ntb))
         then LSError (managedMismatch t)
         else ret tt) ;;
        emit (EvValidateNative type) ;;
        (if validate ntb t then ret tt
         else LSError ("Native type validation failed for type " +:+ getFullName t)) ;;
        modify (fun s => set_heap (setCTypeName (heap s) type (ntbCTypeName ntb)) s)
    end
  else ret tt.

(** A call per type that is not missing: the shape of the other
    loops of [declareLuaTypes] and [initializeLuaTypes]. *)
Definition unlessMissing (call : ptr -> event) (type : ptr) : M State unit :=
  s <- get ;;
  if getMissing (heap s) type then ret tt else emit (call type).

(** [LSLuaState::declareLuaTypes(types)]. *)
Definition declareLuaTypes (types : list ptr) : M State unit :=
  forEach (unlessMissing EvDeclareClass) types ;;
  forEach bindNative types.

(** [LSLuaState::initializeLuaTypes(types)]. *)
Definition initializeLuaTypes (types : list ptr) : M State unit :=
  forEach (unlessMissing EvCache) types ;;
  forEach (unlessMissing EvInitializeClass) types ;;
  forEach (unlessMissing EvInitializeStatic) types.

(** The body of the first loop of [finalizeAssemblyLoad]. *)
Definition resolveNative (type : ptr) : M State unit :=
  s <- get ;;
  if usesNative (typeAt (heap s) type) then
    emit (EvResolveScriptType type) ;;
    modify (fun s => set_heap (resolveScriptType type (heap s)) s)
  else ret tt.

(** The marking loop, run on the state. *)
Definition markMissing (fuel : nat) (types : list ptr) : M State bool :=
  s <- get ;;
  match markIncomplete fuel types types (heap s) false with
  | None => raise OutOfFuel
  | Some (h, shrink) => put (set_heap h s) ;; ret shrink
  end.

(** The first half of [finalizeAssemblyLoad]: native resolution, the
    marking loop, and the compaction under [if (shrink)]; the value
    is the array [types] as it stands then. *)
Definition pruneMissingTypes (fuel : nat) (types : list ptr) : M State (list ptr) :=
  forEach resolveNative types ;;
  shrink <- markMissing fuel types ;;
  if shrink : bool then compactTypes types else ret types.

(** The second half: declare, initialize, the runtime validation
    and the bootstrap of the assembly. *)
Definition bringUp (assembly : ptr) (types : list ptr) : M State unit :=
  declareLuaTypes types ;;
  initializeLuaTypes types ;;
  (if developmentPlatform then forEach (fun type => emit (EvValidateRT type)) types
   else ret tt) ;;
  emit (EvBootstrap assembly).

(** [LSLuaState::finalizeAssemblyLoad(assembly, types)]; the value is
    the array [types] as the call leaves it. *)
Definition finalizeAssemblyLoad (fuel : nat) (assembly : ptr) (types : list ptr)
  : M State (list ptr) :=
  types <- pruneMissingTypes fuel types ;;
  bringUp assembly types ;;
  ret types.

End Pipeline.

(** The types of a cohort that are not missing, in the order of the
    cohort. *)
Definition live (h : gmap ptr LSType) (types : list ptr) : list ptr :=
  filter (fun t => getMissing h t = false) types.

End Loader.

Module LoaderProofs.
Import Reflection Loader.

(** *** Types read through the heap *)

(** Two descriptors that differ in the C type name at most. *)
Definition sameButCTypeName (a b : LSType) : Prop :=
  withCTypeName "" a = withCTypeName "" b.

Lemma sameButCTypeName_fields a b :
  sameButCTypeName a b ->
  missing a = missing b /\ getFullName a = getFullName b /\
  isNative a = isNative b /\ hasStaticNativeMember a = hasStaticNativeMember b /\
  isNativeManaged a = isNativeManaged b.
Proof. unfold sameButCTypeName, withCTypeName. intros [= ]. done. Qed.

Lemma typeAt_setCTypeName h p name q :
  sameButCTypeName (typeAt (setCTypeName h p name) q) (typeAt h q).
Proof.
  unfold typeAt, setCTypeName. rewrite lookup_alter.
  destruct (decide (p = q)) as [->|]; [|done].
  destruct (h !! q); done.
Qed.

Lemma getMissing_same a b h h' p q :
  sameButCTypeName (typeAt h' p) (typeAt h q) -> a = getMissing h' p ->
  b = getMissing h q -> a = b.
Proof.
  intros Hs -> ->. unfold getMissing.
  by destruct (sameButCTypeName_fields _ _ Hs) as (-> & _).
Qed.

(** *** The loops that make one call per type *)

Lemma set_trace_set_trace t1 t2 s : set_trace t2 (set_trace t1 s) = set_trace t2 s.
Proof. by destruct s. Qed.

Lemma forEach_unlessMissing call types : forall s,
  forEach (unlessMissing call) types s
  = Ok tt (set_trace (trace s ++ (call <$> live (heap s) types)) s).
Proof.
  induction types as [|t types IH]; intros s.
  - destruct s. cbn. by rewrite app_nil_r.
  - cbn [forEach]. unfold bind at 1, unlessMissing at 1, bind at 1, get at 1.
    unfold live. destruct (getMissing (heap s) t) eqn:Hm.
    + unfold ret at 1. rewrite IH. rewrite filter_cons_False by congruence. done.
    + unfold emit, modify. rewrite IH. cbn [heap trace set_trace].
      rewrite filter_cons_True by done. rewrite set_trace_set_trace.
      cbn [fmap list_fmap]. by rewrite <- app_assoc.
Qed.

Section PipelineProofs.

Variable getNativeType : ptr -> option NativeTypeBase.
Variable resolveScriptType : ptr -> gmap ptr LSType -> gmap ptr LSType.
Variable developmentPlatform : bool.

Local Abbreviation bindNative := (bindNative getNativeType).
Local Abbreviation declareLuaTypes := (declareLuaTypes getNativeType).

(** What the second loop of [declareLuaTypes] can have done between
    two states: calls of [validate], and C type names set. *)
Definition nativePass (s s' : State) : Prop :=
  modules s' = modules s /\
  (forall q, sameButCTypeName (typeAt (heap s') q) (typeAt (heap s) q)) /\
  exists natives, trace s' = trace s ++ (EvValidateNative <$> natives).

Lemma nativePass_refl s : nativePass s s.
Proof. repeat split. exists []. cbn. by rewrite app_nil_r. Qed.

Lemma nativePass_trans s1 s2 s3 :
  nativePass s1 s2 -> nativePass s2 s3 -> nativePass s1 s3.
Proof.
  intros (Hm1 & Hh1 & n1 & Ht1) (Hm2 & Hh2 & n2 & Ht2).
  split; [congruence|]. split.
  - intros q. unfold sameButCTypeName in *. by rewrite Hh2.
  - exists (n1 ++ n2). rewrite Ht2, Ht1, fmap_app. by rewrite <- app_assoc.
Qed.

Lemma nativePass_live s s' types :
  nativePass s s' -> live (heap s') types = live (heap s) types.
Proof.
  intros (_ & Hh & _). unfold live. apply list_filter_iff. intros t.
  by rewrite (getMissing_same _ _ _ _ _ _ (Hh t) eq_refl eq_refl).
Qed.

(** One turn of the second loop, case by case. *)
Lemma bindNative_unfold t s :
  bindNative t s =
    let ty := typeAt (heap s) t in
    if getMissing (heap s) t then Ok tt s
    else if usesNative ty then
      match getNativeType t with
      | None =>
          Fail (FatalError ("Unable to get NativeTypeBase for type " +:+ getFullName ty)) s
      | Some ntb =>
          if negb (Bool.eqb (isNativeManaged ty) (isManaged ntb))
          then Fail (FatalError (managedMismatch ty)) s
          else
            let s1 := set_trace (trace s ++ [EvValidateNative t]) s in
            if validate ntb ty
            then Ok tt (set_heap (setCTypeName (heap s) t (ntbCTypeName ntb)) s1)
            else Fail (FatalError ("Native type validation failed for type "
                                   +:+ getFullName ty)) s1
      end
    else Ok tt s.
Proof.
  unfold Loader.bindNative, bind at 1, get at 1. cbn zeta.
  destruct (getMissing (heap s) t); [done|].
  destruct (usesNative (typeAt (heap s) t)); [|done].
  destruct (getNativeType t) as [ntb|]; [|done].
  unfold bind at 1.
  destruct (negb (Bool.eqb _ _)); [done|].
  unfold ret at 1. unfold bind at 1, emit at 1, modify at 1. unfold bind at 1.
  destruct (validate ntb (typeAt (heap s) t)); done.
Qed.

(** One turn of the second loop: it returns or stops with a fatal
    error, and either way it is a [nativePass]. *)
Lemma bindNative_outcome t s :
  exists s', nativePass s s' /\
    (bindNative t s = Ok tt s' \/ exists msg, bindNative t s = Fail (FatalError msg) s').
Proof.
  rewrite bindNative_unfold. cbn zeta.
  destruct (getMissing (heap s) t).
  { exists s. split; [apply nativePass_refl|by left]. }
  destruct (usesNative (typeAt (heap s) t)).
  2:{ exists s. split; [apply nativePass_refl|by left]. }
  destruct (getNativeType t) as [ntb|].
  2:{ exists s. split; [apply nativePass_refl|right; by eexists]. }
  destruct (negb (Bool.eqb _ _)).
  { exists s. split; [apply nativePass_refl|right; by eexists]. }
  destruct (validate ntb (typeAt (heap s) t)).
  - eexists. split; [|left; reflexivity].
    repeat split; cbn [heap trace modules set_heap set_trace].
    + intros q. apply typeAt_setCTypeName.
    + by exists [t].
  - eexists. split; [|right; eexists; reflexivity].
    repeat split; cbn [heap trace modules set_heap set_trace]. by exists [t].
Qed.

Lemma forEach_bindNative_outcome types : forall s,
  exists s', nativePass s s' /\
    (forEach bindNative types s = Ok tt s' \/
     exists msg, forEach bindNative types s = Fail (FatalError msg) s').
Proof.
  induction types as [|t types IH]; intros s.
  - exists s. split; [apply nativePass_refl|by left].
  - destruct (bindNative_outcome t s) as (s1 & Hp1 & [Hok|[msg Hbad]]).
    + destruct (IH s1) as (s2 & Hp2 & Hrest). exists s2.
      split; [by eapply nativePass_trans|].
      cbn [forEach]. by rewrite (bind_Ok _ _ _ _ _ Hok).
    + exists s1. split; [done|]. right. exists msg.
      cbn [forEach]. by rewrite (bind_Fail _ _ _ _ _ Hbad).
Qed.

(** The script declaration and the native binding of [t] disagree on
    managed. *)
Definition managedDisagree (h : gmap ptr LSType) (t : ptr) : Prop :=
  getMissing h t = false /\ usesNative (typeAt h t) = true /\
  exists ntb, getNativeType t = Some ntb /\
              isNativeManaged (typeAt h t) <> isManaged ntb.

Lemma managedDisagree_pass s s' t :
  nativePass s s' -> managedDisagree (heap s) t -> managedDisagree (heap s') t.
Proof.
  intros (_ & Hh & _) (Hm & Hn & ntb & Hntb & Hne).
  destruct (sameButCTypeName_fields _ _ (Hh t)) as (Hmiss & _ & Hnat & Hstat & Hman).
  split; [|split].
  - unfold getMissing in *. by rewrite Hmiss.
  - unfold usesNative in *. by rewrite Hnat, Hstat.
  - exists ntb. split; [done|]. by rewrite Hman.
Qed.

Lemma managedMismatch_pass s s' t :
  nativePass s s' ->
  managedMismatch (typeAt (heap s') t) = managedMismatch (typeAt (heap s) t).
Proof.
  intros (_ & Hh & _).
  destruct (sameButCTypeName_fields _ _ (Hh t)) as (_ & Hname & _ & _ & Hman).
  unfold managedMismatch. by rewrite Hname, Hman.
Qed.

Lemma bindNative_mismatch t s :
  managedDisagree (heap s) t ->
  bindNative t s = Fail (FatalError (managedMismatch (typeAt (heap s) t))) s.
Proof.
  intros (Hm & Hn & ntb & Hntb & Hne).
  rewrite bindNative_unfold. cbn zeta. rewrite Hm, Hn, Hntb.
  destruct (Bool.eqb _ _) eqn:E; [by apply Bool.eqb_prop in E|].
  reflexivity.
Qed.

(** The second loop does not get past a type whose binding disagrees
    on managed; when it gets as far as that type, the message is the
    one of the mismatch. *)
Lemma forEach_bindNative_mismatch before t after : forall s,
  managedDisagree (heap s) t ->
  exists msg s', nativePass s s' /\
    forEach bindNative (before ++ t :: after) s = Fail (FatalError msg) s' /\
    ((exists s1, forEach bindNative before s = Ok tt s1) ->
     msg = managedMismatch (typeAt (heap s) t)).
Proof.
  induction before as [|u before IH]; intros s Hdis.
  - exists (managedMismatch (typeAt (heap s) t)), s.
    split; [apply nativePass_refl|]. split; [|done].
    cbn [app forEach]. by rewrite (bind_Fail _ _ _ _ _ (bindNative_mismatch t s Hdis)).
  - destruct (bindNative_outcome u s) as (s1 & Hp1 & [Hok|[msg Hbad]]).
    + destruct (IH s1 (managedDisagree_pass _ _ _ Hp1 Hdis))
        as (msg & s2 & Hp2 & Hrun & Hmsg).
      exists msg, s2. split; [by eapply nativePass_trans|].
      cbn [app forEach]. rewrite (bind_Ok _ _ _ _ _ Hok). split; [done|].
      intros (s3 & Hpast). cbn [forEach] in Hpast.
      rewrite (bind_Ok _ _ _ _ _ Hok) in Hpast.
      rewrite <- (managedMismatch_pass _ _ _ Hp1). apply Hmsg. by exists s3.
    + exists msg, s1. split; [done|].
      cbn [app forEach]. rewrite (bind_Fail _ _ _ _ _ Hbad). split; [done|].
      intros (s3 & Hpast). cbn [forEach] in Hpast.
      rewrite (bind_Fail _ _ _ _ _ Hbad) in Hpast. discriminate.
Qed.

End PipelineProofs.

Section BringUpProofs.

Variable getNativeType : ptr -> option NativeTypeBase.
Variable resolveScriptType : ptr -> gmap ptr LSType -> gmap ptr LSType.
Variable developmentPlatform : bool.

Local Abbreviation bindNative := (bindNative getNativeType).
Local Abbreviation declareLuaTypes := (declareLuaTypes getNativeType).
Local Abbreviation bringUp := (bringUp getNativeType developmentPlatform).
Local Abbreviation pruneMissingTypes := (pruneMissingTypes resolveScriptType).
Local Abbreviation finalizeAssemblyLoad :=
  (finalizeAssemblyLoad getNativeType resolveScriptType developmentPlatform).

(** The state after the first loop of [declareLuaTypes]. *)
Definition declared (types : list ptr) (s : State) : State :=
  set_trace (trace s ++ (EvDeclareClass <$> live (heap s) types)) s.

Lemma forEach_emit (call : ptr -> event) types : forall s,
  forEach (fun t => emit (call t)) types s
  = Ok tt (set_trace (trace s ++ (call <$> types)) s).
Proof.
  induction types as [|t types IH]; intros s.
  - destruct s. cbn. by rewrite app_nil_r.
  - cbn [forEach]. unfold bind at 1, emit at 1, modify at 1. rewrite IH.
    cbn [trace set_trace]. rewrite set_trace_set_trace.
    cbn [fmap list_fmap]. by rewrite <- app_assoc.
Qed.

Lemma declareLuaTypes_outcome types s :
  exists s1, nativePass (declared types s) s1 /\
    (declareLuaTypes types s = Ok tt s1 \/
     exists msg, declareLuaTypes types s = Fail (FatalError msg) s1).
Proof.
  unfold Loader.declareLuaTypes.
  rewrite (bind_Ok _ _ _ _ _ (forEach_unlessMissing EvDeclareClass types s)).
  apply forEach_bindNative_outcome.
Qed.

(** The calls of [initializeLuaTypes] on a cohort. *)
Definition initializeCalls (cohort : list ptr) : list event :=
  (EvCache <$> cohort) ++ (EvInitializeClass <$> cohort)
  ++ (EvInitializeStatic <$> cohort).

Lemma initializeLuaTypes_trace types s :
  initializeLuaTypes types s
  = Ok tt (set_trace (trace s ++ initializeCalls (live (heap s) types)) s).
Proof.
  unfold initializeLuaTypes, initializeCalls.
  rewrite (bind_Ok _ _ _ _ _ (forEach_unlessMissing EvCache types s)).
  rewrite (bind_Ok _ _ _ _ _ (forEach_unlessMissing EvInitializeClass types _)).
  rewrite forEach_unlessMissing.
  cbn [heap trace set_trace]. rewrite !set_trace_set_trace.
  by rewrite <- !app_assoc.
Qed.

(** The calls that follow [initializeLuaTypes] in
    [finalizeAssemblyLoad]. *)
Definition closingCalls (assembly : ptr) (types : list ptr) : list event :=
  (if developmentPlatform then EvValidateRT <$> types else [])
  ++ [EvBootstrap assembly].

Lemma bringUp_outcome assembly types s :
  exists natives s',
    (bringUp assembly types s = Ok tt s' /\
     trace s' = trace s ++ (EvDeclareClass <$> live (heap s) types)
                  ++ (EvValidateNative <$> natives)
                  ++ initializeCalls (live (heap s) types)
                  ++ closingCalls assembly types)
    \/
    (exists msg, bringUp assembly types s = Fail (FatalError msg) s' /\
     trace s' = trace s ++ (EvDeclareClass <$> live (heap s) types)
                  ++ (EvValidateNative <$> natives)).
Proof.
  destruct (declareLuaTypes_outcome types s) as (s1 & Hpass & [Hok|[msg Hbad]]);
    pose proof Hpass as (_ & _ & natives & Htr1); exists natives.
  - assert (Hlive : live (heap s1) types = live (heap s) types)
      by apply (nativePass_live _ _ _ Hpass).
    unfold Loader.bringUp.
    rewrite (bind_Ok _ _ _ _ _ Hok).
    rewrite (bind_Ok _ _ _ _ _ (initializeLuaTypes_trace types s1)).
    unfold closingCalls. destruct developmentPlatform.
    + rewrite (bind_Ok _ _ _ _ _ (forEach_emit EvValidateRT types _)).
      unfold emit, modify. eexists. left. split; [reflexivity|].
      cbn [trace set_trace]. rewrite Htr1, Hlive.
      unfold declared. cbn [trace set_trace]. by rewrite <- !app_assoc.
    + unfold bind at 1, ret at 1. unfold emit, modify.
      eexists. left. split; [reflexivity|].
      cbn [trace set_trace]. rewrite Htr1, Hlive.
      unfold declared. cbn [trace set_trace]. by rewrite <- !app_assoc.
  - exists s1. right. exists msg.
    unfold Loader.bringUp. rewrite (bind_Fail _ _ _ _ _ Hbad).
    split; [reflexivity|]. rewrite Htr1. unfold declared.
    cbn [trace set_trace]. by rewrite <- !app_assoc.
Qed.

(** C4.  Whatever the cohort and the state, the second half of
    [finalizeAssemblyLoad] makes its calls in phases that span the
    whole cohort of types that are not missing: first [declareClass]
    for every type, then the native validations, then [cache] for
    every type, then [initializeClass] for every type, then the
    static initializer of every type, each phase in declaration
    order, then the runtime validation and the bootstrap; when a
    native check stops the load, the calls made are all the declares
    and some validations, and no initialize call.  A
    [finalizeAssemblyLoad] that returns has run these phases on the
    array the pruning left. *)
Theorem finalize_phases_ordered (assembly : ptr) (types : list ptr) (s : State) :
  (exists natives s',
    (bringUp assembly types s = Ok tt s' /\
     trace s' = trace s ++ (EvDeclareClass <$> live (heap s) types)
                  ++ (EvValidateNative <$> natives)
                  ++ (EvCache <$> live (heap s) types)
                  ++ (EvInitializeClass <$> live (heap s) types)
                  ++ (EvInitializeStatic <$> live (heap s) types)
                  ++ closingCalls assembly types)
    \/
    (exists msg, bringUp assembly types s = Fail (FatalError msg) s' /\
     trace s' = trace s ++ (EvDeclareClass <$> live (heap s) types)
                  ++ (EvValidateNative <$> natives))) /\
  (forall fuel types' s',
    finalizeAssemblyLoad fuel assembly types s = Ok types' s' ->
    exists s1 natives,
      pruneMissingTypes fuel types s = Ok types' s1 /\
      trace s' = trace s1 ++ (EvDeclareClass <$> live (heap s1) types')
                   ++ (EvValidateNative <$> natives)
                   ++ (EvCache <$> live (heap s1) types')
                   ++ (EvInitializeClass <$> live (heap s1) types')
                   ++ (EvInitializeStatic <$> live (heap s1) types')
                   ++ closingCalls assembly types').
Proof.
  split.
  - destruct (bringUp_outcome assembly types s) as (natives & s' & H).
    exists natives, s'. unfold initializeCalls in H.
    destruct H as [[Hrun Htr]|(msg & Hrun & Htr)]; [left|right; exists msg];
      (split; [done|]); rewrite Htr; by rewrite <- ?app_assoc.
  - intros fuel types' s' Hfin. unfold Loader.finalizeAssemblyLoad in Hfin.
    apply bind_Ok_inv in Hfin as (pruned & s1 & Hprune & Hfin).
    apply bind_Ok_inv in Hfin as ([] & s2 & Hup & Hret).
    unfold ret in Hret. injection Hret as -> ->.
    exists s1.
    destruct (bringUp_outcome assembly types' s1) as (natives & s2' & H).
    exists natives. split; [done|].
    destruct H as [[Hrun Htr]|(msg & Hrun & Htr)].
    + rewrite Hup in Hrun. injection Hrun as <-. rewrite Htr.
      unfold initializeCalls. by rewrite <- ?app_assoc.
    + rewrite Hup in Hrun. discriminate.
Qed.

(** C3 (as the code has it).  When the array the pruning left holds a
    type that is not missing, is native or has a static native
    member, and whose registered binding disagrees with its
    declaration on managed, the load stops with a fatal error in the
    second loop of [declareLuaTypes]: [declareClass] has run for
    every type of the cohort that is not missing, some native
    validations may have run, and no initialize step has.  When the
    second loop gets past the types before that one, the message is
    the managed mismatch message, which names the type and tells
    which side said managed and which unmanaged. *)
Theorem managed_mismatch_stops_load (fuel : nat) (assembly : ptr)
  (types pruned before after : list ptr) (t : ptr) (s s1 : State) :
  pruneMissingTypes fuel types s = Ok pruned s1 ->
  pruned = before ++ t :: after ->
  managedDisagree getNativeType (heap s1) t ->
  exists msg s' natives,
    finalizeAssemblyLoad fuel assembly types s = Fail (FatalError msg) s' /\
    trace s' = trace s1 ++ (EvDeclareClass <$> live (heap s1) pruned)
                 ++ (EvValidateNative <$> natives) /\
    ((exists s2, forEach bindNative before (declared pruned s1) = Ok tt s2) ->
     msg = managedMismatch (typeAt (heap s1) t)).
Proof.
  intros Hprune -> Hdis.
  destruct (forEach_bindNative_mismatch getNativeType before t after
              (declared (before ++ t :: after) s1) Hdis)
    as (msg & s' & Hpass & Hrun & Hmsg).
  pose proof Hpass as (_ & _ & natives & Htr).
  exists msg, s', natives. split; [|split].
  - unfold Loader.finalizeAssemblyLoad. rewrite (bind_Ok _ _ _ _ _ Hprune).
    apply bind_Fail. unfold Loader.bringUp. apply bind_Fail.
    unfold Loader.declareLuaTypes.
    by rewrite (bind_Ok _ _ _ _ _
                  (forEach_unlessMissing EvDeclareClass (before ++ t :: after) s1)).
  - rewrite Htr. unfold declared. cbn [trace set_trace]. by rewrite <- !app_assoc.
  - exact Hmsg.
Qed.

End BringUpProofs.

(** *** Compaction *)

(** The types of a cohort that are missing, in the order of the cohort. *)
Definition dead (h : gmap ptr LSType) (types : list ptr) : list ptr :=
  filter (fun t => getMissing h t = true) types.

(** The heap after the types [l] were released. *)
Definition releaseAll (l : list ptr) (h : gmap ptr LSType) : gmap ptr LSType :=
  foldl (fun h t => delete t h) h l.

(** The modules after each type of [l] was taken out of its module;
    [h] tells which module that is. *)
Definition unregisterAll (h : gmap ptr LSType) (l : list ptr)
  (m : gmap ptr (list ptr)) : gmap ptr (list ptr) :=
  foldl (fun m t => alter (filter (fun u => u <> t)) (getModule (typeAt h t)) m) m l.

Lemma live_app h l1 l2 : live h (l1 ++ l2) = live h l1 ++ live h l2.
Proof. apply filter_app. Qed.

Lemma live_snoc_live h l t :
  getMissing h t = false -> live h (l ++ [t]) = live h l ++ [t].
Proof. intros H. rewrite live_app. unfold live. by rewrite (filter_cons_True _ t []). Qed.

Lemma live_snoc_dead h l t :
  getMissing h t = true -> live h (l ++ [t]) = live h l.
Proof.
  intros H. rewrite live_app. unfold live.
  rewrite (filter_cons_False _ t []) by congruence. by rewrite app_nil_r.
Qed.

Lemma dead_cons_live h t l : getMissing h t = false -> dead h (t :: l) = dead h l.
Proof. intros H. unfold dead. rewrite filter_cons_False; [done|congruence]. Qed.

Lemma dead_cons_dead h t l : getMissing h t = true -> dead h (t :: l) = t :: dead h l.
Proof. intros H. unfold dead. by rewrite filter_cons_True. Qed.

Lemma live_dead_length h l : (length (live h l) + length (dead h l) = length l)%nat.
Proof.
  induction l as [|t l IH]; [done|]. unfold live, dead in *.
  destruct (getMissing h t) eqn:Hm.
  - rewrite filter_cons_False by congruence. rewrite filter_cons_True by done.
    cbn [length]. lia.
  - rewrite filter_cons_True by done. rewrite filter_cons_False by congruence.
    cbn [length]. lia.
Qed.

Lemma getMissing_lookup h h' t :
  h' !! t = h !! t -> getMissing h' t = getMissing h t.
Proof. intros H. unfold getMissing, typeAt. by rewrite H. Qed.

Lemma getMissing_allocated h t : getMissing h t = true -> is_Some (h !! t).
Proof.
  unfold getMissing, typeAt. destruct (h !! t); [by eexists|]. discriminate.
Qed.

Lemma NoDup_lookup_drop (l : list ptr) j t :
  NoDup l -> l !! j = Some t -> t ∉ drop (S j) l.
Proof.
  intros Hnd Hj Hin. rewrite <- (take_drop_middle l j t Hj) in Hnd.
  apply NoDup_app in Hnd as (_ & _ & Hnd). apply NoDup_cons in Hnd as [Hn _].
  contradiction.
Qed.

Lemma drop_S_eq (a b : list ptr) j : drop j a = drop j b -> drop (S j) a = drop (S j) b.
Proof.
  intros H. rewrite <- !(Nat.add_1_r j), <- !drop_drop. by rewrite H.
Qed.

Lemma compactFrom_spec (types : list ptr) (h1 : gmap ptr LSType) :
  NoDup types ->
  forall n j f arr s,
    (j + n = length types)%nat -> length arr = length types -> (f <= j)%nat ->
    take f arr = live h1 (take j types) ->
    drop j arr = drop j types ->
    (forall t, t ∈ drop j types -> heap s !! t = h1 !! t) ->
    exists arr' s',
      compactFrom n j f arr s = Ok (length (live h1 types), arr') s' /\
      take (length (live h1 types)) arr' = live h1 types /\
      heap s' = releaseAll (dead h1 (drop j types)) (heap s) /\
      modules s' = unregisterAll h1 (dead h1 (drop j types)) (modules s) /\
      trace s' = trace s.
Proof.
  intros Hnd. induction n as [|n IH]; intros j f arr s Hjn Hlen Hfj Htake Hdrop Hheap.
  - assert (j = length types) as -> by lia.
    rewrite firstn_all in Htake. rewrite drop_all.
    assert (Hf : f = length (live h1 types)).
    { rewrite <- Htake, length_take. lia. }
    subst f. exists arr, s. cbn. by rewrite Htake.
  - assert (Hj : (j < length types)%nat) by lia.
    destruct (lookup_lt_is_Some_2 types j Hj) as [t Ht].
    assert (Harr : arr !! j = Some t).
    { rewrite <- (Nat.add_0_r j), <- lookup_drop, Hdrop, lookup_drop.
      by rewrite Nat.add_0_r. }
    assert (Hin : t ∈ drop j types).
    { apply list_elem_of_lookup. exists 0%nat. rewrite lookup_drop.
      by rewrite Nat.add_0_r. }
    assert (Hsame : getMissing (heap s) t = getMissing h1 t)
      by (apply getMissing_lookup; by apply Hheap).
    assert (Hdrop' : forall a, drop (S j) (<[a := t]> arr) = drop (S j) types
                               \/ (S j <= a)%nat).
    { intros a. destruct (decide (a < S j)%nat); [left|right; lia].
      rewrite drop_insert_lt by done. by apply drop_S_eq. }
    assert (HdropS : forall x, drop (S j) (<[j := x]> arr) = drop (S j) types).
    { intros x. rewrite drop_insert_lt by lia. by apply drop_S_eq. }
    rewrite (drop_S _ _ _ Ht).
    cbn [compactFrom]. rewrite Harr. unfold bind at 1, get at 1. rewrite Hsame.
    destruct (getMissing h1 t) eqn:Hm; cbn [negb].
    + (* the type is missing: unregister, release, clear the slot *)
      destruct (getMissing_allocated _ _ Hm) as [ty Hty].
      assert (Hs : heap s !! t = Some ty) by (rewrite Hheap; done).
      unfold bind at 1, removeType at 1, modify at 1.
      unfold bind at 1, lmDelete at 1, bind at 1, get at 1.
      cbn [heap set_modules]. rewrite Hs. unfold put at 1.
      set (s2 := set_heap _ _).
      destruct (IH (S j) f (<[j := NULL]> arr) s2) as (arr' & s' & Hrun & Hres & Hh & Hmod & Htr).
      * lia.
      * by rewrite length_insert.
      * lia.
      * rewrite take_insert_ge by done. rewrite Htake.
        by rewrite (take_S_r _ _ _ Ht), live_snoc_dead.
      * apply HdropS.
      * intros u Hu. unfold s2. cbn [heap set_heap set_modules].
        rewrite lookup_delete_ne.
        -- apply Hheap. rewrite (drop_S _ _ _ Ht). by right.
        -- intros <-. by apply (NoDup_lookup_drop types j t).
      * exists arr', s'. split; [exact Hrun|]. split; [exact Hres|].
        rewrite dead_cons_dead by done.
        cbn [releaseAll unregisterAll foldl]. unfold s2 in Hh, Hmod, Htr.
        cbn [heap modules trace set_heap set_modules] in Hh, Hmod, Htr.
        split; [exact Hh|]. split; [|exact Htr].
        rewrite Hmod. unfold unregisterAll. do 3 f_equal.
        unfold typeAt. by rewrite Hs, Hty.
    + (* the type stays: move it down to firstFree *)
      destruct (IH (S j) (S f) (<[f := t]> arr) s) as (arr' & s' & Hrun & Hres & Hh & Hmod & Htr).
      * lia.
      * by rewrite length_insert.
      * lia.
      * assert (Hf : (f < length arr)%nat) by lia.
        rewrite (take_S_r (<[f := t]> arr) f t) by (by apply list_lookup_insert_eq).
        rewrite take_insert_ge by done. rewrite Htake.
        by rewrite (take_S_r _ _ _ Ht), live_snoc_live.
      * destruct (Hdrop' f) as [H|H]; [exact H|lia].
      * intros u Hu. apply Hheap. rewrite (drop_S _ _ _ Ht). by right.
      * exists arr', s'. split; [exact Hrun|]. split; [exact Hres|].
        by rewrite dead_cons_live.
Qed.

(** The compaction on a cohort without repeats: what is left of the
    array are the types that are not missing, in their order; the
    missing ones have been released and taken out of their modules. *)
Lemma compactTypes_spec (types : list ptr) (s : State) :
  NoDup types ->
  exists s',
    compactTypes types s = Ok (live (heap s) types) s' /\
    heap s' = releaseAll (dead (heap s) types) (heap s) /\
    modules s' = unregisterAll (heap s) (dead (heap s) types) (modules s) /\
    trace s' = trace s.
Proof.
  intros Hnd.
  destruct (compactFrom_spec types (heap s) Hnd (length types) 0 0 types s)
    as (arr' & s' & Hrun & Hres & Hh & Hmod & Htr); try done.
  exists s'. unfold compactTypes. rewrite (bind_Ok _ _ _ _ _ Hrun).
  cbn [fst snd]. unfold ret. rewrite Hres. by rewrite drop_0 in Hh, Hmod.
Qed.

Lemma releaseAll_types_lookup l : forall (h : gmap ptr LSType) t,
  releaseAll l h !! t = if bool_decide (t ∈ l) then None else h !! t.
Proof.
  induction l as [|b l IH]; intros h a; cbn [releaseAll foldl].
  - rewrite bool_decide_eq_false_2; [done|]. apply not_elem_of_nil.
  - fold (releaseAll l (delete b h)). rewrite IH.
    destruct (decide (a = b)) as [->|Hne].
    + rewrite (bool_decide_eq_true_2 (b ∈ b :: l)); [|by left].
      rewrite lookup_delete_eq. by destruct (bool_decide (b ∈ l)).
    + rewrite lookup_delete_ne by done.
      destruct (bool_decide_reflect (a ∈ l)) as [Hin|Hnin].
      * rewrite bool_decide_eq_true_2; [done|by right].
      * rewrite bool_decide_eq_false_2; [done|].
        intros Hin. apply elem_of_cons in Hin as [?|?]; contradiction.
Qed.

Lemma unregisterAll_absent h l : forall (m : gmap ptr (list ptr)) t regs,
  t ∈ l ->
  unregisterAll h l m !! getModule (typeAt h t) = Some regs -> t ∉ regs.
Proof.
  assert (Hkeep : forall l (m : gmap ptr (list ptr)) k t,
             (forall regs, m !! k = Some regs -> t ∉ regs) ->
             forall regs, unregisterAll h l m !! k = Some regs -> t ∉ regs).
  { clear. induction l as [|u l IH]; intros m k t Hm regs; cbn [unregisterAll foldl].
    - apply Hm.
    - apply IH. intros regs'. rewrite lookup_alter.
      destruct (decide (getModule (typeAt h u) = k)) as [Hk|]; [|apply Hm].
      rewrite Hk. destruct (m !! k) as [r|] eqn:E; [|done].
      intros [= <-]. rewrite list_elem_of_filter. intros [_ Hin].
      by apply (Hm r). }
  induction l as [|u l IH]; intros m t regs Hin; [by apply elem_of_nil in Hin|].
  cbn [unregisterAll foldl].
  destruct (decide (t = u)) as [->|Hne].
  - apply Hkeep. intros regs'. rewrite lookup_alter_eq.
    destruct (m !! _); [|done]. intros [= <-].
    rewrite list_elem_of_filter. by intros [? _].
  - apply elem_of_cons in Hin as [?|Hin]; [done|]. by apply IH.
Qed.

(** *** The marking loop and [shrink] *)

Lemma importMissing_true h imports : importMissing h true imports = true.
Proof.
  unfold importMissing. induction imports as [|i imports IH]; [done|].
  cbn [foldl]. by destruct (getMissing h i).
Qed.

Lemma getMissing_NULL h : h !! NULL = None -> getMissing h NULL = false.
Proof. intros H. unfold getMissing, typeAt. by rewrite H. Qed.

Lemma searchMissing_false fuel h t :
  h !! NULL = None -> searchMissing fuel h t = Some false -> getMissing h t = false.
Proof.
  intros Hnull. destruct fuel as [|fuel]; [discriminate|]. cbn [searchMissing].
  unfold isNull. destruct (bool_decide_reflect (t = NULL)) as [->|_].
  - intros _. by apply getMissing_NULL.
  - by destruct (getMissing h t).
Qed.

Lemma markIncomplete_shrink_stays fuel types rest : forall h h' b,
  markIncomplete fuel types rest h true = Some (h', b) -> b = true.
Proof.
  induction rest as [|t rest IH]; intros h h' b; cbn [markIncomplete].
  - by intros [= _ <-].
  - destruct (searchMissing fuel h t) as [inc|]; [|discriminate].
    destruct (importMissing h inc _).
    + destruct (markImportedMissing fuel types t _) as [h1|]; [|discriminate].
      apply IH.
    + apply IH.
Qed.

(** When the loop leaves [shrink] false it has marked nothing, and no
    type of the cohort was missing. *)
Lemma markIncomplete_no_shrink fuel types rest : forall h h',
  h !! NULL = None ->
  markIncomplete fuel types rest h false = Some (h', false) ->
  h' = h /\ forall t, t ∈ rest -> getMissing h t = false.
Proof.
  induction rest as [|t rest IH]; intros h h' Hnull; cbn [markIncomplete].
  - intros [= <-]. split; [done|]. intros t Ht. by apply elem_of_nil in Ht.
  - destruct (searchMissing fuel h t) as [inc|] eqn:Hs; [|discriminate].
    destruct (importMissing h inc _) eqn:Hi.
    + destruct (markImportedMissing fuel types t _) as [h1|]; [|discriminate].
      intros H. by apply markIncomplete_shrink_stays in H.
    + intros H. destruct (IH _ _ Hnull H) as [-> Hrest]. split; [done|].
      intros u Hu. apply elem_of_cons in Hu as [->|Hu]; [|by apply Hrest].
      destruct inc; [by rewrite importMissing_true in Hi|].
      by eapply searchMissing_false.
Qed.

Lemma live_all h l : (forall t, t ∈ l -> getMissing h t = false) -> live h l = l.
Proof.
  induction l as [|t l IH]; intros H; [done|]. unfold live in *.
  rewrite filter_cons_True by (apply H; by left).
  rewrite IH; [done|]. intros u Hu. apply H. by right.
Qed.

Lemma dead_none h l : (forall t, t ∈ l -> getMissing h t = false) -> dead h l = [].
Proof.
  induction l as [|t l IH]; intros H; [done|]. unfold dead in *.
  rewrite filter_cons_False by (rewrite (H t); [done|by left]).
  apply IH. intros u Hu. apply H. by right.
Qed.

Lemma markMissing_inv fuel types s shrink s1 :
  markMissing fuel types s = Ok shrink s1 ->
  markIncomplete fuel types types (heap s) false = Some (heap s1, shrink) /\
  modules s1 = modules s /\ trace s1 = trace s.
Proof.
  unfold markMissing, bind at 1, get at 1.
  destruct (markIncomplete fuel types types (heap s) false) as [[h b]|];
    [|discriminate].
  unfold bind, put, ret. by intros [= <- <-].
Qed.

(** C5.  On a cohort without repeats, in a heap with nothing at the
    null address: once the marking loop has returned, what
    [finalizeAssemblyLoad] does next (the compaction when [shrink] is
    set, nothing otherwise) returns; the array it leaves holds
    exactly the types of the cohort that are not missing, in their
    original order; its size is the original one less the number of
    missing types; every missing type has been released and is no
    longer registered with its module; nothing else is released. *)
Theorem compaction_removes_missing (fuel : nat) (types : list ptr)
  (s s1 : State) (shrink : bool) :
  NoDup types -> heap s !! NULL = None ->
  markMissing fuel types s = Ok shrink s1 ->
  exists pruned s2,
    (if shrink then compactTypes types else ret types) s1 = Ok pruned s2 /\
    pruned = live (heap s1) types /\
    length pruned = (length types - length (dead (heap s1) types))%nat /\
    (forall t, t ∈ types -> getMissing (heap s1) t = true ->
       heap s2 !! t = None /\
       forall regs, modules s2 !! getModule (typeAt (heap s1) t) = Some regs ->
                    t ∉ regs) /\
    (forall t, ~ (t ∈ types /\ getMissing (heap s1) t = true) ->
       heap s2 !! t = heap s1 !! t) /\
    trace s2 = trace s1.
Proof.
  intros Hnd Hnull Hmark.
  apply markMissing_inv in Hmark as (Hmark & _ & _).
  pose proof (live_dead_length (heap s1) types) as Hlen.
  destruct shrink.
  - destruct (compactTypes_spec types s1 Hnd) as (s2 & Hrun & Hh & Hmod & Htr).
    exists (live (heap s1) types), s2.
    split; [exact Hrun|]. split; [done|]. split; [lia|].
    assert (Hdead : forall t, t ∈ dead (heap s1) types
                              <-> t ∈ types /\ getMissing (heap s1) t = true).
    { intros t. unfold dead. rewrite list_elem_of_filter. tauto. }
    split; [|split; [|exact Htr]].
    + intros t Ht Hm. split.
      * rewrite Hh, releaseAll_types_lookup. rewrite bool_decide_eq_true_2; [done|].
        by apply Hdead.
      * intros regs. rewrite Hmod. apply unregisterAll_absent. by apply Hdead.
    + intros t Hnot. rewrite Hh, releaseAll_types_lookup.
      rewrite bool_decide_eq_false_2; [done|]. by rewrite Hdead.
  - destruct (markIncomplete_no_shrink _ _ _ _ _ Hnull Hmark) as [Heq Hlive].
    rewrite Heq in *.
    exists types, s1. split; [reflexivity|].
    rewrite (live_all _ _ Hlive), (dead_none _ _ Hlive). cbn [length].
    split; [done|]. split; [lia|]. split; [|split; [|done]].
    + intros t Ht Hm. rewrite (Hlive t Ht) in Hm. discriminate.
    + intros t _. by rewrite Heq.
Qed.


(** *** What the marking loop guarantees *)

(** [h'] is [h] with missing flags set on some of its types. *)
Definition marks (h h' : gmap ptr LSType) : Prop :=
  forall p, h' !! p = h !! p \/
            exists ty reason, h !! p = Some ty /\ h' !! p = Some (withMissing reason ty).

Lemma marks_refl h : marks h h.
Proof. intros p. by left. Qed.

Lemma marks_trans h1 h2 h3 : marks h1 h2 -> marks h2 h3 -> marks h1 h3.
Proof.
  intros H12 H23 p. destruct (H12 p) as [E|(ty & r & E1 & E2)];
    destruct (H23 p) as [E'|(ty' & r' & E1' & E2')].
  - left. congruence.
  - right. exists ty', r'. split; congruence.
  - right. exists ty, r. split; congruence.
  - right. exists ty, r'. split; [done|]. rewrite E2', E2 in *.
    injection E1' as <-. reflexivity.
Qed.

Lemma marks_setMissing h p reason : marks h (setMissing h p reason).
Proof.
  intros q. unfold setMissing. rewrite lookup_alter.
  destruct (decide (p = q)) as [->|]; [|by left].
  destruct (h !! q) as [ty|] eqn:E; [|by left].
  right. by exists ty, reason.
Qed.

Lemma marks_typeAt h h' p :
  marks h h' ->
  typeAt h' p = typeAt h p \/ exists reason, typeAt h' p = withMissing reason (typeAt h p).
Proof.
  intros H. unfold typeAt. destruct (H p) as [->|(ty & r & -> & ->)]; [by left|].
  right. by exists r.
Qed.

Lemma marks_imports h h' p :
  marks h h' -> getImports (typeAt h' p) = getImports (typeAt h p).
Proof. intros H. by destruct (marks_typeAt h h' p H) as [->|[r ->]]. Qed.

Lemma marks_base h h' p :
  marks h h' -> getBaseType (typeAt h' p) = getBaseType (typeAt h p).
Proof. intros H. by destruct (marks_typeAt h h' p H) as [->|[r ->]]. Qed.

Lemma marks_missing h h' p :
  marks h h' -> getMissing h p = true -> getMissing h' p = true.
Proof.
  intros H. unfold getMissing.
  by destruct (marks_typeAt h h' p H) as [->|[r ->]].
Qed.

Lemma marks_live_back h h' p :
  marks h h' -> getMissing h' p = false -> getMissing h p = false.
Proof.
  intros H Hm. destruct (getMissing h p) eqn:E; [|done].
  by rewrite (marks_missing _ _ _ H E) in Hm.
Qed.

Lemma getMissing_setMissing h p reason :
  is_Some (h !! p) -> getMissing (setMissing h p reason) p = true.
Proof.
  intros [ty Hty]. unfold getMissing, typeAt, setMissing.
  by rewrite lookup_alter_eq, Hty.
Qed.

Lemma getMissing_setMissing_inv h p reason q :
  getMissing (setMissing h p reason) q = true -> q = p \/ getMissing h q = true.
Proof.
  intros Hm. destruct (decide (q = p)) as [->|Hne]; [by left|]. right.
  revert Hm. unfold getMissing, typeAt, setMissing.
  by rewrite lookup_alter_ne.
Qed.

Lemma importsType_elem imports m : importsType imports m = true <-> m ∈ imports.
Proof.
  induction imports as [|i imports IH]; cbn [importsType].
  - split; [discriminate|]. intros H. by apply elem_of_nil in H.
  - destruct (bool_decide_reflect (i = m)) as [->|Hne].
    + split; [|done]. intros _. by left.
    + rewrite IH. split; [by right|].
      intros H. apply elem_of_cons in H as [?|?]; [congruence|done].
Qed.

Lemma imports_allocated h t m : m ∈ getImports (typeAt h t) -> is_Some (h !! t).
Proof.
  unfold typeAt. destruct (h !! t); [by eexists|].
  intros H. by apply elem_of_nil in H.
Qed.

Lemma importMissing_false h inc imports :
  importMissing h inc imports = false ->
  inc = false /\ forall i, i ∈ imports -> getMissing h i = false.
Proof.
  unfold importMissing. revert inc.
  induction imports as [|i imports IH]; intros inc; cbn [foldl].
  - intros ->. split; [done|]. intros i Hi. by apply elem_of_nil in Hi.
  - intros H. destruct (getMissing h i) eqn:Hm.
    + apply IH in H as [? _]. discriminate.
    + apply IH in H as [-> Hrest]. split; [done|].
      intros j Hj. apply elem_of_cons in Hj as [->|Hj]; [done|by apply Hrest].
Qed.

(** Every type of the cohort that imports [m] is missing. *)
Definition handled (types : list ptr) (h : gmap ptr LSType) (m : ptr) : Prop :=
  forall t, t ∈ types -> m ∈ getImports (typeAt h t) -> getMissing h t = true.

(** Every missing type was missing from the start, is waiting for its
    cascade, or has had it. *)
Definition settled (types : list ptr) (h0 h : gmap ptr LSType)
  (pending : list ptr) : Prop :=
  forall m, getMissing h m = true ->
            getMissing h0 m = true \/ m ∈ pending \/ handled types h m.

Lemma handled_marks types h h' m :
  marks h h' -> handled types h m -> handled types h' m.
Proof.
  intros Hm Hh t Ht Himp. rewrite (marks_imports _ _ _ Hm) in Himp.
  apply (marks_missing _ _ _ Hm). by apply Hh.
Qed.

Lemma settled_setMissing types h0 h t reason pending :
  settled types h0 h pending ->
  settled types h0 (setMissing h t reason) (t :: pending).
Proof.
  intros Hs m Hm. apply getMissing_setMissing_inv in Hm as [->|Hm].
  - right. left. by left.
  - destruct (Hs m Hm) as [?|[?|Hh]]; [by left|right; left; by right|].
    right. right. eapply handled_marks; [apply marks_setMissing|done].
Qed.

(** What a nested call of [markImportedMissing] guarantees. *)
Definition cascades (types : list ptr) (h0 : gmap ptr LSType)
  (call : ptr -> gmap ptr LSType -> option (gmap ptr LSType)) : Prop :=
  forall t h h' pending,
    call t h = Some h' -> settled types h0 h (t :: pending) ->
    marks h h' /\ settled types h0 h' pending /\ handled types h' t.

Lemma markLoop_cascades types h0 recurse m pending :
  cascades types h0 recurse ->
  forall rest done h h',
    types = done ++ rest ->
    settled types h0 h (m :: pending) ->
    (forall t, t ∈ done -> m ∈ getImports (typeAt h t) -> getMissing h t = true) ->
    markLoop recurse m rest h = Some h' ->
    marks h h' /\ settled types h0 h' (m :: pending) /\ handled types h' m.
Proof.
  intros Hrec. induction rest as [|t rest IH]; intros done h h' Htypes Hset Hdone.
  - cbn [markLoop]. intros [= <-]. rewrite app_nil_r in Htypes. subst done.
    split; [apply marks_refl|]. by split.
  - cbn [markLoop].
    assert (Hnext : types = (done ++ [t]) ++ rest) by (by rewrite <- app_assoc).
    destruct (getMissing h t) eqn:Hm.
    { apply (IH (done ++ [t])); [done|done|].
      intros u Hu. apply elem_of_app in Hu as [Hu|Hu]; [by apply Hdone|].
      apply list_elem_of_singleton in Hu as ->. done. }
    destruct (importsType (getImports (typeAt h t)) m) eqn:Hi.
    2:{ apply (IH (done ++ [t])); [done|done|].
        intros u Hu. apply elem_of_app in Hu as [Hu|Hu]; [by apply Hdone|].
        apply list_elem_of_singleton in Hu as ->. intros Himp.
        apply importsType_elem in Himp. congruence. }
    destruct (recurse t _) as [h1|] eqn:Hcall; [|discriminate].
    intros Hloop.
    apply importsType_elem in Hi.
    pose proof (imports_allocated _ _ _ Hi) as Halloc.
    set (hm := setMissing h t (missingImport h m)) in *.
    assert (Hmarks1 : marks h hm) by apply marks_setMissing.
    destruct (Hrec t hm h1 (m :: pending) Hcall) as (Hmarks2 & Hset1 & Hht).
    { by apply settled_setMissing. }
    assert (Hmarks : marks h h1) by (by eapply marks_trans).
    destruct (IH (done ++ [t]) h1 h' Hnext Hset1) as (Hmarks3 & Hset' & Hh'); [|done|].
    + intros u Hu Himp. rewrite (marks_imports _ _ _ Hmarks) in Himp.
      apply (marks_missing _ _ _ Hmarks2).
      apply elem_of_app in Hu as [Hu|Hu].
      * apply (marks_missing _ _ _ Hmarks1). by apply Hdone.
      * apply list_elem_of_singleton in Hu as ->. by apply getMissing_setMissing.
    + split; [by eapply marks_trans|]. by split.
Qed.

Lemma markImportedMissing_cascades types h0 fuel :
  cascades types h0 (markImportedMissing fuel types).
Proof.
  induction fuel as [|fuel IH]; intros m h h' pending; [discriminate|].
  cbn [markImportedMissing]. intros Hloop Hset.
  destruct (markLoop_cascades types h0 _ m pending IH types [] h h' eq_refl Hset)
    as (Hmarks & Hset' & Hh); [|done|].
  - intros t Ht. by apply elem_of_nil in Ht.
  - split; [done|]. split; [|done].
    intros x Hx. destruct (Hset' x Hx) as [?|[Hin|?]]; [by left| |by right; right].
    apply elem_of_cons in Hin as [->|Hin]; [by right; right|by right; left].
Qed.

(** The base-type chain of [t] holds a missing type: [t] itself, or a
    type reached from it through [getBaseType]. *)
Inductive missingAncestor (h : gmap ptr LSType) : ptr -> Prop :=
| missingAncestor_here t :
    t <> NULL -> getMissing h t = true -> missingAncestor h t
| missingAncestor_up t :
    t <> NULL -> missingAncestor h (getBaseType (typeAt h t)) -> missingAncestor h t.

Lemma missingAncestor_marks h h' t :
  marks h h' -> missingAncestor h t -> missingAncestor h' t.
Proof.
  intros Hm. induction 1 as [t Hn Ht|t Hn _ IH].
  - apply missingAncestor_here; [done|]. by apply (marks_missing _ _ _ Hm).
  - apply missingAncestor_up; [done|]. by rewrite (marks_base _ _ _ Hm).
Qed.

Lemma searchMissing_sound fuel : forall h t,
  searchMissing fuel h t = Some false -> ~ missingAncestor h t.
Proof.
  induction fuel as [|fuel IH]; intros h t; [discriminate|].
  cbn [searchMissing]. unfold isNull.
  destruct (bool_decide_reflect (t = NULL)) as [->|Hn].
  - intros _ H. by inversion H.
  - destruct (getMissing h t) eqn:Hm; [discriminate|].
    intros Hs H. inversion H as [? ? Ht|? ? Hup]; subst.
    + congruence.
    + by apply (IH _ _ Hs).
Qed.

(** The loop of [finalizeAssemblyLoad], from any point on.  [done]
    are the types visited so far. *)
Lemma markIncomplete_invariant fuel types h0 :
  forall rest done h shrink h' shrink',
    types = done ++ rest ->
    marks h0 h -> settled types h0 h [] ->
    (forall t, t ∈ done ->
       (missingAncestor h0 t -> getMissing h t = true) /\
       (forall i, i ∈ getImports (typeAt h t) -> getMissing h0 i = true ->
                  getMissing h t = true)) ->
    markIncomplete fuel types rest h shrink = Some (h', shrink') ->
    marks h0 h' /\ settled types h0 h' [] /\
    (forall t, t ∈ types ->
       (missingAncestor h0 t -> getMissing h' t = true) /\
       (forall i, i ∈ getImports (typeAt h' t) -> getMissing h0 i = true ->
                  getMissing h' t = true)).
Proof.
  induction rest as [|t rest IH]; intros done h shrink h' shrink' Htypes Hm Hset Hdone.
  - cbn [markIncomplete]. intros [= <- <-]. rewrite app_nil_r in Htypes. by subst done.
  - cbn [markIncomplete].
    assert (Hnext : types = (done ++ [t]) ++ rest) by (by rewrite <- app_assoc).
    destruct (searchMissing fuel h t) as [inc|] eqn:Hs; [|discriminate].
    destruct (importMissing h inc (getImports (typeAt h t))) eqn:Hi.
    + destruct (markImportedMissing fuel types t _) as [h1|] eqn:Hcall; [|discriminate].
      set (hm := setMissing h t "incomplete") in *.
      assert (Hmarks1 : marks h hm) by apply marks_setMissing.
      destruct (markImportedMissing_cascades types h0 fuel t hm h1 [] Hcall)
        as (Hmarks2 & Hset1 & _).
      { by apply settled_setMissing. }
      assert (Hmarks : marks h h1) by (by eapply marks_trans).
      apply (IH (done ++ [t])); [done|by eapply marks_trans|done|].
      intros u Hu. apply elem_of_app in Hu as [Hu|Hu].
      * destruct (Hdone u Hu) as [Ha Himp]. split.
        -- intros H. apply (marks_missing _ _ _ Hmarks). by apply Ha.
        -- intros i. rewrite (marks_imports _ _ _ Hmarks). intros Hin H0.
           apply (marks_missing _ _ _ Hmarks). by eapply Himp.
      * apply list_elem_of_singleton in Hu as ->.
        assert (Hwhen : is_Some (h !! t) -> getMissing h1 t = true).
        { intros Halloc. apply (marks_missing _ _ _ Hmarks2).
          by apply getMissing_setMissing. }
        split.
        -- intros H. apply Hwhen.
           apply (missingAncestor_marks _ _ _ Hm) in H.
           inversion H as [? ? Ht|? ? Hup]; subst.
           ++ by apply getMissing_allocated.
           ++ unfold typeAt in Hup. destruct (h !! t); [by eexists|].
              cbn in Hup. by inversion Hup.
        -- intros i. rewrite (marks_imports _ _ _ Hmarks). intros Hin _.
           apply Hwhen. by eapply imports_allocated.
    + apply importMissing_false in Hi as [-> Hnone].
      apply (IH (done ++ [t])); [done|done|done|].
      intros u Hu. apply elem_of_app in Hu as [Hu|Hu]; [by apply Hdone|].
      apply list_elem_of_singleton in Hu as ->. split.
      * intros H. apply (missingAncestor_marks _ _ _ Hm) in H.
        by apply searchMissing_sound in Hs.
      * intros i Hin H0. apply (marks_missing _ _ _ Hm) in H0.
        by rewrite (Hnone i Hin) in H0.
Qed.

(** When the marking loop of [finalizeAssemblyLoad] returns, it has
    only set missing flags; every type of the cohort that imports a
    missing type is missing, so missing is closed under import,
    through chains of any length; and every type of the cohort whose
    base-type chain held a missing type when the loop began is
    missing. *)
Theorem marking_closed_under_import (fuel : nat) (types : list ptr)
  (h0 h' : gmap ptr LSType) (shrink : bool) :
  markIncomplete fuel types types h0 false = Some (h', shrink) ->
  marks h0 h' /\
  (forall t i, t ∈ types -> i ∈ getImports (typeAt h' t) ->
               getMissing h' i = true -> getMissing h' t = true) /\
  (forall t, t ∈ types -> missingAncestor h0 t -> getMissing h' t = true) /\
  (forall x y z, x ∈ types -> y ∈ types ->
                 y ∈ getImports (typeAt h0 x) -> z ∈ getImports (typeAt h0 y) ->
                 getMissing h0 z = true ->
                 getMissing h' x = true /\ getMissing h' y = true).
Proof.
  intros Hrun.
  destruct (markIncomplete_invariant fuel types h0 types [] h0 false h' shrink
              eq_refl (marks_refl h0)) as (Hmarks & Hset & Hall); [| |done|].
  { intros m Hm. by left. }
  { intros t Ht. by apply elem_of_nil in Ht. }
  assert (Hclosed : forall t i, t ∈ types -> i ∈ getImports (typeAt h' t) ->
                                getMissing h' i = true -> getMissing h' t = true).
  { intros t i Ht Hi Hmi. destruct (Hset i Hmi) as [H0|[Hin|Hh]].
    - by apply (proj2 (Hall t Ht) i).
    - by apply elem_of_nil in Hin.
    - by apply Hh. }
  split; [done|]. split; [done|]. split.
  - intros t Ht. by apply (Hall t Ht).
  - intros x y z Hx Hy Hxy Hyz Hz.
    rewrite <- (marks_imports _ _ _ Hmarks) in Hxy.
    rewrite <- (marks_imports _ _ _ Hmarks) in Hyz.
    assert (Hmy : getMissing h' y = true).
    { apply (Hclosed y z Hy Hyz). by apply (marks_missing _ _ _ Hmarks). }
    split; [|done]. by apply (Hclosed x y Hx Hxy).
Qed.

(** *** The marking loop returns *)

Lemma live_length_marks h h' types :
  marks h h' -> (length (live h' types) <= length (live h types))%nat.
Proof.
  intros Hm. induction types as [|u types IH]; [done|]. unfold live in *.
  destruct (getMissing h' u) eqn:E'.
  - rewrite (filter_cons_False _ u types) by congruence.
    destruct (getMissing h u) eqn:E.
    + by rewrite filter_cons_False by congruence.
    + rewrite filter_cons_True by done. cbn [length]. lia.
  - rewrite (filter_cons_True _ u types) by done.
    rewrite filter_cons_True by (by eapply marks_live_back). cbn [length]. lia.
Qed.

Lemma live_length_strict h h' types t :
  marks h h' -> t ∈ types -> getMissing h t = false -> getMissing h' t = true ->
  (length (live h' types) < length (live h types))%nat.
Proof.
  intros Hm Hin Ht Ht'. induction types as [|u types IH];
    [by apply elem_of_nil in Hin|].
  pose proof (live_length_marks h h' types Hm) as Hle. unfold live in *.
  destruct (decide (u = t)) as [->|Hne].
  - rewrite (filter_cons_False _ t types) by congruence.
    rewrite filter_cons_True by done. cbn [length]. lia.
  - apply elem_of_cons in Hin as [?|Hin]; [congruence|]. specialize (IH Hin).
    destruct (getMissing h' u) eqn:E'.
    + rewrite (filter_cons_False _ u types) by congruence.
      destruct (getMissing h u) eqn:E.
      * by rewrite filter_cons_False by congruence.
      * rewrite filter_cons_True by done. cbn [length]. lia.
    + rewrite (filter_cons_True _ u types) by done.
      rewrite filter_cons_True by (by eapply marks_live_back). cbn [length]. lia.
Qed.

Lemma markLoop_returns types recurse m fuel :
  (forall t h, (length (live h types) < fuel)%nat ->
               exists h', recurse t h = Some h' /\ marks h h') ->
  forall rest h,
    (forall t, t ∈ rest -> t ∈ types) ->
    (length (live h types) < S fuel)%nat ->
    exists h', markLoop recurse m rest h = Some h' /\ marks h h'.
Proof.
  intros Hrec. induction rest as [|t rest IH]; intros h Hsub Hlt.
  - exists h. split; [done|apply marks_refl].
  - cbn [markLoop].
    assert (Hsub' : forall u, u ∈ rest -> u ∈ types)
      by (intros u Hu; apply Hsub; by right).
    destruct (getMissing h t) eqn:Hm; [by apply IH|].
    destruct (importsType (getImports (typeAt h t)) m) eqn:Hi; [|by apply IH].
    apply importsType_elem in Hi.
    pose proof (imports_allocated _ _ _ Hi) as Halloc.
    set (hm := setMissing h t (missingImport h m)).
    assert (Hmarks1 : marks h hm) by apply marks_setMissing.
    assert (Hdrop : (length (live hm types) < length (live h types))%nat).
    { apply (live_length_strict h hm types t); [done|apply Hsub; by left|done|].
      by apply getMissing_setMissing. }
    destruct (Hrec t hm) as (h1 & Hcall & Hmarks2); [lia|].
    rewrite Hcall.
    pose proof (live_length_marks hm h1 types Hmarks2) as Hle.
    destruct (IH h1 Hsub') as (h' & Hloop & Hmarks3); [lia|].
    exists h'. split; [done|].
    eapply marks_trans; [exact Hmarks1|]. by eapply marks_trans.
Qed.

(** [markImportedMissing] returns when it is given more fuel than
    the cohort has types that are not missing: every nested call is
    made after one more type was marked. *)
Lemma markImportedMissing_returns types fuel : forall m h,
  (length (live h types) < fuel)%nat ->
  exists h', markImportedMissing fuel types m h = Some h' /\ marks h h'.
Proof.
  induction fuel as [|fuel IH]; intros m h Hlt; [lia|].
  cbn [markImportedMissing].
  apply (markLoop_returns types _ m fuel); [|done|done].
  intros t h0 Hlt0. by apply IH.
Qed.

(** The walk up the base types returns when the chain is shorter than
    the fuel; [rank] bounds the length of the chain of each type. *)
Lemma searchMissing_returns (rank : ptr -> nat) h fuel : forall t,
  (forall u, u <> NULL -> (rank (getBaseType (typeAt h u)) < rank u)%nat) ->
  (rank t < fuel)%nat ->
  exists b, searchMissing fuel h t = Some b.
Proof.
  induction fuel as [|fuel IH]; intros t Hrank Hlt; [lia|].
  cbn [searchMissing]. unfold isNull.
  destruct (bool_decide_reflect (t = NULL)) as [->|Hn]; [by eexists|].
  destruct (getMissing h t); [by eexists|].
  apply IH; [done|]. specialize (Hrank t Hn). lia.
Qed.

Lemma markIncomplete_returns (rank : ptr -> nat) fuel types h0 :
  (forall u, u <> NULL -> (rank (getBaseType (typeAt h0 u)) < rank u)%nat) ->
  (length types < fuel)%nat ->
  forall rest h shrink,
    marks h0 h ->
    (forall t, t ∈ rest -> (rank t < fuel)%nat) ->
    exists h' shrink', markIncomplete fuel types rest h shrink = Some (h', shrink').
Proof.
  intros Hrank Hfuel. induction rest as [|t rest IH]; intros h shrink Hm Hr.
  - by eexists _, _.
  - cbn [markIncomplete].
    destruct (searchMissing_returns rank h fuel t) as [inc ->].
    { intros u Hu. rewrite (marks_base _ _ _ Hm). by apply Hrank. }
    { apply Hr. by left. }
    assert (Hr' : forall u, u ∈ rest -> (rank u < fuel)%nat)
      by (intros u Hu; apply Hr; by right).
    destruct (importMissing h inc _); [|by apply IH].
    set (hm := setMissing h t "incomplete").
    assert (Hmarks1 : marks h hm) by apply marks_setMissing.
    destruct (markImportedMissing_returns types fuel t hm) as (h1 & -> & Hmarks2).
    { pose proof (length_filter (fun t => getMissing hm t = false) types).
      unfold live. lia. }
    apply IH; [|done].
    eapply marks_trans; [exact Hm|]. by eapply marks_trans.
Qed.

(** The marking loop of [finalizeAssemblyLoad] returns whenever the
    base-type chains are finite and the fuel exceeds both their length
    and the size of the cohort. *)
Theorem marking_returns (rank : ptr -> nat) (fuel : nat) (types : list ptr)
  (h0 : gmap ptr LSType) :
  (forall u, u <> NULL -> (rank (getBaseType (typeAt h0 u)) < rank u)%nat) ->
  (forall t, t ∈ types -> (rank t < fuel)%nat) ->
  (length types < fuel)%nat ->
  exists h' shrink, markIncomplete fuel types types h0 false = Some (h', shrink).
Proof.
  intros Hrank Hr Hfuel.
  by apply (markIncomplete_returns rank fuel types h0 Hrank Hfuel types h0 false
              (marks_refl h0)).
Qed.

(** *** Worked cohorts *)

(** A script type named [name] in the module at address 90. *)
Definition scriptType (name : string) (base : ptr) (imports : list ptr)
  (reason : option string) : LSType :=
  mkType name name 0 base imports reason false false false "" 90%N [].

(** A native type named [name] whose declaration says [managed]. *)
Definition nativeType (name : string) (imports : list ptr) (managed : bool) : LSType :=
  mkType name name 0 NULL imports None true false managed "" 90%N [].

(** The native bindings registered by the host: an unmanaged one for
    the type at 21, a managed one for the type at 31. *)
Definition hostBindings (type : ptr) : option NativeTypeBase :=
  if bool_decide (type = 21%N) then Some (mkNative false "Sprite" (fun _ => true))
  else if bool_decide (type = 31%N) then Some (mkNative true "Widget" (fun _ => true))
  else None.

(** Native resolution that finds every native member. *)
Definition resolveAll (type : ptr) (h : gmap ptr LSType) : gmap ptr LSType := h.

Definition startState (h : gmap ptr LSType) (registered : list ptr) : State :=
  mkState h {[ 90%N := registered ]} [].

(** Derived (at 1) extends Base (at 2) and imports nothing; Base
    imports Gone (at 3); Gone is missing when the load is finalised. *)
Definition heapDerived : gmap ptr LSType :=
  <[1%N := scriptType "app.Derived" 2%N [] None]>
    (<[2%N := scriptType "app.Base" NULL [3%N] None]>
       {[ 3%N := scriptType "app.Gone" NULL [] (Some "incomplete") ]}).

Definition cohortDerived : list ptr := [1%N; 2%N; 3%N].

(** X (at 11) imports Y (at 12), Y imports Z (at 13), only Z is
    missing. *)
Definition heapChain : gmap ptr LSType :=
  <[11%N := scriptType "app.X" NULL [12%N] None]>
    (<[12%N := scriptType "app.Y" NULL [13%N] None]>
       {[ 13%N := scriptType "app.Z" NULL [] (Some "incomplete") ]}).

Definition cohortChain : list ptr := [11%N; 12%N; 13%N].

(** Sprite (at 21) is declared native and managed; Stage (at 22)
    imports it. *)
Definition heapSprite : gmap ptr LSType :=
  <[21%N := nativeType "app.Sprite" [] true]>
    {[ 22%N := scriptType "app.Stage" NULL [21%N] None ]}.

Definition cohortSprite : list ptr := [22%N; 21%N].

(** Three types that depend on one another: Widget (at 31, native and
    managed) imports Panel (at 32), Panel imports Label (at 33), Label
    extends Widget. *)
Definition heapWidgets : gmap ptr LSType :=
  <[31%N := nativeType "app.Widget" [32%N] true]>
    (<[32%N := scriptType "app.Panel" NULL [33%N] None]>
       {[ 33%N := scriptType "app.Label" 31%N [31%N] None ]}).

Definition cohortWidgets : list ptr := [33%N; 31%N; 32%N].

Definition stateOf {A} (r : outcome State A) : State :=
  match r with
  | Ok _ s => s
  | Fail _ s => s
  end.

(** C2 (the code on the failing input).  Derived comes before Base in
    the cohort.  When the loop visits Derived neither Base nor any
    import of Derived is missing; Base is marked afterwards, for its
    import of Gone, and the cascade follows imports only.  The marking
    ends with Derived not missing although its base type is, the
    compaction releases Base and Gone, and Derived is declared and
    initialized with a base type that is no longer allocated. *)
Theorem subtype_of_late_missing_base_survives :
  exists h',
    markIncomplete 8%nat cohortDerived cohortDerived heapDerived false = Some (h', true) /\
    getMissing h' 1%N = false /\
    getBaseType (typeAt h' 1%N) = 2%N /\
    getMissing h' 2%N = true /\
    getMissing h' 3%N = true /\
    exists s',
      finalizeAssemblyLoad hostBindings resolveAll false 8%nat 7%N cohortDerived
        (startState heapDerived cohortDerived) = Ok [1%N] s' /\
      heap s' !! 2%N = None /\
      getBaseType (typeAt (heap s') 1%N) = 2%N /\
      trace s' = [EvDeclareClass 1%N; EvCache 1%N; EvInitializeClass 1%N;
                  EvInitializeStatic 1%N; EvBootstrap 7%N].
Proof.
  eexists. split; [vm_compute; reflexivity|].
  repeat (split; [vm_compute; reflexivity|]).
  eexists. split; [vm_compute; reflexivity|].
  repeat split; vm_compute; reflexivity.
Qed.

(** With Base before Derived the same types are all marked. *)
Example base_before_subtype_is_marked :
  exists h',
    markIncomplete 8%nat [2%N; 1%N; 3%N] [2%N; 1%N; 3%N] heapDerived false
    = Some (h', true) /\
    getMissing h' 1%N = true /\ getMissing h' 2%N = true /\ getMissing h' 3%N = true.
Proof. eexists. repeat split; vm_compute; reflexivity. Qed.

(** The chain of imports: X and Y end up missing, whatever the order
    of the cohort, and nothing is left to declare. *)
Example import_chain_is_marked :
  (exists h',
      markIncomplete 8%nat cohortChain cohortChain heapChain false = Some (h', true) /\
      getMissing h' 11%N = true /\ getMissing h' 12%N = true /\
      getMissing h' 13%N = true) /\
  (exists h',
      markIncomplete 8%nat [13%N; 12%N; 11%N] [13%N; 12%N; 11%N] heapChain false
      = Some (h', true) /\
      getMissing h' 11%N = true /\ getMissing h' 12%N = true /\
      getMissing h' 13%N = true) /\
  exists s',
    finalizeAssemblyLoad hostBindings resolveAll false 8%nat 7%N cohortChain
      (startState heapChain cohortChain) = Ok [] s' /\
    trace s' = [EvBootstrap 7%N].
Proof.
  split; [|split]; eexists; repeat split; vm_compute; reflexivity.
Qed.

(** The state the marking leaves on the cohort of Derived. *)
Definition markedDerived : State :=
  stateOf (markMissing 8%nat cohortDerived (startState heapDerived cohortDerived)).

Lemma compaction_removes_missing_witness :
  exists pruned s2,
    compactTypes cohortDerived markedDerived = Ok pruned s2 /\
    pruned = live (heap markedDerived) cohortDerived /\
    length pruned
    = (length cohortDerived - length (dead (heap markedDerived) cohortDerived))%nat /\
    (forall t, t ∈ cohortDerived -> getMissing (heap markedDerived) t = true ->
       heap s2 !! t = None /\
       forall regs, modules s2 !! getModule (typeAt (heap markedDerived) t) = Some regs ->
                    t ∉ regs) /\
    (forall t, ~ (t ∈ cohortDerived /\ getMissing (heap markedDerived) t = true) ->
       heap s2 !! t = heap markedDerived !! t) /\
    trace s2 = trace markedDerived.
Proof.
  apply (compaction_removes_missing 8%nat cohortDerived
           (startState heapDerived cohortDerived) markedDerived true).
  - apply (bool_decide_unpack _). vm_compute. exact I.
  - vm_compute. reflexivity.
  - vm_compute. reflexivity.
Defined.

Example compaction_example :
  exists s2,
    compactTypes cohortDerived markedDerived = Ok [1%N] s2 /\
    modules s2 !! 90%N = Some [1%N] /\
    heap s2 !! 2%N = None /\ heap s2 !! 3%N = None.
Proof. eexists. repeat split; vm_compute; reflexivity. Qed.

(** The state the pruning leaves on the cohort of Sprite. *)
Definition prunedSprite : State :=
  stateOf (pruneMissingTypes resolveAll 8%nat cohortSprite
             (startState heapSprite cohortSprite)).

Lemma managed_mismatch_stops_load_witness :
  exists msg s' natives,
    finalizeAssemblyLoad hostBindings resolveAll false 8%nat 7%N cohortSprite
      (startState heapSprite cohortSprite) = Fail (FatalError msg) s' /\
    trace s' = trace prunedSprite
                 ++ (EvDeclareClass <$> live (heap prunedSprite) cohortSprite)
                 ++ (EvValidateNative <$> natives) /\
    ((exists s2, forEach (bindNative hostBindings) [22%N]
                   (declared cohortSprite prunedSprite) = Ok tt s2) ->
     msg = managedMismatch (typeAt (heap prunedSprite) 21%N)).
Proof.
  apply (managed_mismatch_stops_load hostBindings resolveAll false 8%nat 7%N
           cohortSprite cohortSprite [22%N] [] 21%N
           (startState heapSprite cohortSprite) prunedSprite).
  - vm_compute. reflexivity.
  - reflexivity.
  - split; [vm_compute; reflexivity|]. split; [vm_compute; reflexivity|].
    eexists. split; [vm_compute; reflexivity|]. vm_compute. discriminate.
Defined.

(** The managed mismatch of Sprite stops the load after [declareClass]
    has run for both types of the cohort: the fatal error does not come
    before every declare step. *)
Lemma managed_mismatch_after_declare :
  exists s',
    finalizeAssemblyLoad hostBindings resolveAll false 8%nat 7%N cohortSprite
      (startState heapSprite cohortSprite)
    = Fail (FatalError
              ("Managed mismatch for type app.Sprite, script declaration "
               +:+ "specifies managed while native bindings are unmanaged")) s' /\
    trace s' = [EvResolveScriptType 21%N; EvDeclareClass 22%N; EvDeclareClass 21%N].
Proof. eexists. split; vm_compute; reflexivity. Qed.

Lemma finalize_phases_ordered_witness :
  exists s1 natives,
    pruneMissingTypes resolveAll 8%nat cohortWidgets (startState heapWidgets cohortWidgets)
    = Ok cohortWidgets s1 /\
    trace (stateOf (finalizeAssemblyLoad hostBindings resolveAll true 8%nat 7%N
                      cohortWidgets (startState heapWidgets cohortWidgets)))
    = trace s1 ++ (EvDeclareClass <$> live (heap s1) cohortWidgets)
        ++ (EvValidateNative <$> natives)
        ++ (EvCache <$> live (heap s1) cohortWidgets)
        ++ (EvInitializeClass <$> live (heap s1) cohortWidgets)
        ++ (EvInitializeStatic <$> live (heap s1) cohortWidgets)
        ++ closingCalls true 7%N cohortWidgets.
Proof.
  apply (proj2 (finalize_phases_ordered hostBindings resolveAll true 7%N
                  cohortWidgets (startState heapWidgets cohortWidgets)) 8%nat).
  vm_compute. reflexivity.
Defined.

Example finalize_widgets_trace :
  trace (stateOf (finalizeAssemblyLoad hostBindings resolveAll true 8%nat 7%N
                    cohortWidgets (startState heapWidgets cohortWidgets)))
  = [EvResolveScriptType 31%N;
     EvDeclareClass 33%N; EvDeclareClass 31%N; EvDeclareClass 32%N;
     EvValidateNative 31%N;
     EvCache 33%N; EvCache 31%N; EvCache 32%N;
     EvInitializeClass 33%N; EvInitializeClass 31%N; EvInitializeClass 32%N;
     EvInitializeStatic 33%N; EvInitializeStatic 31%N; EvInitializeStatic 32%N;
     EvValidateRT 33%N; EvValidateRT 31%N; EvValidateRT 32%N;
     EvBootstrap 7%N].
Proof. vm_compute. reflexivity. Qed.

Lemma marking_closed_under_import_witness :
  exists h',
    markIncomplete 8 cohortChain cohortChain heapChain false = Some (h', true) /\
    getMissing h' 11%N = true /\ getMissing h' 12%N = true.
Proof.
  eexists. split; [by vm_compute|].
  refine (proj2 (proj2 (proj2
            (marking_closed_under_import 8 cohortChain heapChain _ true _)))
            11%N 12%N 13%N _ _ _ _ _).
  - by vm_compute.
  - apply (bool_decide_unpack _). by vm_compute.
  - apply (bool_decide_unpack _). by vm_compute.
  - apply (bool_decide_unpack _). by vm_compute.
  - apply (bool_decide_unpack _). by vm_compute.
  - by vm_compute.
Defined.

(** The length of the base-type chains in the cohort of Derived. *)
Definition rankDerived (t : ptr) : nat :=
  if bool_decide (t = NULL) then 0
  else if bool_decide (t = 1%N) then 2
  else 1.

Lemma marking_returns_witness :
  exists h' shrink,
    markIncomplete 4 cohortDerived cohortDerived heapDerived false = Some (h', shrink).
Proof.
  apply (marking_returns rankDerived 4 cohortDerived heapDerived).
  - intros u Hu. unfold rankDerived.
    rewrite (bool_decide_eq_false_2 (u = NULL)) by done.
    unfold typeAt, heapDerived.
    destruct (decide (u = 1%N)) as [->|H1]; [by vm_compute|].
    rewrite lookup_insert_ne by done.
    destruct (decide (u = 2%N)) as [->|H2]; [by vm_compute|].
    rewrite lookup_insert_ne by done.
    destruct (decide (u = 3%N)) as [->|H3]; [by vm_compute|].
    rewrite lookup_singleton_ne by done.
    rewrite (bool_decide_eq_false_2 (u = 1%N)) by done. vm_compute. lia.
  - intros t Ht. unfold rankDerived.
    destruct (bool_decide _); [lia|]. destruct (bool_decide _); lia.
  - cbn. lia.
Defined.

(** *** What [declareLuaTypes] leaves when it returns *)

Section BindingProofs.

Variable getNativeType : ptr -> option NativeTypeBase.

Local Abbreviation bindNative := (bindNative getNativeType).
Local Abbreviation declareLuaTypes := (declareLuaTypes getNativeType).

(** The types of a cohort that the second loop of [declareLuaTypes]
    binds: those that are not missing and are native or have a static
    native member. *)
Definition bound (h : gmap ptr LSType) (t : ptr) : bool :=
  negb (getMissing h t) && usesNative (typeAt h t).

(** The C type name of the binding registered for [t]. *)
Definition boundCTypeName (t : ptr) : string :=
  match getNativeType t with
  | Some ntb => ntbCTypeName ntb
  | None => ""
  end.

(** The heap after the second loop went over [rest]; [h0] is the heap
    it started from. *)
Definition bindAll (h0 : gmap ptr LSType) (rest : list ptr) (h : gmap ptr LSType)
  : gmap ptr LSType :=
  foldl (fun h t => if bound h0 t then setCTypeName h t (boundCTypeName t) else h)
    h rest.

Lemma sameButCTypeName_trans a b c :
  sameButCTypeName a b -> sameButCTypeName b c -> sameButCTypeName a c.
Proof. unfold sameButCTypeName. congruence. Qed.

Lemma bound_same h h0 t :
  (forall q, sameButCTypeName (typeAt h q) (typeAt h0 q)) ->
  negb (getMissing h t) && usesNative (typeAt h t) = bound h0 t.
Proof.
  intros Hsame. unfold bound, getMissing, usesNative.
  by destruct (sameButCTypeName_fields _ _ (Hsame t)) as (-> & _ & -> & -> & _).
Qed.

Lemma forEach_bindNative_Ok h0 rest : forall s s',
  (forall q, sameButCTypeName (typeAt (heap s) q) (typeAt h0 q)) ->
  forEach bindNative rest s = Ok tt s' ->
  heap s' = bindAll h0 rest (heap s) /\
  modules s' = modules s /\
  trace s' = trace s ++ (EvValidateNative <$> filter (fun t => bound h0 t = true) rest) /\
  (forall t, t ∈ rest -> bound h0 t = true ->
     exists ntb, getNativeType t = Some ntb /\
                 isManaged ntb = isNativeManaged (typeAt h0 t)).
Proof.
  induction rest as [|t rest IH]; intros s s' Hsame Hrun.
  - injection Hrun as <-. cbn. rewrite app_nil_r. repeat split.
    intros t Ht. by apply elem_of_nil in Ht.
  - cbn [forEach] in Hrun. apply bind_Ok_inv in Hrun as ([] & s1 & Hstep & Hrun).
    rewrite bindNative_unfold in Hstep. cbv zeta in Hstep.
    pose proof (bound_same (heap s) h0 t Hsame) as Hb.
    destruct (sameButCTypeName_fields _ _ (Hsame t)) as (_ & _ & _ & _ & Hman).
    change (bindAll h0 (t :: rest) (heap s))
      with (bindAll h0 rest (if bound h0 t
                             then setCTypeName (heap s) t (boundCTypeName t)
                             else heap s)).
    rewrite filter_cons.
    destruct (getMissing (heap s) t) eqn:Hm; cbn [negb andb] in Hb.
    { injection Hstep as <-. rewrite <- Hb.
      destruct (IH s s' Hsame Hrun) as (Hh & Hmo & Htr & Hall).
      rewrite decide_False by done.
      repeat split; try done.
      intros u Hu Hbu. apply elem_of_cons in Hu as [->|Hu]; [congruence|by apply Hall]. }
    destruct (usesNative (typeAt (heap s) t)) eqn:Hn.
    2: { injection Hstep as <-. rewrite <- Hb.
         destruct (IH s s' Hsame Hrun) as (Hh & Hmo & Htr & Hall).
         rewrite decide_False by done.
         repeat split; try done.
         intros u Hu Hbu. apply elem_of_cons in Hu as [->|Hu]; [congruence|by apply Hall]. }
    destruct (getNativeType t) as [ntb|] eqn:Hntb; [|discriminate].
    destruct (Bool.eqb _ _) eqn:Heq; cbn [negb] in Hstep; [|discriminate].
    destruct (validate ntb _); [|discriminate].
    injection Hstep as <-.
    apply Bool.eqb_prop in Heq.
    assert (Hsame1 : forall q,
               sameButCTypeName
                 (typeAt (heap (set_heap (setCTypeName (heap s) t (ntbCTypeName ntb))
                                  (set_trace (trace s ++ [EvValidateNative t]) s))) q)
                 (typeAt h0 q)).
    { intros q. cbn [heap set_heap set_trace].
      eapply sameButCTypeName_trans; [apply typeAt_setCTypeName|apply Hsame]. }
    destruct (IH _ s' Hsame1 Hrun) as (Hh & Hmo & Htr & Hall).
    rewrite <- Hb. rewrite decide_True by done.
    cbn [heap modules trace set_heap set_trace] in *.
    replace (boundCTypeName t) with (ntbCTypeName ntb)
      by (unfold boundCTypeName; by rewrite Hntb).
    repeat split; try done.
    + rewrite Htr. cbn [fmap list_fmap]. by rewrite <- app_assoc.
    + intros u Hu Hbu. apply elem_of_cons in Hu as [->|Hu]; [|by apply Hall].
      exists ntb. split; [done|]. congruence.
Qed.

Lemma withCTypeName_twice name t :
  withCTypeName name (withCTypeName name t) = withCTypeName name t.
Proof. reflexivity. Qed.

Lemma bindAll_lookup h0 rest : forall h q,
  bindAll h0 rest h !! q
  = if bool_decide (q ∈ rest /\ bound h0 q = true)
    then withCTypeName (boundCTypeName q) <$> h !! q
    else h !! q.
Proof.
  induction rest as [|t rest IH]; intros h q.
  - cbn. rewrite bool_decide_eq_false_2; [done|].
    intros [Hq _]. by apply elem_of_nil in Hq.
  - change (bindAll h0 (t :: rest) h)
      with (bindAll h0 rest (if bound h0 t
                             then setCTypeName h t (boundCTypeName t) else h)).
    rewrite IH. destruct (decide (q = t)) as [->|Hne].
    + destruct (bound h0 t) eqn:Hb.
      * rewrite (bool_decide_eq_true_2 (t ∈ t :: rest /\ true = true))
          by (split; [by left|done]).
        unfold setCTypeName. rewrite lookup_alter_eq.
        destruct (bool_decide _); [|done].
        destruct (h !! t); [|done]. cbn. by rewrite withCTypeName_twice.
      * rewrite !bool_decide_eq_false_2; [done| |]; by intros [_ ?].
    + assert (Hstep : (if bound h0 t then setCTypeName h t (boundCTypeName t) else h) !! q
                      = h !! q).
      { destruct (bound h0 t); [|done]. unfold setCTypeName.
        by rewrite lookup_alter_ne. }
      rewrite Hstep. apply (f_equal (fun b : bool => if b then _ else _)).
      apply bool_decide_ext. rewrite elem_of_cons. intuition congruence.
Qed.

Lemma bound_allocated h t : bound h t = true -> is_Some (h !! t).
Proof.
  unfold bound, getMissing, usesNative, typeAt.
  destruct (h !! t); [eauto|]. cbn. discriminate.
Qed.

(** When [declareLuaTypes] returns, it has called [declareClass] for
    every type that is not missing, then [validate] for every such
    type that is native or has a static native member, both in the
    order of the cohort; each of these types has a registered binding
    that agrees with its declaration on managed, and its C type name is
    now the one of the binding, nothing else of it having changed; no
    other type was touched.  When a type that is not missing and is
    native or has a static native member has no registered binding, the
    call does not return: it stops with a fatal error. *)
Theorem declareLuaTypes_binds (types : list ptr) (s : State) :
  (forall s', declareLuaTypes types s = Ok tt s' ->
     modules s' = modules s /\
     trace s' = trace s ++ (EvDeclareClass <$> live (heap s) types)
                  ++ (EvValidateNative
                        <$> filter (fun t => bound (heap s) t = true) types) /\
     (forall t, t ∈ types -> bound (heap s) t = true ->
        exists ntb,
          getNativeType t = Some ntb /\
          isManaged ntb = isNativeManaged (typeAt (heap s) t) /\
          typeAt (heap s') t = withCTypeName (ntbCTypeName ntb) (typeAt (heap s) t)) /\
     (forall q, ~ (q ∈ types /\ bound (heap s) q = true) ->
                heap s' !! q = heap s !! q)) /\
  ((exists t, t ∈ types /\ bound (heap s) t = true /\ getNativeType t = None) ->
   exists msg s', declareLuaTypes types s = Fail (FatalError msg) s').
Proof.
  assert (Hok : forall s', declareLuaTypes types s = Ok tt s' ->
     heap s' = bindAll (heap s) types (heap s) /\
     modules s' = modules s /\
     trace s' = trace s ++ (EvDeclareClass <$> live (heap s) types)
                  ++ (EvValidateNative
                        <$> filter (fun t => bound (heap s) t = true) types) /\
     (forall t, t ∈ types -> bound (heap s) t = true ->
        exists ntb, getNativeType t = Some ntb /\
                    isManaged ntb = isNativeManaged (typeAt (heap s) t))).
  { intros s' Hrun. unfold Loader.declareLuaTypes in Hrun.
    rewrite (bind_Ok _ _ _ _ _ (forEach_unlessMissing EvDeclareClass types s)) in Hrun.
    apply (forEach_bindNative_Ok (heap s)) in Hrun as (Hh & Hm & Htr & Hall);
      [|intros q; reflexivity].
    cbn [heap modules trace set_trace] in *.
    repeat split; try done. by rewrite Htr, <- app_assoc. }
  split.
  - intros s' Hrun. destruct (Hok s' Hrun) as (Hh & Hm & Htr & Hall).
    split; [done|]. split; [done|]. split.
    + intros t Ht Hb. destruct (Hall t Ht Hb) as (ntb & Hntb & Hman).
      exists ntb. split; [done|]. split; [done|].
      destruct (bound_allocated _ _ Hb) as [ty Hty].
      unfold typeAt. rewrite Hh, bindAll_lookup, bool_decide_eq_true_2 by done.
      rewrite Hty. cbn. unfold boundCTypeName. by rewrite Hntb.
    + intros q Hq. by rewrite Hh, bindAll_lookup, bool_decide_eq_false_2.
  - intros (t & Ht & Hb & Hnone).
    destruct (declareLuaTypes_outcome getNativeType types s)
      as (s1 & _ & [Hrun|[msg Hrun]]); [|eauto].
    destruct (Hok s1 Hrun) as (_ & _ & _ & Hall).
    destruct (Hall t Ht Hb) as (ntb & Hntb & _). congruence.
Qed.

End BindingProofs.

(** The widgets after [declareLuaTypes]. *)
Definition boundWidgets : State :=
  stateOf (declareLuaTypes hostBindings cohortWidgets
             (startState heapWidgets cohortWidgets)).

Lemma declareLuaTypes_binds_witness :
  modules boundWidgets = modules (startState heapWidgets cohortWidgets) /\
  trace boundWidgets
  = trace (startState heapWidgets cohortWidgets)
      ++ (EvDeclareClass <$> live heapWidgets cohortWidgets)
      ++ (EvValidateNative
            <$> filter (fun t => bound heapWidgets t = true) cohortWidgets) /\
  (forall t, t ∈ cohortWidgets -> bound heapWidgets t = true ->
     exists ntb,
       hostBindings t = Some ntb /\
       isManaged ntb = isNativeManaged (typeAt heapWidgets t) /\
       typeAt (heap boundWidgets) t
       = withCTypeName (ntbCTypeName ntb) (typeAt heapWidgets t)) /\
  (forall q, ~ (q ∈ cohortWidgets /\ bound heapWidgets q = true) ->
             heap boundWidgets !! q = heapWidgets !! q).
Proof.
  apply (proj1 (declareLuaTypes_binds hostBindings cohortWidgets
                  (startState heapWidgets cohortWidgets)) boundWidgets).
  vm_compute. reflexivity.
Defined.

(** Of the widgets only Widget is bound, and its C type name is the
    one of its binding; a cohort with a native type that has no binding
    is refused. *)
Example declareLuaTypes_widgets :
  filter (fun t => bound heapWidgets t = true) cohortWidgets = [31%N] /\
  getCTypeName (typeAt (heap boundWidgets) 31%N) = "Widget" /\
  exists s',
    declareLuaTypes (fun _ => None) cohortWidgets (startState heapWidgets cohortWidgets)
    = Fail (FatalError "Unable to get NativeTypeBase for type app.Widget") s'.
Proof.
  split; [vm_compute; reflexivity|]. split; [vm_compute; reflexivity|].
  eexists. vm_compute. reflexivity.
Qed.

(** *** The reason a missing type ends with *)

(** Between two heaps, a type that is missing in the first is as it
    was in the second, or has had its reason replaced by
    [incomplete]. *)
Definition restamps (h h' : gmap ptr LSType) : Prop :=
  forall q, getMissing h q = true ->
            h' !! q = h !! q \/ h' !! q = withMissing "incomplete" <$> h !! q.

(** Between two heaps, no type that is missing in the first has
    changed. *)
Definition keepsMissing (h h' : gmap ptr LSType) : Prop :=
  forall q, getMissing h q = true -> h' !! q = h !! q.

Lemma keepsMissing_trans h1 h2 h3 :
  keepsMissing h1 h2 -> keepsMissing h2 h3 -> keepsMissing h1 h3.
Proof.
  intros H12 H23 q Hq. rewrite <- (H12 q Hq). apply H23.
  by rewrite (getMissing_lookup _ _ _ (H12 q Hq)).
Qed.

Lemma keepsMissing_setMissing h t reason :
  getMissing h t = false -> keepsMissing h (setMissing h t reason).
Proof.
  intros Ht q Hq. unfold setMissing. apply lookup_alter_ne. congruence.
Qed.

Lemma markLoop_keeps recurse m :
  (forall t h h1, recurse t h = Some h1 -> keepsMissing h h1) ->
  forall rest h h', markLoop recurse m rest h = Some h' -> keepsMissing h h'.
Proof.
  intros Hrec. induction rest as [|t rest IH]; intros h h' Hrun; cbn [markLoop] in Hrun.
  - injection Hrun as <-. by intros q _.
  - destruct (getMissing h t) eqn:Ht; [by apply IH|].
    destruct (importsType _ m); [|by apply IH].
    destruct (recurse t _) as [h1|] eqn:Hcall; [|discriminate].
    eapply keepsMissing_trans; [by apply keepsMissing_setMissing|].
    eapply keepsMissing_trans; [by eapply Hrec|by apply IH].
Qed.

Lemma markImportedMissing_keeps types fuel : forall m h h',
  markImportedMissing fuel types m h = Some h' -> keepsMissing h h'.
Proof.
  induction fuel as [|fuel IH]; intros m h h' Hrun; [discriminate|].
  cbn [markImportedMissing] in Hrun. eapply markLoop_keeps; [|exact Hrun].
  intros t h0 h1. apply IH.
Qed.

Lemma restamps_refl h : restamps h h.
Proof. intros q _. by left. Qed.

Lemma restamps_missing h h' q :
  restamps h h' -> getMissing h q = true -> getMissing h' q = true.
Proof.
  intros Hr Hq. destruct (Hr q Hq) as [H|H].
  - by rewrite (getMissing_lookup _ _ _ H).
  - unfold getMissing, typeAt in *. rewrite H. by destruct (h !! q).
Qed.

Lemma restamps_trans h1 h2 h3 : restamps h1 h2 -> restamps h2 h3 -> restamps h1 h3.
Proof.
  intros H12 H23 q Hq.
  pose proof (restamps_missing _ _ _ H12 Hq) as Hq2.
  destruct (H12 q Hq) as [E12|E12], (H23 q Hq2) as [E23|E23]; rewrite E23, E12;
    [by left|by right|by right|].
  right. by destruct (h1 !! q).
Qed.

Lemma keepsMissing_restamps h h' : keepsMissing h h' -> restamps h h'.
Proof. intros Hk q Hq. left. by apply Hk. Qed.

Lemma restamps_setMissing h t :
  restamps h (setMissing h t "incomplete").
Proof.
  intros q _. unfold setMissing. destruct (decide (q = t)) as [->|Hne].
  - right. apply lookup_alter_eq.
  - left. by apply lookup_alter_ne.
Qed.

Lemma markIncomplete_restamps fuel types : forall rest h shrink h' shrink',
  markIncomplete fuel types rest h shrink = Some (h', shrink') -> restamps h h'.
Proof.
  induction rest as [|t rest IH]; intros h shrink h' shrink' Hrun;
    cbn [markIncomplete] in Hrun.
  - injection Hrun as <- _. apply restamps_refl.
  - destruct (searchMissing fuel h t) as [inc|]; [|discriminate].
    destruct (importMissing h inc _); [|by eapply IH].
    destruct (markImportedMissing fuel types t _) as [h1|] eqn:Hcall; [|discriminate].
    eapply restamps_trans; [apply restamps_setMissing|].
    eapply restamps_trans; [|by eapply IH].
    apply keepsMissing_restamps. by eapply markImportedMissing_keeps.
Qed.

Lemma searchMissing_here fuel h t inc :
  t <> NULL -> getMissing h t = true -> searchMissing fuel h t = Some inc -> inc = true.
Proof.
  intros Hnull Hmiss. destruct fuel as [|fuel]; [discriminate|].
  cbn [searchMissing]. unfold isNull. rewrite bool_decide_eq_false_2 by done.
  rewrite Hmiss. congruence.
Qed.

Lemma markIncomplete_stamps fuel types : forall rest h shrink h' shrink',
  markIncomplete fuel types rest h shrink = Some (h', shrink') ->
  forall t, t ∈ rest -> t <> NULL -> getMissing h t = true ->
    h' !! t = withMissing "incomplete" <$> h !! t /\ shrink' = true.
Proof.
  induction rest as [|u rest IH]; intros h shrink h' shrink' Hrun t Ht Hnull Hmiss;
    [by apply elem_of_nil in Ht|].
  cbn [markIncomplete] in Hrun.
  destruct (searchMissing fuel h u) as [inc|] eqn:Hsearch; [|discriminate].
  destruct (decide (t = u)) as [->|Hne].
  - rewrite (searchMissing_here _ _ _ _ Hnull Hmiss Hsearch), importMissing_true in Hrun.
    destruct (markImportedMissing fuel types u _) as [h1|] eqn:Hcall; [|discriminate].
    split; [|by eapply markIncomplete_shrink_stays].
    destruct (getMissing_allocated _ _ Hmiss) as [ty Hty].
    assert (Hset : setMissing h u "incomplete" !! u = Some (withMissing "incomplete" ty)).
    { unfold setMissing. by rewrite lookup_alter_eq, Hty. }
    assert (Hm1 : getMissing (setMissing h u "incomplete") u = true).
    { unfold getMissing, typeAt. by rewrite Hset. }
    pose proof (markImportedMissing_keeps _ _ _ _ _ Hcall u Hm1) as Hh1.
    assert (Hm2 : getMissing h1 u = true) by (by rewrite (getMissing_lookup _ _ _ Hh1)).
    destruct (markIncomplete_restamps _ _ _ _ _ _ _ Hrun u Hm2) as [E|E];
      rewrite E, Hh1, Hset, Hty; reflexivity.
  - apply elem_of_cons in Ht as [?|Ht]; [done|].
    destruct (importMissing h inc _).
    + destruct (markImportedMissing fuel types u _) as [h1|] eqn:Hcall; [|discriminate].
      assert (Hset : setMissing h u "incomplete" !! t = h !! t).
      { unfold setMissing. by apply lookup_alter_ne. }
      assert (Hm1 : getMissing (setMissing h u "incomplete") t = true)
        by (by rewrite (getMissing_lookup _ _ _ Hset)).
      pose proof (markImportedMissing_keeps _ _ _ _ _ Hcall t Hm1) as Hh1.
      assert (Hm2 : getMissing h1 t = true) by (by rewrite (getMissing_lookup _ _ _ Hh1)).
      destruct (IH _ _ _ _ Hrun t Ht Hnull Hm2) as [E ?]. by rewrite E, Hh1, Hset.
    + by apply (IH _ _ _ _ Hrun).
Qed.

Lemma markIncomplete_outside fuel types : forall rest h shrink h' shrink',
  markIncomplete fuel types rest h shrink = Some (h', shrink') ->
  forall q, getMissing h q = true -> q ∉ rest -> h' !! q = h !! q.
Proof.
  induction rest as [|u rest IH]; intros h shrink h' shrink' Hrun q Hq Hout;
    cbn [markIncomplete] in Hrun.
  - by injection Hrun as <- _.
  - destruct (searchMissing fuel h u) as [inc|]; [|discriminate].
    assert (Hne : q <> u) by (intros ->; apply Hout; by left).
    assert (Hrest : q ∉ rest) by (intros ?; apply Hout; by right).
    destruct (importMissing h inc _); [|by apply (IH _ _ _ _ Hrun)].
    destruct (markImportedMissing fuel types u _) as [h1|] eqn:Hcall; [|discriminate].
    assert (Hset : setMissing h u "incomplete" !! q = h !! q).
    { unfold setMissing. by apply lookup_alter_ne. }
    assert (Hm1 : getMissing (setMissing h u "incomplete") q = true)
      by (by rewrite (getMissing_lookup _ _ _ Hset)).
    pose proof (markImportedMissing_keeps _ _ _ _ _ Hcall q Hm1) as Hh1.
    assert (Hm2 : getMissing h1 q = true) by (by rewrite (getMissing_lookup _ _ _ Hh1)).
    by rewrite (IH _ _ _ _ Hrun q Hm2 Hrest), Hh1, Hset.
Qed.

(** In the marking loop of [finalizeAssemblyLoad] a type that is
    missing when its turn comes is marked again: every type of the
    cohort that was missing when the loop began ends with the reason
    [incomplete], whatever reason it had, and is otherwise unchanged,
    and the array is then compacted; a missing type outside the cohort
    is left as it was. *)
Theorem marking_overwrites_reason (fuel : nat) (types : list ptr)
  (h0 h' : gmap ptr LSType) (shrink : bool) :
  markIncomplete fuel types types h0 false = Some (h', shrink) ->
  NULL ∉ types ->
  (forall t, t ∈ types -> getMissing h0 t = true ->
     typeAt h' t = withMissing "incomplete" (typeAt h0 t) /\ shrink = true) /\
  (forall q, getMissing h0 q = true -> q ∉ types -> h' !! q = h0 !! q).
Proof.
  intros Hrun Hnull. split.
  - intros t Ht Hmiss.
    assert (Ht0 : t <> NULL) by (intros ->; contradiction).
    destruct (markIncomplete_stamps _ _ _ _ _ _ _ Hrun t Ht Ht0 Hmiss) as [E Hs].
    split; [|done]. unfold typeAt. rewrite E.
    destruct (getMissing_allocated _ _ Hmiss) as [ty Hty]. by rewrite Hty.
  - intros q Hq Hout. by eapply markIncomplete_outside.
Qed.

(** Gone is missing for a reason of its own when the load is
    finalised. *)
Definition heapNative : gmap ptr LSType :=
  <[42%N := scriptType "app.Scene" NULL [41%N] None]>
    {[ 41%N := scriptType "app.Gone" NULL [] (Some "missing native type") ]}.

Lemma marking_overwrites_reason_witness :
  exists h',
    markIncomplete 8%nat [42%N; 41%N] [42%N; 41%N] heapNative false = Some (h', true) /\
    (forall t, t ∈ [42%N; 41%N] -> getMissing heapNative t = true ->
       typeAt h' t = withMissing "incomplete" (typeAt heapNative t) /\ true = true) /\
    (forall q, getMissing heapNative q = true -> q ∉ [42%N; 41%N] ->
               h' !! q = heapNative !! q).
Proof.
  eexists. split; [vm_compute; reflexivity|].
  eapply (marking_overwrites_reason 8%nat [42%N; 41%N] heapNative _ true).
  - vm_compute. reflexivity.
  - apply (bool_decide_unpack _). vm_compute. exact I.
Defined.

(** Scene, which imports Gone, carries the reason of the main loop,
    and so does Gone, whose own reason is lost. *)
Example marking_reasons :
  (fun r => match r with
            | Some (h', _) => (missing (typeAt h' 42%N), missing (typeAt h' 41%N))
            | None => (None, None)
            end) (markIncomplete 8%nat [42%N; 41%N] [42%N; 41%N] heapNative false)
  = (Some "incomplete", Some "incomplete").
Proof. vm_compute. reflexivity. Qed.

(** *** A complete cohort goes through every phase *)

Lemma searchMissing_complete fuel : forall h t,
  searchMissing fuel h t = Some true -> missingAncestor h t.
Proof.
  induction fuel as [|fuel IH]; intros h t Hs; [discriminate|].
  cbn [searchMissing] in Hs. unfold isNull in Hs.
  destruct (bool_decide_reflect (t = NULL)) as [|Hne]; [discriminate|].
  destruct (getMissing h t) eqn:Hm.
  - by apply missingAncestor_here.
  - apply missingAncestor_up; [done|]. by apply IH.
Qed.

Lemma importMissing_none h imports :
  (forall i, i ∈ imports -> getMissing h i = false) ->
  importMissing h false imports = false.
Proof.
  unfold importMissing. induction imports as [|i imports IH]; intros Hall; [done|].
  cbn [foldl]. rewrite (Hall i) by (by left). apply IH.
  intros j Hj. apply Hall. by right.
Qed.

Lemma markIncomplete_complete (rank : ptr -> nat) fuel types h : forall rest,
  (forall u, u <> NULL -> (rank (getBaseType (typeAt h u)) < rank u)%nat) ->
  (forall t, t ∈ rest -> (rank t < fuel)%nat) ->
  (forall t, t ∈ rest ->
     ~ missingAncestor h t /\
     forall i, i ∈ getImports (typeAt h t) -> getMissing h i = false) ->
  markIncomplete fuel types rest h false = Some (h, false).
Proof.
  induction rest as [|t rest IH]; intros Hrank Hfuel Hall; [done|].
  cbn [markIncomplete].
  destruct (searchMissing_returns rank h fuel t Hrank) as [b Hb];
    [apply Hfuel; by left|].
  rewrite Hb. destruct (Hall t) as [Hanc Himp]; [by left|].
  destruct b; [exfalso; by apply Hanc, (searchMissing_complete fuel)|].
  rewrite importMissing_none by done.
  apply IH; [done| |]; intros u Hu; [apply Hfuel|apply Hall]; by right.
Qed.

Section HappyPath.

Variable getNativeType : ptr -> option NativeTypeBase.
Variable resolveScriptType : ptr -> gmap ptr LSType -> gmap ptr LSType.
Variable developmentPlatform : bool.

Local Abbreviation pruneMissingTypes := (pruneMissingTypes resolveScriptType).
Local Abbreviation finalizeAssemblyLoad :=
  (finalizeAssemblyLoad getNativeType resolveScriptType developmentPlatform).

(** A cohort in which nothing is missing once the native members are
    resolved: no type has a missing type in its base-type chain, or a
    missing import. *)
Definition complete (h : gmap ptr LSType) (types : list ptr) : Prop :=
  forall t, t ∈ types ->
    ~ missingAncestor h t /\
    forall i, i ∈ getImports (typeAt h t) -> getMissing h i = false.

Lemma complete_live h types :
  h !! NULL = None -> complete h types -> live h types = types.
Proof.
  intros Hnull Hc. apply live_all. intros t Ht.
  destruct (decide (t = NULL)) as [->|Hne]; [by apply getMissing_NULL|].
  destruct (getMissing h t) eqn:Hm; [|done].
  exfalso. apply (Hc t Ht). by apply missingAncestor_here.
Qed.

(** [finalizeAssemblyLoad] on a cohort in which, once the native members
    are resolved, no type has a missing type in its base-type chain or
    among its imports keeps the cohort whole: pruning marks nothing and
    returns the cohort unchanged, every type of it is declared, and either
    the native validation raises a fatal error and nothing further runs,
    or the cohort is cached, its classes and statics are initialised and
    the closing calls are made, in that order, on every type of it. *)
Theorem finalize_keeps_complete_cohort (rank : ptr -> nat) (fuel : nat)
  (assembly : ptr) (types : list ptr) (s s1 : State) :
  forEach (resolveNative resolveScriptType) types s = Ok tt s1 ->
  heap s1 !! NULL = None ->
  (forall u, u <> NULL -> (rank (getBaseType (typeAt (heap s1) u)) < rank u)%nat) ->
  (forall t, t ∈ types -> (rank t < fuel)%nat) ->
  complete (heap s1) types ->
  pruneMissingTypes fuel types s = Ok types s1 /\
  exists natives s',
    (finalizeAssemblyLoad fuel assembly types s = Ok types s' /\
     trace s' = trace s1 ++ (EvDeclareClass <$> types)
                  ++ (EvValidateNative <$> natives)
                  ++ (EvCache <$> types) ++ (EvInitializeClass <$> types)
                  ++ (EvInitializeStatic <$> types)
                  ++ closingCalls developmentPlatform assembly types)
    \/
    (exists msg,
        finalizeAssemblyLoad fuel assembly types s = Fail (FatalError msg) s' /\
        trace s' = trace s1 ++ (EvDeclareClass <$> types)
                     ++ (EvValidateNative <$> natives)).
Proof.
  intros Hres Hnull Hrank Hfuel Hc.
  assert (Hprune : pruneMissingTypes fuel types s = Ok types s1).
  { unfold Loader.pruneMissingTypes. rewrite (bind_Ok _ _ _ _ _ Hres).
    unfold bind at 1, markMissing. unfold bind at 1, get at 1.
    rewrite (markIncomplete_complete rank fuel types (heap s1) types Hrank Hfuel Hc).
    unfold bind, put, ret. by destruct s1. }
  split; [exact Hprune|].
  destruct (bringUp_outcome getNativeType developmentPlatform assembly types s1)
    as (natives & s' & Hcase).
  rewrite (complete_live _ _ Hnull Hc) in Hcase.
  exists natives, s'. unfold Loader.finalizeAssemblyLoad.
  rewrite (bind_Ok _ _ _ _ _ Hprune).
  destruct Hcase as [[Hrun Htr]|(msg & Hrun & Htr)].
  - left. rewrite (bind_Ok _ _ _ _ _ Hrun). split; [reflexivity|].
    rewrite Htr. unfold initializeCalls. by rewrite <- !app_assoc.
  - right. exists msg. by rewrite (bind_Fail _ _ _ _ _ Hrun).
Qed.

End HappyPath.

(** The widgets after the native members were resolved. *)
Definition resolvedWidgets : State :=
  stateOf (forEach (resolveNative resolveAll) cohortWidgets
             (startState heapWidgets cohortWidgets)).

Definition rankWidgets (t : ptr) : nat :=
  if bool_decide (t = NULL) then 0
  else if bool_decide (t = 33%N) then 2
  else 1.

Lemma finalize_keeps_complete_cohort_witness :
  pruneMissingTypes resolveAll 8 cohortWidgets (startState heapWidgets cohortWidgets)
  = Ok cohortWidgets resolvedWidgets /\
  exists natives s',
    (finalizeAssemblyLoad hostBindings resolveAll true 8 7%N cohortWidgets
       (startState heapWidgets cohortWidgets) = Ok cohortWidgets s' /\
     trace s' = trace resolvedWidgets ++ (EvDeclareClass <$> cohortWidgets)
                  ++ (EvValidateNative <$> natives)
                  ++ (EvCache <$> cohortWidgets) ++ (EvInitializeClass <$> cohortWidgets)
                  ++ (EvInitializeStatic <$> cohortWidgets)
                  ++ closingCalls true 7%N cohortWidgets)
    \/
    (exists msg,
        finalizeAssemblyLoad hostBindings resolveAll true 8 7%N cohortWidgets
          (startState heapWidgets cohortWidgets) = Fail (FatalError msg) s' /\
        trace s' = trace resolvedWidgets ++ (EvDeclareClass <$> cohortWidgets)
                     ++ (EvValidateNative <$> natives)).
Proof.
  apply (finalize_keeps_complete_cohort hostBindings resolveAll true rankWidgets
           8 7%N cohortWidgets (startState heapWidgets cohortWidgets) resolvedWidgets).
  - vm_compute. reflexivity.
  - vm_compute. reflexivity.
  - change (heap resolvedWidgets) with heapWidgets.
    intros u Hu. unfold rankWidgets.
    rewrite (bool_decide_eq_false_2 (u = NULL)) by done.
    unfold typeAt, heapWidgets.
    destruct (decide (u = 31%N)) as [->|H1]; [by vm_compute|].
    rewrite lookup_insert_ne by done.
    destruct (decide (u = 32%N)) as [->|H2]; [by vm_compute|].
    rewrite lookup_insert_ne by done.
    destruct (decide (u = 33%N)) as [->|H3]; [vm_compute; lia|].
    rewrite lookup_singleton_ne by done.
    rewrite (bool_decide_eq_false_2 (u = 33%N)) by done. vm_compute. lia.
  - intros t Ht. unfold rankWidgets.
    destruct (bool_decide _); [lia|]. destruct (bool_decide _); lia.
  - change (heap resolvedWidgets) with heapWidgets.
    intros t Ht. unfold cohortWidgets in Ht.
    repeat (apply elem_of_cons in Ht as [->|Ht]);
      [..|by apply elem_of_nil in Ht];
      (split; [apply (searchMissing_sound 8); vm_compute; reflexivity|]);
      intros i Hi; vm_compute in Hi;
      repeat (apply elem_of_cons in Hi as [->|Hi]);
      try (by apply elem_of_nil in Hi); vm_compute; reflexivity.
Defined.

(** The trace of the widgets: the native type is resolved, then the
    phases run on the whole cohort. *)
Example finalize_widgets_complete :
  trace resolvedWidgets = [EvResolveScriptType 31%N] /\
  heap resolvedWidgets = heapWidgets.
Proof. split; vm_compute; reflexivity. Qed.

End LoaderProofs.
